(** * mpi-sppy: hub-and-spoke orchestration and the SPOpt solve layer

    A shallow embedding of

    - [mpisppy/spin_the_wheel.py]: [WheelSpinner] and [_make_comms];
    - [mpisppy/spopt.py]: [SPOpt.solve_one], [SPOpt._update_E1],
      [SPOpt.feas_prob], [SPOpt.infeas_prob], [SPOpt._save_nonants],
      [SPOpt._restore_nonants] and [set_instance_retry];

    followed by the properties of these functions.

    Conventions.  Python code that can raise returns a [result]; code that
    mutates objects or calls collaborators runs in the state-and-exception
    monad [M], whose state survives a raise (a Python exception does not
    undo the mutations made before it).  Calls into collaborators that are
    not part of these two files (the solver plugin, the hub and spoke
    classes, MPI collectives, [print], [time.sleep]) are recorded as events
    of a trace; what they answer is read from an explicit oracle.  Numbers
    stored in numpy arrays of dtype ['d'] are binary64 floats. *)

From Stdlib Require Import ZArith Lia List Bool String.
From Stdlib Require Import PrimFloat.
From stdpp Require Import base gmap strings list pretty sorting.

Set Warnings "-inexact-float".
Local Open Scope string_scope.
Local Open Scope list_scope.

(** ** Python results and the state-and-exception monad *)

Inductive exn :=
| RuntimeError (msg : string)
| FileExistsError (msg : string)
| ZeroDivisionError
| KeyError (key : string)
| IndexError
| AttributeError (attr : string)
| TypeError
| ValueError
| AssertionError
| CollaboratorError (tag : string).

Inductive result (A : Type) :=
| Ok (a : A)
| Raise (e : exn).
Arguments Ok {A} a.
Arguments Raise {A} e.

Definition is_ok {A} (r : result A) : bool :=
  match r with Ok _ => true | Raise _ => false end.

Definition M (S A : Type) : Type := S -> result A * S.

Definition ret {S A} (a : A) : M S A := fun s => (Ok a, s).

Definition raise {S A} (e : exn) : M S A := fun s => (Raise e, s).

Definition bind {S A B} (c : M S A) (k : A -> M S B) : M S B :=
  fun s =>
    match c s with
    | (Ok a, s') => k a s'
    | (Raise e, s') => (Raise e, s')
    end.

Definition get {S} : M S S := fun s => (Ok s, s).

Definition modify {S} (f : S -> S) : M S unit := fun s => (Ok tt, f s).

Definition lift {S A} (r : result A) : M S A := fun s => (r, s).

(** [try c handler]: Python's [try: c  except Exception as e: handler e]. *)
Definition try {S A} (c : M S A) (handler : exn -> M S A) : M S A :=
  fun s =>
    match c s with
    | (Ok a, s') => (Ok a, s')
    | (Raise e, s') => handler e s'
    end.

Notation "'let!' x ':=' c1 'in' c2" := (bind c1 (fun x => c2))
  (at level 10, x pattern, c1 at level 100, c2 at level 200,
   format "'[v' 'let!'  x  ':='  c1  'in' '/' c2 ']'").
Notation "'do!' c1 'in' c2" := (bind c1 (fun _ => c2))
  (at level 10, c1 at level 100, c2 at level 200,
   format "'[v' 'do!'  c1  'in' '/' c2 ']'").

(** [for x in xs: body x]. *)
Fixpoint for_each {S A} (xs : list A) (body : A -> M S unit) : M S unit :=
  match xs with
  | [] => ret tt
  | x :: xs' => do! body x in for_each xs' body
  end.

(** [when b: c]. *)
Definition when {S} (b : bool) (c : M S unit) : M S unit :=
  if b then c else ret tt.

(** ** MPI communicators

    Every process of a world runs the same program.  The processes of a
    world of [size] processes are identified by their rank in it,
    [0 .. size-1].  A communicator obtained by [Split] is described, for the
    calling process, by the world ranks of its members in the order of
    their new ranks. *)
Module MPI.

Record World := mkWorld { size : nat; rank : nat }.

Record Comm := mkComm { members : list nat; caller : nat }.

Fixpoint index_of (x : nat) (l : list nat) : nat :=
  match l with
  | [] => 0
  | y :: l' => if Nat.eqb x y then 0 else S (index_of x l')
  end.

Definition Get_rank (c : Comm) : nat := index_of (caller c) (members c).

Definition Get_size (c : Comm) : nat := length (members c).

(** Insertion after the elements whose key is not larger: ranks in the new
    communicator are ordered by key, ties by rank in the old one. *)
Fixpoint insert_by_key (key : nat -> nat) (x : nat) (l : list nat) : list nat :=
  match l with
  | [] => [x]
  | y :: l' =>
      if Nat.ltb (key x) (key y) then x :: l
      else y :: insert_by_key key x l'
  end.

Definition sort_by_key (key : nat -> nat) (l : list nat) : list nat :=
  fold_left (fun acc x => insert_by_key key x acc) l [].

(** [comm.Split(color=..., key=...)], a collective call: [color r] and
    [key r] are the arguments passed by the process of rank [r]. *)
Definition Split (w : World) (color key : nat -> nat) : Comm :=
  {| members :=
       sort_by_key key
         (filter (fun r => color r = color (rank w)) (seq 0 (size w)));
     caller := rank w |}.

End MPI.

(** ** spin_the_wheel.py *)
Module SpinTheWheel.
Import MPI.

(** *** Python objects *)

(** A keyword argument: the communicator stored under ["mpicomm"], or a
    value this file never looks into. *)
Inductive kwarg :=
| KwComm (c : Comm)
| KwOther (repr : string).

(** A value of a hub or spoke dictionary. *)
Inductive pyval :=
| PyClass (name : string)
| PyKwargs (kw : gmap string kwarg)
| PyOther (repr : string).

Abbreviation pydict := (gmap string pyval).

(** A dictionary object is referred to by its address: [hub_dict] and the
    members of [list_of_spoke_dict] are references, and [run] mutates the
    objects behind them.  The store [dicts] of a process maps addresses to
    dictionaries. *)
Definition ref := nat.

Record Node := mkNode {
  node_name : string;
  nonant_vardata_list : list (option float) }.

(** The hub or spoke object built by [sp_class(...)], with the attributes
    that [WheelSpinner] reads from it. *)
Record SPComm := mkSPComm {
  sp_global_rank : nat;
  sp_strata_rank : nat;
  last_ib_idx : option nat;
  sp_BestInnerBound : option float;
  sp_BestOuterBound : option float;
  opt_local_scenarios : list (string * list Node) }.

(** The attributes of a [WheelSpinner]; [None] is an attribute that has
    not been assigned. *)
Record WheelSpinner := mkWheelSpinner {
  hub_dict : ref;
  list_of_spoke_dict : list ref;
  _ran : bool;
  spcomm : option SPComm;
  spcomm_dict : option ref;
  global_rank : option nat;
  strata_rank : option nat;
  cylinder_rank : option nat;
  BestInnerBound : option (option float);
  BestOuterBound : option (option float) }.

Inductive CommName := FullComm | CylinderComm.

(** Calls to collaborators, in program order; [EvSplit color key] is
    [fullcomm.Split(key=key, color=color)] with the arguments of the
    calling process. *)
Inductive Event :=
| EvSplit (color key : nat)
| EvNewOpt (opt_class : pyval) (opt_kwargs : gmap string kwarg)
| EvNewSPComm (sp_class : pyval) (strata_comm cylinder_comm : Comm)
              (communicator_list : list ref) (sp_kwargs : pyval)
| EvMakeWindows
| EvSetupHub
| EvGlobalToc (msg : string) (cond : bool)
| EvMain
| EvSendTerminate
| EvFinalize
| EvBarrier (comm : CommName)
| EvHubFinalize
| EvFreeWindows
| EvBcast (obj : option Z)
| EvWriteFirstStageSolution (solution_file_name : string)
| EvWriteTreeSolution (solution_directory_name : string).

(** The state of one process. *)
Record ProcState := mkProcState {
  self : WheelSpinner;
  dicts : gmap ref pydict;
  trace : list Event }.

(** The environment of one process: whether [mpi4py] could be imported,
    [MPI.COMM_WORLD], which collaborator calls raise ([raises n e]: the
    call [e], made after [n] earlier calls, raises), the object that
    [sp_class(...)] returns, and what [bcast] delivers from the root. *)
Record Env := mkEnv {
  haveMPI : bool;
  COMM_WORLD : World;
  raises : nat -> Event -> option exn;
  new_spcomm : SPComm;
  bcast_from_root : option Z }.

Definition set_self (f : WheelSpinner -> WheelSpinner) (s : ProcState) : ProcState :=
  {| self := f (self s); dicts := dicts s; trace := trace s |}.

Definition set_dict (d : ref) (v : pydict) (s : ProcState) : ProcState :=
  {| self := self s;
     dicts := <[d := v]> (dicts s);
     trace := trace s |}.

Definition emit (e : Event) (s : ProcState) : ProcState :=
  {| self := self s; dicts := dicts s; trace := trace s ++ [e] |}.

(** A call to a collaborator: recorded, then it returns or raises. *)
Definition call (env : Env) (e : Event) : M ProcState unit :=
  fun s =>
    match raises env (length (trace s)) e with
    | Some x => (Raise x, emit e s)
    | None => (Ok tt, emit e s)
    end.

(** [k in d], [d[k]], [d[k] = v] and [d.pop(k)] on a dictionary object. *)
Definition contains (d : ref) (k : string) : M ProcState bool :=
  fun s => (Ok (bool_decide (is_Some ((dicts s !!! d) !! k))), s).

Definition getitem (d : ref) (k : string) : M ProcState pyval :=
  fun s =>
    match (dicts s !!! d) !! k with
    | Some v => (Ok v, s)
    | None => (Raise (KeyError k), s)
    end.

Definition setitem (d : ref) (k : string) (v : pyval) : M ProcState unit :=
  fun s => (Ok tt, set_dict d (<[k := v]> (dicts s !!! d)) s).

Definition pop (d : ref) (k : string) : M ProcState pyval :=
  fun s =>
    match (dicts s !!! d) !! k with
    | Some v => (Ok v, set_dict d (delete k (dicts s !!! d)) s)
    | None => (Raise (KeyError k), s)
    end.

(** [l[i]] on a list. *)
Definition list_getitem {A} (l : list A) (i : nat) : result A :=
  match l !! i with
  | Some x => Ok x
  | None => Raise IndexError
  end.

(** [cls.__name__]. *)
Definition __name__ (cls : pyval) : result string :=
  match cls with
  | PyClass name => Ok name
  | _ => Raise (AttributeError "__name__")
  end.

(** *** [_make_comms] *)

Definition need_multiple_msg (n_spcomms n_proc : nat) : string :=
  "Need a multiple of " +:+ pretty n_spcomms +:+ " processes (got "
    +:+ pretty n_proc +:+ ")".

(** Python's [a % b] and [a // b] on non-negative integers. *)
Definition py_mod (a b : nat) : result nat :=
  if Nat.eqb b 0 then Raise ZeroDivisionError else Ok (a mod b).

Definition py_floordiv (a b : nat) : result nat :=
  if Nat.eqb b 0 then Raise ZeroDivisionError else Ok (a / b).

(** [_make_comms(n_spcomms, fullcomm=None)], lines 232-249.  The two
    [Split] calls are collective: the process of rank [global_rank] passes
    [color=global_rank // n_spcomms] to the first and
    [color=global_rank % n_spcomms] to the second, and [key=global_rank]
    to both. *)
Definition _make_comms (env : Env) (n_spcomms : nat) (fullcomm : option World)
  : M ProcState (Comm * Comm) :=
  if negb (haveMPI env) then
    raise (RuntimeError "make_comms called, but cannot import mpi4py")
  else
    let fullcomm := match fullcomm with
                    | None => COMM_WORLD env
                    | Some c => c
                    end in
    let n_proc := size fullcomm in
    let! r := lift (py_mod n_proc n_spcomms) in
    if negb (Nat.eqb r 0) then
      raise (RuntimeError (need_multiple_msg n_spcomms n_proc))
    else
      let global_rank := rank fullcomm in
      let! color := lift (py_floordiv global_rank n_spcomms) in
      do! modify (emit (EvSplit color global_rank)) in
      let strata_comm :=
        Split fullcomm (fun global_rank => global_rank / n_spcomms)
                       (fun global_rank => global_rank) in
      let! color := lift (py_mod global_rank n_spcomms) in
      do! modify (emit (EvSplit color global_rank)) in
      let cylinder_comm :=
        Split fullcomm (fun global_rank => global_rank mod n_spcomms)
                       (fun global_rank => global_rank) in
      ret (strata_comm, cylinder_comm).

(** *** [WheelSpinner] *)

(** [WheelSpinner.__init__(hub_dict, list_of_spoke_dict)], lines 20-38. *)
Definition __init__ (env : Env) (hub_dict : ref) (list_of_spoke_dict : list ref)
  : result WheelSpinner :=
  if negb (haveMPI env) then
    Raise (RuntimeError "spin_the_wheel called, but cannot import mpi4py")
  else
    Ok {| hub_dict := hub_dict;
          list_of_spoke_dict := list_of_spoke_dict;
          _ran := false;
          spcomm := None; spcomm_dict := None; global_rank := None;
          strata_rank := None; cylinder_rank := None;
          BestInnerBound := None; BestOuterBound := None |}.

Definition _key_conversion : list (string * string) :=
  [ ("hub_class", "spcomm_class");
    ("hub_kwargs", "spcomm_kwargs");
    ("spoke_class", "spcomm_class");
    ("spoke_kwargs", "spcomm_kwargs") ].

(** Lines 55-68: the keys of [hub_dict]. *)
Definition check_hub_dict (hub_dict : ref) : M ProcState unit :=
  let! b := contains hub_dict "hub_class" in
  if negb b then
    raise (RuntimeError
      ("The hub_dict must contain a 'hub_class' key specifying "
       +:+ "the hub class to use"))
  else
  let! b := contains hub_dict "opt_class" in
  if negb b then
    raise (RuntimeError
      ("The hub_dict must contain an 'opt_class' key specifying "
       +:+ "the SPBase class to use (e.g. PHBase, etc.)"))
  else
  let! b := contains hub_dict "hub_kwargs" in
  do! when (negb b) (setitem hub_dict "hub_kwargs" (PyKwargs ∅)) in
  let! b := contains hub_dict "opt_kwargs" in
  when (negb b) (setitem hub_dict "opt_kwargs" (PyKwargs ∅)).

(** Lines 70-83: the body of the loop over [list_of_spoke_dict]. *)
Definition check_spoke_dict (spoke_dict : ref) : M ProcState unit :=
  let! b := contains spoke_dict "spoke_class" in
  if negb b then
    raise (RuntimeError
      ("Each spoke_dict must contain a 'spoke_class' key "
       +:+ "specifying the spoke class to use"))
  else
  let! b := contains spoke_dict "opt_class" in
  if negb b then
    raise (RuntimeError
      ("Each spoke_dict must contain an 'opt_class' key "
       +:+ "specifying the SPBase class to use (e.g. PHBase, etc.)"))
  else
  let! b := contains spoke_dict "spoke_kwargs" in
  do! when (negb b) (setitem spoke_dict "spoke_kwargs" (PyKwargs ∅)) in
  let! b := contains spoke_dict "opt_kwargs" in
  when (negb b) (setitem spoke_dict "opt_kwargs" (PyKwargs ∅)).

(** Lines 99-102: the renaming of the keys of one dictionary. *)
Definition convert_keys (d : ref) : M ProcState unit :=
  for_each _key_conversion (fun '(oldk, newk) =>
    let! b := contains d oldk in
    when b (let! v := pop d oldk in setitem d newk v)).

(** Lines 137-156: what [run] does once [spcomm.main()] is reached. *)
Definition main_and_shutdown (env : Env) (strata_rank cylinder_rank : nat)
    (opt_class sp_class : pyval) : M ProcState unit :=
  do! call env EvMain in
  do! when (Nat.eqb strata_rank 0) (call env EvSendTerminate) in
  do! call env EvFinalize in
  do! call env (EvBarrier CylinderComm) in
  let! opt_class_name := lift (__name__ opt_class) in
  do! call env (EvGlobalToc
        ("Hub algorithm " +:+ opt_class_name
         +:+ " complete, waiting for spoke finalization") true) in
  let! sp_class_name := lift (__name__ sp_class) in
  do! call env (EvGlobalToc
        ("Spoke " +:+ sp_class_name +:+ " finalized")
        (Nat.eqb cylinder_rank 0 && negb (Nat.eqb strata_rank 0))) in
  do! call env (EvBarrier FullComm) in
  do! call env EvHubFinalize in
  do! call env EvFreeWindows in
  do! call env (EvBarrier FullComm) in
  call env (EvGlobalToc "Cylinder finalization complete" true).

(** [WheelSpinner.run(comm_world=None)], lines 43-172. *)
Definition run (env : Env) (comm_world : option World) : M ProcState unit :=
  let! s := get in
  if _ran (self s) then
    raise (RuntimeError "WheelSpinner can only be run once")
  else
  let hub_dict := hub_dict (self s) in
  let list_of_spoke_dict := list_of_spoke_dict (self s) in
  do! check_hub_dict hub_dict in
  do! for_each list_of_spoke_dict check_spoke_dict in
  let comm_world := match comm_world with
                    | None => COMM_WORLD env
                    | Some c => c
                    end in
  let communicator_list := hub_dict :: list_of_spoke_dict in
  do! for_each communicator_list convert_keys in
  let n_spcomms := length communicator_list in
  let fullcomm := comm_world in
  let! (strata_comm, cylinder_comm) := _make_comms env n_spcomms (Some fullcomm) in
  let strata_rank := Get_rank strata_comm in
  let cylinder_rank := Get_rank cylinder_comm in
  let global_rank := rank fullcomm in
  let! spcomm_dict := lift (list_getitem communicator_list strata_rank) in
  let! sp_class := getitem spcomm_dict "spcomm_class" in
  let! sp_kwargs := getitem spcomm_dict "spcomm_kwargs" in
  let! opt_class := getitem spcomm_dict "opt_class" in
  let! opt_kwargs := getitem spcomm_dict "opt_kwargs" in
  let! opt_kwargs :=
    match opt_kwargs with
    | PyKwargs kw =>
        let kw := <["mpicomm" := KwComm cylinder_comm]> kw in
        do! setitem spcomm_dict "opt_kwargs" (PyKwargs kw) in
        ret kw
    | _ => raise TypeError
    end in
  do! call env (EvNewOpt opt_class opt_kwargs) in
  do! call env (EvNewSPComm sp_class strata_comm cylinder_comm
                            communicator_list sp_kwargs) in
  let spcomm := new_spcomm env in
  do! call env EvMakeWindows in
  do! when (Nat.eqb strata_rank 0) (call env EvSetupHub) in
  do! call env (EvGlobalToc "Starting spcomm.main()" true) in
  do! main_and_shutdown env strata_rank cylinder_rank opt_class sp_class in
  modify (set_self (fun w =>
    {| hub_dict := SpinTheWheel.hub_dict w;
       list_of_spoke_dict := SpinTheWheel.list_of_spoke_dict w;
       spcomm := Some spcomm;
       spcomm_dict := Some spcomm_dict;
       global_rank := Some global_rank;
       strata_rank := Some strata_rank;
       cylinder_rank := Some cylinder_rank;
       BestInnerBound :=
         Some (if Nat.eqb strata_rank 0 then sp_BestInnerBound spcomm else None);
       BestOuterBound :=
         Some (if Nat.eqb strata_rank 0 then sp_BestOuterBound spcomm else None);
       _ran := true |})).

(** [WheelSpinner.spin(comm_world=None)], lines 40-41. *)
Definition spin (env : Env) (comm_world : option World) : M ProcState unit :=
  run env comm_world.

(** Reading an attribute that may not have been assigned. *)
Definition getattr {A} (name : string) (field : WheelSpinner -> option A)
  : M ProcState A :=
  fun s =>
    match field (self s) with
    | Some v => (Ok v, s)
    | None => (Raise (AttributeError name), s)
    end.

(** [WheelSpinner.on_hub()], lines 174-177. *)
Definition on_hub : M ProcState bool :=
  let! s := get in
  if negb (_ran (self s)) then
    raise (RuntimeError "Need to call WheelSpinner.run() before finding out.")
  else
    let! strata_rank := getattr "strata_rank" strata_rank in
    ret (Nat.eqb strata_rank 0).

(** [WheelSpinner._determine_innerbound_winner()], lines 219-230. *)
Definition _determine_innerbound_winner (env : Env) : M ProcState bool :=
  let! spcomm := getattr "spcomm" spcomm in
  let! best_strata_rank :=
    if Nat.eqb (sp_global_rank spcomm) 0 then
      match last_ib_idx spcomm with
      | None =>
          do! call env (EvGlobalToc "No incumbent solution available to write!" true) in
          ret (Some (-1)%Z)
      | Some idx => ret (Some (Z.of_nat idx))
      end
    else ret None in
  do! call env (EvBcast best_strata_rank) in
  let best_strata_rank :=
    if Nat.eqb (sp_global_rank spcomm) 0 then best_strata_rank
    else bcast_from_root env in
  ret (bool_decide (Some (Z.of_nat (sp_strata_rank spcomm)) = best_strata_rank)).

(** [WheelSpinner.write_first_stage_solution(solution_file_name)],
    lines 179-190. *)
Definition write_first_stage_solution (env : Env) (solution_file_name : string)
  : M ProcState unit :=
  let! s := get in
  if negb (_ran (self s)) then
    raise (RuntimeError "Need to call WheelSpinner.run() before querying solutions.")
  else
    let! winner := _determine_innerbound_winner env in
    when winner (call env (EvWriteFirstStageSolution solution_file_name)).

(** [WheelSpinner.write_tree_solution(solution_directory_name)],
    lines 192-203. *)
Definition write_tree_solution (env : Env) (solution_directory_name : string)
  : M ProcState unit :=
  let! s := get in
  if negb (_ran (self s)) then
    raise (RuntimeError "Need to call WheelSpinner.run() before querying solutions.")
  else
    let! winner := _determine_innerbound_winner env in
    when winner (call env (EvWriteTreeSolution solution_directory_name)).

(** [value(var)] of Pyomo: a variable without a value has none to give. *)
Definition value (var : option float) : result float :=
  match var with
  | Some x => Ok x
  | None => Raise ValueError
  end.

Fixpoint values (vars : list (option float)) : result (list float) :=
  match vars with
  | [] => Ok []
  | var :: vars' =>
      match value var with
      | Raise e => Raise e
      | Ok x =>
          match values vars' with
          | Raise e => Raise e
          | Ok xs => Ok (x :: xs)
          end
      end
  end.

Fixpoint collect_nodes (nodes : list Node) (local_xhats : gmap string (list float))
  : result (gmap string (list float)) :=
  match nodes with
  | [] => Ok local_xhats
  | node :: nodes' =>
      match local_xhats !! node_name node with
      | Some _ => collect_nodes nodes' local_xhats
      | None =>
          match values (nonant_vardata_list node) with
          | Raise e => Raise e
          | Ok xs => collect_nodes nodes' (<[node_name node := xs]> local_xhats)
          end
      end
  end.

Fixpoint collect_scenarios (scenarios : list (string * list Node))
    (local_xhats : gmap string (list float))
  : result (gmap string (list float)) :=
  match scenarios with
  | [] => Ok local_xhats
  | (k, s) :: scenarios' =>
      match collect_nodes s local_xhats with
      | Raise e => Raise e
      | Ok local_xhats => collect_scenarios scenarios' local_xhats
      end
  end.

(** [WheelSpinner.local_nonant_cache()], lines 205-217. *)
Definition local_nonant_cache : M ProcState (gmap string (list float)) :=
  let! s := get in
  if negb (_ran (self s)) then
    raise (RuntimeError "Need to call WheelSpinner.run() before querying solutions.")
  else
    let! spcomm := getattr "spcomm" spcomm in
    lift (collect_scenarios (opt_local_scenarios spcomm) ∅).

(** The best bounds are the attributes [BestInnerBound] and
    [BestOuterBound], assigned at the end of [run] (lines 165-170). *)
Definition best_inner_bound : M ProcState (option float) :=
  getattr "BestInnerBound" BestInnerBound.

Definition best_outer_bound : M ProcState (option float) :=
  getattr "BestOuterBound" BestOuterBound.

(** *** The interface of a [WheelSpinner]

    What a caller can do with an instance: call one of its methods or read
    one of the two bound attributes. *)
Inductive Call :=
| CallRun (comm_world : option World)
| CallSpin (comm_world : option World)
| CallOnHub
| CallWriteFirstStageSolution (solution_file_name : string)
| CallWriteTreeSolution (solution_directory_name : string)
| CallLocalNonantCache
| ReadBestInnerBound
| ReadBestOuterBound.

(** The call, with its return value dropped. *)
Definition perform (env : Env) (c : Call) : M ProcState unit :=
  match c with
  | CallRun comm_world => run env comm_world
  | CallSpin comm_world => spin env comm_world
  | CallOnHub => do! on_hub in ret tt
  | CallWriteFirstStageSolution f => write_first_stage_solution env f
  | CallWriteTreeSolution d => write_tree_solution env d
  | CallLocalNonantCache => do! local_nonant_cache in ret tt
  | ReadBestInnerBound => do! best_inner_bound in ret tt
  | ReadBestOuterBound => do! best_outer_bound in ret tt
  end.

Definition is_run (c : Call) : bool :=
  match c with
  | CallRun _ | CallSpin _ => true
  | _ => false
  end.

(** One more use of the instance. *)
Definition later (s s' : ProcState) : Prop :=
  exists env c, snd (perform env c s) = s'.

(** The states of an instance on which no [run()] has completed: the
    instance as [__init__] leaves it, then any calls, of which those to
    [run] or [spin] raised. *)
Inductive not_yet_run : ProcState -> Prop :=
| not_yet_run_init env hub_dict list_of_spoke_dict w dicts trace :
    __init__ env hub_dict list_of_spoke_dict = Ok w ->
    not_yet_run {| self := w; dicts := dicts; trace := trace |}
| not_yet_run_step env c s r s' :
    not_yet_run s ->
    perform env c s = (r, s') ->
    (is_run c = true -> is_ok r = false) ->
    not_yet_run s'.

(** *** The topology, process by process

    [topology env n_spcomms fullcomm st]: the strata and cylinder
    communicators that [_make_comms] returns to the calling process of
    [fullcomm], if it returns. *)
Definition topology (env : Env) (n_spcomms : nat) (fullcomm : World) (st : ProcState)
  : option (Comm * Comm) :=
  match fst (_make_comms env n_spcomms (Some fullcomm) st) with
  | Ok comms => Some comms
  | Raise _ => None
  end.

(** The [strata_rank] and [cylinder_rank] that [run] computes (lines
    109-110) for the process of rank [p] in a world of [n_proc]
    processes. *)
Definition strata_rank_of (env : Env) (n_spcomms n_proc : nat) (st : ProcState)
    (p : nat) : option nat :=
  match topology env n_spcomms (mkWorld n_proc p) st with
  | Some (strata_comm, cylinder_comm) => Some (Get_rank strata_comm)
  | None => None
  end.

Definition cylinder_rank_of (env : Env) (n_spcomms n_proc : nat) (st : ProcState)
    (p : nat) : option nat :=
  match topology env n_spcomms (mkWorld n_proc p) st with
  | Some (strata_comm, cylinder_comm) => Some (Get_rank cylinder_comm)
  | None => None
  end.


End SpinTheWheel.

(** ** The processes of a run, together

    [WheelSpinner.run()] is called by every process of the world
    communicator.  The calls of one process happen in the order of its
    program; the calls of different processes interleave in any way that
    the blocking calls allow. *)
Module Execution.
Import MPI SpinTheWheel.

Section Execution.
(** [n_proc] processes call [run()]; the process of global rank [p] does
    so in the environment [envs p] and from the state [inits p]. *)
Variable n_proc : nat.
Variable envs : nat -> Env.
Variable inits : nat -> ProcState.

(** The calls that process [p] makes to its collaborators during [run()],
    in program order.  If [run()] raises out of a call, that call is the
    last one. *)
Definition script (p : nat) : list Event :=
  drop (length (trace (inits p)))
       (trace (snd (run (envs p) (Some (mkWorld n_proc p)) (inits p)))).

(** [len(communicator_list)] on process [p], line 104. *)
Definition n_spcomms (p : nat) : nat :=
  length (hub_dict (self (inits p)) :: list_of_spoke_dict (self (inits p))).

(** The communicators of process [p], lines 108-110. *)
Definition comms (p : nat) : option (Comm * Comm) :=
  topology (envs p) (n_spcomms p) (mkWorld n_proc p) (inits p).

(** [strata_rank == 0] on process [p]. *)
Definition is_hub (p : nat) : bool :=
  match comms p with
  | Some (strata_comm, _) => Nat.eqb (Get_rank strata_comm) 0
  | None => false
  end.

(** The hub of process [p]: the member of strata rank 0 of its strata
    communicator. *)
Definition hub_of (p : nat) : option nat :=
  match comms p with
  | Some (strata_comm, _) => head (members strata_comm)
  | None => None
  end.

(** The processes of the communicator [c] of process [p]. *)
Definition group (c : CommName) (p : nat) : list nat :=
  match c with
  | FullComm => seq 0 n_proc
  | CylinderComm =>
      match comms p with
      | Some (_, cylinder_comm) => members cylinder_comm
      | None => []
      end
  end.

(** A configuration gives, for every process, the number of calls of its
    script that have returned or raised. *)
Definition Config := list nat.

Definition initial : Config := replicate n_proc 0.

(** The calls of [p] that are over, and those that [p] has made: the
    latter include the call that [p] is in. *)
Definition done (pc : Config) (p : nat) : list Event :=
  take (pc !!! p) (script p).

Definition invoked (pc : Config) (p : nat) : list Event :=
  take (S (pc !!! p)) (script p).

Definition is_barrier (c : CommName) (e : Event) : bool :=
  match e, c with
  | EvBarrier FullComm, FullComm => true
  | EvBarrier CylinderComm, CylinderComm => true
  | _, _ => false
  end.

Definition is_send_terminate (e : Event) : bool :=
  match e with EvSendTerminate => true | _ => false end.

Fixpoint barriers (c : CommName) (l : list Event) : nat :=
  match l with
  | [] => 0
  | e :: l => (if is_barrier c e then 1 else 0) + barriers c l
  end.

(** Process [q] is in its barrier number [k] (from 0) on [c], or has left
    it. *)
Definition arrived (pc : Config) (c : CommName) (k : nat) (q : nat) : bool :=
  Nat.ltb k (barriers c (done pc q))
  || (Nat.eqb (barriers c (done pc q)) k
      && match script q !! (pc !!! q) with
         | Some e => is_barrier c e
         | None => false
         end).

(** Modelled from the spec: the [main()] of a spoke (the hub and spoke
    classes are not under src/).  A spoke loops until it finds the
    termination flag set, which the hub of its strata communicator does in
    [send_terminate()]; an exception in its loop is not caught, and ends
    [run()], so that [main()] is then the last call of the script. *)
Definition spoke_main_ends (pc : Config) (p : nat) : bool :=
  match script p !! S (pc !!! p) with
  | None => true
  | Some _ =>
      match hub_of p with
      | Some h => existsb is_send_terminate (done pc h)
      | None => false
      end
  end.

(** Whether the call [e] that process [p] is in can end.  [comm.Barrier()]
    blocks until every process of [comm] has entered it; the [main()] of a
    spoke is described above; the other calls do not wait for other
    processes. *)
Definition enabled (pc : Config) (p : nat) (e : Event) : bool :=
  match e with
  | EvBarrier c => forallb (arrived pc c (barriers c (done pc p))) (group c p)
  | EvMain => is_hub p || spoke_main_ends pc p
  | _ => true
  end.

(** One step: the call that process [p] is in ends. *)
Definition fire (pc : Config) (p : nat) : option Config :=
  match script p !! (pc !!! p) with
  | Some e =>
      if Nat.ltb p n_proc && enabled pc p e
      then Some (<[p := S (pc !!! p)]> pc)
      else None
  | None => None
  end.

(** The configuration after the steps of a schedule, if each of them is
    possible. *)
Fixpoint exec (schedule : list nat) (pc : Config) : option Config :=
  match schedule with
  | [] => Some pc
  | p :: schedule =>
      match fire pc p with
      | Some pc => exec schedule pc
      | None => None
      end
  end.

Definition reachable (pc : Config) : Prop :=
  exists schedule, exec schedule initial = Some pc.

End Execution.
End Execution.

(** ** spopt.py *)
Module Spopt.


(** *** Python objects *)

(** Models (scenarios and bundles) and Pyomo variables are objects: they
    are referred to by address and mutated in place. *)
Definition model_ref := nat.
Definition var_ref := nat.

(** A Pyomo variable: [_value] is [None] or a number; [fixed] holds
    whatever was assigned to it ([None] included). *)
Record VarData := mkVarData {
  _value : option float;
  fixed : option bool;
  stale : bool }.

(** The truth value of [v.fixed] in a condition. *)
Definition truthy (b : option bool) : bool :=
  match b with Some true => true | _ => false end.

Definition is_fixed (v : VarData) : option bool := fixed v.

Record SolverPlugin := mkSolverPlugin {
  is_persistent : bool;
  is_GurobiDirect : bool;
  plugin_options : gmap string string }.

(** [s._mpisppy_data]; for [nonant_cache] and [fixedness_cache], [None]
    is an attribute that does not exist yet. *)
Record mpisppy_data := mk_mpisppy_data {
  scenario_feasible : bool;
  solution_available : option bool;
  outer_bound : option float;
  inner_bound : option float;
  nonant_indices : list ((string * nat) * var_ref);
  nlens : list (string * nat);
  nonant_cache : option (list float);
  fixedness_cache : option (list (option bool)) }.

Record Model := mkModel {
  name : string;
  _mpisppy_probability : float;
  _mpisppy_data : mpisppy_data;
  _solver_plugin : SolverPlugin;
  _ef_scenario_names : list string }.

(** [results.solver.status], [results.solver.termination_condition],
    [results.Problem[0].Lower_bound] and [.Upper_bound]. *)
Record Results := mkResults {
  solver_status : string;
  termination_condition : string;
  Lower_bound : float;
  Upper_bound : float }.

Record Options := mkOptions {
  warmstart_subproblems : bool;
  user_warmstart : bool;
  solver_log_dir : option string }.

Inductive kwval :=
| KwBool (b : bool)
| KwStr (s : string).

(** The [warmstart] argument: one of the two statuses that [solve_one]
    resolves itself, or any other status or boolean, with its truth
    value. *)
Inductive warmstart_arg :=
| USER_SOLUTION
| PRIOR_SOLUTION
| WarmstartOther (truth : bool).

Inductive Message :=
| MsgUsingOptions (solver_options : list (string * string))
| MsgSolveFailed (cylinder_name scenario_name : string)
| MsgStatus (status : string)
| MsgTerminationCondition (termination_condition : string)
| MsgNoResults
| MsgAcquired (sname : string) (num_retry_attempts : nat)
| MsgFailedFirst (sname : string)
| MsgFailedAfter (sname : string) (num_retry_attempts : nat)
| MsgSleeping (sleep_time : float).

(** Calls to collaborators, in program order. *)
Inductive Event :=
| EvPrint (m : Message)
| EvFindActiveObjective (s : model_ref)
| EvSetObjective (s : model_ref)
| EvPreSolve (s : model_ref)
| EvSolve (s : model_ref) (solve_keyword_args : gmap string kwval)
| EvLoadVars (s : model_ref)
| EvLoadFrom (s : model_ref)
| EvPostSolve (s : model_ref)
| EvCalloutAgnostic (s : model_ref)
| EvUpdateVar (s : model_ref) (v : var_ref)
| EvSetInstance (sname : string)
| EvSleep (seconds : float).

(** What an address that holds no object reads as. *)
#[global] Instance VarData_inhabited : Inhabited VarData :=
  populate {| _value := None; fixed := None; stale := false |}.

#[global] Instance Model_inhabited : Inhabited Model :=
  populate
    {| name := ""; _mpisppy_probability := 0%float;
       _mpisppy_data :=
         {| scenario_feasible := false; solution_available := None;
            outer_bound := None; inner_bound := None;
            nonant_indices := []; nlens := [];
            nonant_cache := None; fixedness_cache := None |};
       _solver_plugin :=
         {| is_persistent := false; is_GurobiDirect := false;
            plugin_options := ∅ |};
       _ef_scenario_names := [] |}.

(** The attributes of an [SPOpt] object that these methods use, the
    objects it refers to ([models] and [vars] map addresses to objects),
    and the trace of the process. *)
Record SPOpt := mkSPOpt {
  local_scenarios : list (string * model_ref);
  models : gmap model_ref Model;
  vars : gmap var_ref VarData;
  cylinder_rank : nat;
  bundling : bool;
  is_minimizing : bool;
  options : Options;
  extensions : bool;
  Ag : bool;
  _subproblem_solve_index : gmap string nat;
  E1 : option float;
  trace : list Event }.

(** The collaborators: which calls raise ([raises n e]: the call [e], made
    after [n] earlier calls, raises), what a solve that returns returns,
    [sputils.not_good_enough_results], [SPBase.is_zero_prob],
    [SPBase._get_cylinder_name()] and the draws of [random.random()]. *)
Record Env := mkEnv {
  raises : nat -> Event -> option exn;
  solve_results : nat -> Results;
  not_good_enough_results : option Results -> bool;
  is_zero_prob : model_ref -> var_ref -> bool;
  _get_cylinder_name : string;
  random_random : nat -> float }.

Definition set_models (f : gmap model_ref Model -> gmap model_ref Model)
    (st : SPOpt) : SPOpt :=
  {| local_scenarios := local_scenarios st; models := f (models st);
     vars := vars st; cylinder_rank := cylinder_rank st;
     bundling := bundling st; is_minimizing := is_minimizing st;
     options := options st; extensions := extensions st; Ag := Ag st;
     _subproblem_solve_index := _subproblem_solve_index st;
     E1 := E1 st; trace := trace st |}.

Definition set_vars (f : gmap var_ref VarData -> gmap var_ref VarData)
    (st : SPOpt) : SPOpt :=
  {| local_scenarios := local_scenarios st; models := models st;
     vars := f (vars st); cylinder_rank := cylinder_rank st;
     bundling := bundling st; is_minimizing := is_minimizing st;
     options := options st; extensions := extensions st; Ag := Ag st;
     _subproblem_solve_index := _subproblem_solve_index st;
     E1 := E1 st; trace := trace st |}.

Definition set_solve_index (f : gmap string nat -> gmap string nat) (st : SPOpt) : SPOpt :=
  {| local_scenarios := local_scenarios st; models := models st;
     vars := vars st; cylinder_rank := cylinder_rank st;
     bundling := bundling st; is_minimizing := is_minimizing st;
     options := options st; extensions := extensions st; Ag := Ag st;
     _subproblem_solve_index := f (_subproblem_solve_index st);
     E1 := E1 st; trace := trace st |}.

Definition set_E1 (x : float) (st : SPOpt) : SPOpt :=
  {| local_scenarios := local_scenarios st; models := models st;
     vars := vars st; cylinder_rank := cylinder_rank st;
     bundling := bundling st; is_minimizing := is_minimizing st;
     options := options st; extensions := extensions st; Ag := Ag st;
     _subproblem_solve_index := _subproblem_solve_index st;
     E1 := Some x; trace := trace st |}.

Definition emit (e : Event) (st : SPOpt) : SPOpt :=
  {| local_scenarios := local_scenarios st; models := models st;
     vars := vars st; cylinder_rank := cylinder_rank st;
     bundling := bundling st; is_minimizing := is_minimizing st;
     options := options st; extensions := extensions st; Ag := Ag st;
     _subproblem_solve_index := _subproblem_solve_index st;
     E1 := E1 st; trace := trace st ++ [e] |}.

Definition set_data (f : mpisppy_data -> mpisppy_data) (m : Model) : Model :=
  {| name := name m; _mpisppy_probability := _mpisppy_probability m;
     _mpisppy_data := f (_mpisppy_data m);
     _solver_plugin := _solver_plugin m;
     _ef_scenario_names := _ef_scenario_names m |}.

Definition set_plugin (f : SolverPlugin -> SolverPlugin) (m : Model) : Model :=
  {| name := name m; _mpisppy_probability := _mpisppy_probability m;
     _mpisppy_data := _mpisppy_data m;
     _solver_plugin := f (_solver_plugin m);
     _ef_scenario_names := _ef_scenario_names m |}.

(** Mutation of the model object behind [s]. *)
Definition modify_model (s : model_ref) (f : Model -> Model) : M SPOpt unit :=
  modify (set_models (fun ms => <[s := f (ms !!! s)]> ms)).

Definition modify_data (s : model_ref) (f : mpisppy_data -> mpisppy_data)
  : M SPOpt unit :=
  modify_model s (set_data f).

Definition modify_var (v : var_ref) (f : VarData -> VarData) : M SPOpt unit :=
  modify (set_vars (fun vs => <[v := f (vs !!! v)]> vs)).

(** A call to a collaborator: recorded, then it returns or raises. *)
Definition call (env : Env) (e : Event) : M SPOpt unit :=
  fun st =>
    match raises env (length (trace st)) e with
    | Some x => (Raise x, emit e st)
    | None => (Ok tt, emit e st)
    end.

(** [print(...)]. *)
Definition print (m : Message) : M SPOpt unit := modify (emit (EvPrint m)).

(** [s._solver_plugin.solve(s, **solve_keyword_args, load_solutions=False)]. *)
Definition solve (env : Env) (s : model_ref) (solve_keyword_args : gmap string kwval)
  : M SPOpt Results :=
  fun st =>
    let e := EvSolve s solve_keyword_args in
    match raises env (length (trace st)) e with
    | Some x => (Raise x, emit e st)
    | None => (Ok (solve_results env (length (trace st))), emit e st)
    end.

(** [d[k]] on a dictionary kept in insertion order. *)
Fixpoint dict_getitem {A} (d : list (string * A)) (k : string) : result A :=
  match d with
  | [] => Raise (KeyError k)
  | (k', x) :: d' => if String.eqb k' k then Ok x else dict_getitem d' k
  end.

(** [l[i] = x] on a list or numpy array. *)
Definition list_setitem {A} (l : list A) (i : nat) (x : A) : result (list A) :=
  if Nat.ltb i (length l) then Ok (<[i := x]> l) else Raise IndexError.

(** [l[i]] on a list or numpy array. *)
Definition list_getitem {A} (l : list A) (i : nat) : result A :=
  match l !! i with
  | Some x => Ok x
  | None => Raise IndexError
  end.

(** [enumerate(l)]. *)
Definition enumerate {A} (l : list A) : list (nat * A) :=
  combine (seq 0 (length l)) l.

(** [os.path.join(dir_name, file_name)] for a relative [file_name]. *)
Definition os_path_join (dir_name file_name : string) : string :=
  if String.eqb dir_name "" then file_name
  else if String.eqb (String.substring (String.length dir_name - 1) 1 dir_name) "/"
       then dir_name +:+ file_name
       else dir_name +:+ "/" +:+ file_name.

(** *** [SPOpt._check_staleness], lines 97-117 *)
Definition _check_staleness (env : Env) (s : model_ref) : M SPOpt unit :=
  let! st := get in
  for_each (nonant_indices (_mpisppy_data (models st !!! s))) (fun '(_, v) =>
    let! st := get in
    let vd := vars st !!! v in
    if negb (truthy (fixed vd)) && stale vd then
      if is_zero_prob env s v && bool_decide (_value vd = None) then
        raise (RuntimeError
          ("Non-anticipative zero-probability variable on scenario "
           +:+ name (models st !!! s)
           +:+ " reported as stale and has no value. "
           +:+ "Zero-probability variables must have a value (e.g., fixed)."))
      else
        match _value vd with
        | Some _ => ret tt
        | None =>
            raise (RuntimeError
              ("Non-anticipative variable on scenario "
               +:+ name (models st !!! s)
               +:+ " reported as stale. This usually means this variable "
               +:+ "did not appear in any (active) components, and hence "
               +:+ "was not communicated to the subproblem solver. "))
        end
    else ret tt).

(** *** [SPOpt.solve_one], lines 120-297 *)

(** Lines 209-220: the log file of this solve. *)
Definition attach_logfile (env : Env) (k : string) (s : model_ref)
    (solve_keyword_args : gmap string kwval)
  : M SPOpt (gmap string kwval) :=
  let! st := get in
  match solver_log_dir (options st) with
  | None => ret solve_keyword_args
  | Some dir_name =>
      if String.eqb dir_name "" then ret solve_keyword_args
      else
        do! when (bool_decide (_subproblem_solve_index st !! k = None))
              (modify (set_solve_index (fun idx => <[k := 0]> idx))) in
        let! st := get in
        let index := default 0 (_subproblem_solve_index st !! k) in
        let file_name :=
          _get_cylinder_name env +:+ "_" +:+ k +:+ "_" +:+ pretty index +:+ ".log" in
        let! solve_keyword_args :=
          if is_GurobiDirect (_solver_plugin (models st !!! s)) then
            do! modify_model s (set_plugin (fun p =>
                  {| is_persistent := is_persistent p;
                     is_GurobiDirect := is_GurobiDirect p;
                     plugin_options :=
                       <["LogFile" := os_path_join dir_name file_name]>
                         (plugin_options p) |})) in
            ret solve_keyword_args
          else
            ret (<["logfile" := KwStr (os_path_join dir_name file_name)]>
                   solve_keyword_args) in
        do! modify (set_solve_index (fun idx => <[k := S index]> idx)) in
        ret solve_keyword_args
  end.

(** Lines 238-255: the results are not good enough. *)
Definition solve_failed (env : Env) (s : model_ref) (gripe : bool)
    (solve_keyword_args : gmap string kwval)
    (results : option Results) (solver_exception : option exn)
  : M SPOpt unit :=
  do! modify_data s (fun d =>
        {| scenario_feasible := false;
           solution_available := solution_available d;
           outer_bound := outer_bound d; inner_bound := inner_bound d;
           nonant_indices := nonant_indices d; nlens := nlens d;
           nonant_cache := nonant_cache d;
           fixedness_cache := fixedness_cache d |}) in
  do! when gripe (
        let! st := get in
        do! print (MsgSolveFailed (_get_cylinder_name env) (name (models st !!! s))) in
        match results with
        | Some results =>
            do! print (MsgStatus (solver_status results)) in
            print (MsgTerminationCondition (termination_condition results))
        | None =>
            do! print MsgNoResults in
            let solve_keyword_args := <["tee" := KwBool true]> solve_keyword_args in
            let! results := solve env s solve_keyword_args in
            ret tt
        end) in
  match solver_exception with
  | Some e => raise e
  | None => ret tt
  end.

(** Lines 257-276: the results are good enough. *)
Definition solve_succeeded (env : Env) (s : model_ref) (need_solution : bool)
    (results : option Results) : M SPOpt unit :=
  let! st := get in
  let! loaded :=
    try (do! (if is_persistent (_solver_plugin (models st !!! s))
              then call env (EvLoadVars s)
              else call env (EvLoadFrom s)) in
         ret true)
        (fun e => if need_solution then raise e else ret false) in
  do! modify_data s (fun d =>
        {| scenario_feasible := scenario_feasible d;
           solution_available := Some loaded;
           outer_bound := outer_bound d; inner_bound := inner_bound d;
           nonant_indices := nonant_indices d; nlens := nlens d;
           nonant_cache := nonant_cache d;
           fixedness_cache := fixedness_cache d |}) in
  match results with
  | None => raise (AttributeError "Problem")
  | Some results =>
      let! st := get in
      let outer := if is_minimizing st then Lower_bound results
                   else Upper_bound results in
      let inner := if is_minimizing st then Upper_bound results
                   else Lower_bound results in
      modify_data s (fun d =>
        {| scenario_feasible := true;
           solution_available := solution_available d;
           outer_bound := Some outer; inner_bound := Some inner;
           nonant_indices := nonant_indices d; nlens := nlens d;
           nonant_cache := nonant_cache d;
           fixedness_cache := fixedness_cache d |})
  end.

(** Lines 279-287: the feasibility flag goes down to the scenarios of a
    bundle, and feasible scenarios are checked for stale variables. *)
Definition propagate_down (env : Env) (s : model_ref) : M SPOpt unit :=
  let! st := get in
  if bundling st then
    for_each (_ef_scenario_names (models st !!! s)) (fun sname =>
      let! st := get in
      let! scen := lift (dict_getitem (local_scenarios st) sname) in
      let feasible := scenario_feasible (_mpisppy_data (models st !!! s)) in
      do! modify_data scen (fun d =>
            {| scenario_feasible := feasible;
               solution_available := solution_available d;
               outer_bound := outer_bound d; inner_bound := inner_bound d;
               nonant_indices := nonant_indices d; nlens := nlens d;
               nonant_cache := nonant_cache d;
               fixedness_cache := fixedness_cache d |}) in
      let! st := get in
      when (scenario_feasible (_mpisppy_data (models st !!! s)))
           (_check_staleness env scen))
  else
    when (scenario_feasible (_mpisppy_data (models st !!! s)))
         (_check_staleness env s).

(** Lines 165-220: the objective of a persistent solver, the extension
    hook, the solver options, and the keyword arguments of the solve. *)
Definition prepare_solve (env : Env)
    (solver_options : option (list (string * string)))
    (k : string) (s : model_ref) (tee : option bool)
    (verbose update_objective : bool) (warmstart : warmstart_arg)
  : M SPOpt (gmap string kwval) :=
  let _vb (msg : Message) : M SPOpt unit :=
    let! st := get in
    when (verbose && Nat.eqb (cylinder_rank st) 0) (print msg) in
  let! st := get in
  let persistent := is_persistent (_solver_plugin (models st !!! s)) in
  do! when (update_objective && persistent)
        (do! call env (EvFindActiveObjective s) in
         call env (EvSetObjective s)) in
  do! when (extensions st) (call env (EvPreSolve s)) in
  do! match solver_options with
      | None | Some [] => ret tt
      | Some solver_options =>
          do! _vb (MsgUsingOptions solver_options) in
          for_each solver_options (fun '(option_key, option_value) =>
            modify_model s (set_plugin (fun p =>
              {| is_persistent := is_persistent p;
                 is_GurobiDirect := is_GurobiDirect p;
                 plugin_options :=
                   <[option_key := option_value]> (plugin_options p) |})))
      end in
  let solve_keyword_args : gmap string kwval := ∅ in
  let solve_keyword_args :=
    if Nat.eqb (cylinder_rank st) 0 && bool_decide (tee = Some true)
    then <["tee" := KwBool true]> solve_keyword_args
    else solve_keyword_args in
  let solve_keyword_args :=
    if persistent then <["save_results" := KwBool false]> solve_keyword_args
    else solve_keyword_args in
  let! solve_keyword_args :=
    if warmstart_subproblems (options st) then
      let! st := get in
      let warmstart :=
        match warmstart with
        | USER_SOLUTION => user_warmstart (options st)
        | PRIOR_SOLUTION =>
            default false (solution_available (_mpisppy_data (models st !!! s)))
        | WarmstartOther truth => truth
        end in
      ret (<["warmstart" := KwBool warmstart]> solve_keyword_args)
    else ret solve_keyword_args in
  attach_logfile env k s solve_keyword_args.

(** Lines 229-276: the solve, and what is recorded of its outcome. *)
Definition solve_and_record (env : Env) (s : model_ref)
    (gripe need_solution : bool) (solve_keyword_args : gmap string kwval)
  : M SPOpt unit :=
  let! (results, solver_exception) :=
    try (let! results := solve env s solve_keyword_args in
         ret (Some results, None))
        (fun e => ret (None, Some e)) in
  if not_good_enough_results env results
  then solve_failed env s gripe solve_keyword_args results solver_exception
  else solve_succeeded env s need_solution results.

(** [SPOpt.solve_one(solver_options, k, s, ...)].  The solve time that the
    Python function returns is not modelled. *)
Definition solve_one (env : Env)
    (solver_options : option (list (string * string)))
    (k : string) (s : model_ref)
    (dtiming gripe : bool) (tee : option bool)
    (verbose disable_pyomo_signal_handling update_objective need_solution : bool)
    (warmstart : warmstart_arg) : M SPOpt unit :=
  let! solve_keyword_args :=
    prepare_solve env solver_options k s tee verbose update_objective warmstart in
  let! st := get in
  do! (if Ag st then
         if disable_pyomo_signal_handling then raise AssertionError
         else call env (EvCalloutAgnostic s)
       else
         do! solve_and_record env s gripe need_solution solve_keyword_args in
         propagate_down env s) in
  let! st := get in
  when (extensions st) (call env (EvPostSolve s)).

(** *** [_update_E1], [feas_prob] and [infeas_prob], lines 485-557

    The three methods end in an [Allreduce] with [op=MPI.SUM] over
    [self.mpicomm], a collective call: [mpicomm] below is the list of the
    [SPOpt] objects of the processes of the communicator, in rank order,
    and every process receives the sum of the local values. *)

Definition Allreduce_SUM (contributions : list float) : float :=
  match contributions with
  | [] => 0%float
  | x :: rest => fold_left PrimFloat.add rest x
  end.

(** Lines 489-493: [localP[0] += s._mpisppy_probability] over the local
    scenarios. *)
Definition local_E1 (st : SPOpt) : float :=
  fold_left
    (fun localP '(k, s) =>
       PrimFloat.add localP (_mpisppy_probability (models st !!! s)))
    (local_scenarios st) 0%float.

Definition E1_value (mpicomm : list SPOpt) : float :=
  Allreduce_SUM (map local_E1 mpicomm).

(** [SPOpt._update_E1()]: the sum is attached to the object. *)
Definition _update_E1 (mpicomm : list SPOpt) : M SPOpt unit :=
  modify (set_E1 (E1_value mpicomm)).

(** Lines 519-524. *)
Definition local_feas_prob (st : SPOpt) : float :=
  fold_left
    (fun locals '(k, s) =>
       if scenario_feasible (_mpisppy_data (models st !!! s))
       then PrimFloat.add locals (_mpisppy_probability (models st !!! s))
       else locals)
    (local_scenarios st) 0%float.

(** [SPOpt.feas_prob()]. *)
Definition feas_prob (mpicomm : list SPOpt) : float :=
  Allreduce_SUM (map local_feas_prob mpicomm).

(** Lines 546-551. *)
Definition local_infeas_prob (st : SPOpt) : float :=
  fold_left
    (fun locals '(k, s) =>
       if negb (scenario_feasible (_mpisppy_data (models st !!! s)))
       then PrimFloat.add locals (_mpisppy_probability (models st !!! s))
       else locals)
    (local_scenarios st) 0%float.

(** [SPOpt.infeas_prob()]. *)
Definition infeas_prob (mpicomm : list SPOpt) : float :=
  Allreduce_SUM (map local_infeas_prob mpicomm).

(** *** [_save_nonants] and [_restore_nonants], lines 751-804 *)

(** What a numpy array of dtype ['d'] stores when it is assigned a
    variable's [_value]: the number, and NaN for [None]. *)
Definition np_double (x : option float) : float :=
  match x with
  | Some x => x
  | None => PrimFloat.nan
  end.

(** [sum(nlens[ndn] for ndn in nlens)]. *)
Definition sum_nlens (nlens : list (string * nat)) : nat :=
  fold_left (fun acc '(ndn, n) => acc + n) nlens 0.

(** Reading an attribute of [s._mpisppy_data] that may not exist. *)
Definition getattr {A} (attr : string) (field : mpisppy_data -> option A)
    (s : model_ref) : M SPOpt A :=
  fun st =>
    match field (_mpisppy_data (models st !!! s)) with
    | Some x => (Ok x, st)
    | None => (Raise (AttributeError attr), st)
    end.

Definition set_nonant_cache (cache : list float) (d : mpisppy_data) : mpisppy_data :=
  {| scenario_feasible := scenario_feasible d;
     solution_available := solution_available d;
     outer_bound := outer_bound d; inner_bound := inner_bound d;
     nonant_indices := nonant_indices d; nlens := nlens d;
     nonant_cache := Some cache;
     fixedness_cache := fixedness_cache d |}.

Definition set_fixedness_cache (cache : list (option bool)) (d : mpisppy_data)
  : mpisppy_data :=
  {| scenario_feasible := scenario_feasible d;
     solution_available := solution_available d;
     outer_bound := outer_bound d; inner_bound := inner_bound d;
     nonant_indices := nonant_indices d; nlens := nlens d;
     nonant_cache := nonant_cache d;
     fixedness_cache := Some cache |}.

(** Lines 803-804: the body of the loop over the variables of [s]. *)
Definition save_nonant (s : model_ref) (ci : nat) (xvar : var_ref) : M SPOpt unit :=
  let! st := get in
  let! cache := getattr "nonant_cache" nonant_cache s in
  let! cache := lift (list_setitem cache ci (np_double (_value (vars st !!! xvar)))) in
  do! modify_data s (set_nonant_cache cache) in
  let! cache := getattr "fixedness_cache" fixedness_cache s in
  let! cache := lift (list_setitem cache ci (is_fixed (vars st !!! xvar))) in
  modify_data s (set_fixedness_cache cache).

(** Lines 796-804: the body of the loop over the scenarios. *)
Definition save_scenario_nonants (s : model_ref) : M SPOpt unit :=
  let! st := get in
  let nlens := nlens (_mpisppy_data (models st !!! s)) in
  do! when (bool_decide (nonant_cache (_mpisppy_data (models st !!! s)) = None))
        (let clen := sum_nlens nlens in
         do! modify_data s (set_nonant_cache (replicate clen 0%float)) in
         modify_data s (set_fixedness_cache (replicate clen None))) in
  let! st := get in
  for_each (enumerate (nonant_indices (_mpisppy_data (models st !!! s))))
    (fun '(ci, (_, xvar)) => save_nonant s ci xvar).

(** [SPOpt._save_nonants()]. *)
Definition _save_nonants : M SPOpt unit :=
  let! st := get in
  for_each (local_scenarios st) (fun '(k, s) => save_scenario_nonants s).

(** Lines 771-775: the body of the loop over the variables of [s]. *)
Definition restore_nonant (env : Env) (s : model_ref) (persistent_solver : bool)
    (ci : nat) (vardata : var_ref) : M SPOpt unit :=
  let! cache := getattr "nonant_cache" nonant_cache s in
  let! x := lift (list_getitem cache ci) in
  do! modify_var vardata (fun v =>
        {| _value := Some x; fixed := fixed v; stale := stale v |}) in
  let! cache := getattr "fixedness_cache" fixedness_cache s in
  let! b := lift (list_getitem cache ci) in
  do! modify_var vardata (fun v =>
        {| _value := _value v; fixed := b; stale := stale v |}) in
  when persistent_solver (call env (EvUpdateVar s vardata)).

(** Lines 766-779: the body of the loop over the scenarios. *)
Definition restore_scenario_nonants (env : Env) (update_persistent : bool)
    (s : model_ref) : M SPOpt unit :=
  let! st := get in
  let persistent_solver :=
    update_persistent && is_persistent (_solver_plugin (models st !!! s)) in
  do! for_each (enumerate (nonant_indices (_mpisppy_data (models st !!! s))))
        (fun '(ci, (_, vardata)) =>
           restore_nonant env s persistent_solver ci vardata) in
  let! st := get in
  when (Ag st) (call env (EvCalloutAgnostic s)).

(** [SPOpt._restore_nonants(update_persistent=True)]. *)
Definition _restore_nonants (env : Env) (update_persistent : bool) : M SPOpt unit :=
  let! st := get in
  for_each (local_scenarios st) (fun '(k, s) =>
    restore_scenario_nonants env update_persistent s).

(** *** [set_instance_retry], lines 1017-1046 *)

Definition MAX_ACQUIRE_LICENSE_RETRY_ATTEMPTS : nat := 5.

(** The [while True] loop, unrolled at most [fuel] times; [None] when
    [fuel] iterations did not leave the loop.  There is one call to
    [random.random()] per retry: the draw made when [num_retry_attempts]
    is [n] is [random_random env n]. *)
Fixpoint set_instance_loop (env : Env) (fuel : nat) (sname : string)
    (num_retry_attempts : nat) (st : SPOpt) : option (result unit * SPOpt) :=
  match fuel with
  | 0 => None
  | S fuel' =>
      match call env (EvSetInstance sname) st with
      | (Ok _, st) =>
          Some (when (Nat.ltb 0 num_retry_attempts)
                  (print (MsgAcquired sname num_retry_attempts)) st)
      | (Raise _, st) =>
          let (_, st) :=
            (if Nat.eqb num_retry_attempts 0
             then print (MsgFailedFirst sname)
             else print (MsgFailedAfter sname num_retry_attempts)) st in
          if Nat.eqb num_retry_attempts MAX_ACQUIRE_LICENSE_RETRY_ATTEMPTS then
            Some (Raise (RuntimeError
                    ("Failed to acquire solver license - call to set_instance() for scenario="
                     +:+ sname +:+ " failed after " +:+ pretty num_retry_attempts
                     +:+ " retry attempts")), st)
          else
            let sleep_time := random_random env num_retry_attempts in
            let (_, st) := print (MsgSleeping sleep_time) st in
            let (_, st) := modify (emit (EvSleep sleep_time)) st in
            set_instance_loop env fuel' sname (num_retry_attempts + 1) st
      end
  end.

(** [set_instance_retry(subproblem, solver_plugin, subproblem_name)]. *)
Definition set_instance_retry (env : Env) (fuel : nat) (subproblem_name : string)
    (st : SPOpt) : option (result unit * SPOpt) :=
  let sname := subproblem_name in
  let num_retry_attempts := 0 in
  set_instance_loop env fuel sname num_retry_attempts st.


(** *** [_create_fixed_nonant_cache] and [_can_update_best_bound],
    lines 987-1000

    [self._initial_fixed_varibles] is a [ComponentSet], a set of variable
    objects; [_create_fixed_nonant_cache] returns the set that it assigns
    to the attribute, and [_can_update_best_bound] takes it. *)

Definition _create_fixed_nonant_cache (st : SPOpt) : gset var_ref :=
  fold_left
    (fun _initial_fixed_varibles '(k, s) =>
       fold_left
         (fun _initial_fixed_varibles '(_, v) =>
            if truthy (fixed (vars st !!! v))
            then _initial_fixed_varibles ∪ {[ v ]}
            else _initial_fixed_varibles)
         (nonant_indices (_mpisppy_data (models st !!! s)))
         _initial_fixed_varibles)
    (local_scenarios st) ∅.

Definition _can_update_best_bound (_initial_fixed_varibles : gset var_ref)
    (st : SPOpt) : bool :=
  forallb
    (fun '(k, s) =>
       forallb
         (fun '(_, v) =>
            if truthy (fixed (vars st !!! v))
            then bool_decide (v ∈ _initial_fixed_varibles)
            else true)
         (nonant_indices (_mpisppy_data (models st !!! s))))
    (local_scenarios st).


(** *** [_put_nonant_cache], lines 619-634 *)

(** A loop that hands a value from one iteration to the next. *)
Fixpoint fold_each {S A B} (xs : list A) (b : B) (body : B -> A -> M S B) : M S B :=
  match xs with
  | [] => ret b
  | x :: xs' => let! b := body b x in fold_each xs' b body
  end.

(** Lines 632-634: the body of the loop over the variables; it returns
    the next cache index. *)
Definition put_nonant (cache : list float) (model : model_ref) (ci i : nat)
  : M SPOpt nat :=
  if negb (Nat.ltb ci (length cache)) then raise AssertionError
  else
    let! x := lift (list_getitem cache ci) in
    let! nonant_cache := getattr "nonant_cache" nonant_cache model in
    let! nonant_cache := lift (list_setitem nonant_cache i x) in
    do! modify_data model (set_nonant_cache nonant_cache) in
    ret (ci + 1).

(** Lines 627-634: the body of the loop over the scenarios.  An
    [_mpisppy_data] here has no [nonant_cache] or has an array: reading
    the attribute of the former raises [AttributeError], and the latter is
    not [None], so that the [RuntimeError] of line 628 is not raised. *)
Definition put_scenario_nonants (cache : list float) (ci : nat) (model : model_ref)
  : M SPOpt nat :=
  let! _ := getattr "nonant_cache" nonant_cache model in
  let! st := get in
  fold_each (enumerate (nonant_indices (_mpisppy_data (models st !!! model)))) ci
    (fun ci '(i, _) => put_nonant cache model ci i).

(** [SPOpt._put_nonant_cache(cache)]. *)
Definition _put_nonant_cache (cache : list float) : M SPOpt unit :=
  let ci := 0 in
  let! st := get in
  let! ci := fold_each (local_scenarios st) ci
               (fun ci '(sname, model) => put_scenario_nonants cache ci model) in
  ret tt.

End Spopt.

(** * Concrete inputs

    Small configurations on which the definitions above are evaluated. *)
Module Inputs.
Import MPI SpinTheWheel.

(** A hub dictionary and a spoke dictionary as a driver script builds
    them. *)
Definition a_hub_dict : pydict :=
  <["hub_class" := PyClass "PHHub"]> (<["opt_class" := PyClass "PH"]> ∅).

Definition a_spoke_dict : pydict :=
  <["spoke_class" := PyClass "XhatShuffleInnerBound"]>
    (<["opt_class" := PyClass "Xhat_Eval"]> ∅).

(** The hub dictionary at address [0], a spoke dictionary at address [1]. *)
Definition two_dicts : gmap ref pydict :=
  <[0 := a_hub_dict]> (<[1 := a_spoke_dict]> ∅).

Definition a_hub_object (global_rank : nat) : SPComm :=
  {| sp_global_rank := global_rank; sp_strata_rank := 0; last_ib_idx := None;
     sp_BestInnerBound := None; sp_BestOuterBound := None;
     opt_local_scenarios := [] |}.

(** The process of rank [global_rank] in a world of [n_proc] processes,
    with collaborators that never raise. *)
Definition quiet_env (n_proc global_rank : nat) : Env :=
  {| haveMPI := true;
     COMM_WORLD := mkWorld n_proc global_rank;
     raises := fun _ _ => None;
     new_spcomm := a_hub_object global_rank;
     bcast_from_root := None |}.

(** A [WheelSpinner] with one hub and one spoke, just constructed. *)
Definition fresh_spinner : WheelSpinner :=
  {| hub_dict := 0; list_of_spoke_dict := [1]; _ran := false;
     spcomm := None; spcomm_dict := None; global_rank := None;
     strata_rank := None; cylinder_rank := None;
     BestInnerBound := None; BestOuterBound := None |}.

Definition fresh_state : ProcState :=
  {| self := fresh_spinner; dicts := two_dicts; trace := [] |}.

(** A hub object without an incumbent, over two scenarios with a [ROOT]
    node each; the variable of the second one has no value. *)
Definition a_hub_without_incumbent : SPComm :=
  {| sp_global_rank := 0; sp_strata_rank := 0; last_ib_idx := None;
     sp_BestInnerBound := None; sp_BestOuterBound := None;
     opt_local_scenarios :=
       [("scen0", [mkNode "ROOT" [Some 1%float; Some 2%float]]);
        ("scen1", [mkNode "ROOT" [None]])] |}.

(** The state of a process whose [run()] has returned with the object
    [spcomm]. *)
Definition finished_state (spcomm : SPComm) : ProcState :=
  {| self :=
       {| hub_dict := 0; list_of_spoke_dict := [1]; _ran := true;
          spcomm := Some spcomm; spcomm_dict := Some 0;
          global_rank := Some (sp_global_rank spcomm);
          strata_rank := Some (sp_strata_rank spcomm);
          cylinder_rank := Some 0;
          BestInnerBound := Some (sp_BestInnerBound spcomm);
          BestOuterBound := Some (sp_BestOuterBound spcomm) |};
     dicts := two_dicts;
     trace := [] |}.

(** Processes whose collaborators never raise, but for the [main()] of
    the process of rank 1. *)
Definition spoke_main_raises (n_proc global_rank : nat) : Env :=
  {| haveMPI := true;
     COMM_WORLD := mkWorld n_proc global_rank;
     raises := fun _ e =>
       match e with
       | EvMain =>
           if Nat.eqb global_rank 1 then Some (CollaboratorError "main") else None
       | _ => None
       end;
     new_spcomm := a_hub_object global_rank;
     bcast_from_root := None |}.

(** A schedule for a hub and a spoke of one process each: the hub runs
    until it is in the barrier on the world communicator, then the spoke
    does, then the hub goes on to [free_windows]. *)
Definition hub_first : list nat :=
  replicate 13 0 ++ replicate 11 1 ++ [0; 0; 0].

End Inputs.

Module SpoptInputs.
Import Spopt.

Definition a_plugin : SolverPlugin :=
  {| is_persistent := false; is_GurobiDirect := false; plugin_options := ∅ |}.

(** A scenario with probability [p], feasibility flag [feasible] and the
    non-anticipative variables [nonants], before any call to
    [_save_nonants]. *)
Definition a_scenario (sname : string) (p : float) (feasible : bool)
    (nonants : list var_ref) : Model :=
  {| name := sname;
     _mpisppy_probability := p;
     _mpisppy_data :=
       {| scenario_feasible := feasible;
          solution_available := None;
          outer_bound := None; inner_bound := None;
          nonant_indices := map (fun v => (("ROOT", v), v)) nonants;
          nlens := [("ROOT", length nonants)];
          nonant_cache := None; fixedness_cache := None |};
     _solver_plugin := a_plugin;
     _ef_scenario_names := [] |}.

Definition a_var (x : option float) : VarData :=
  {| _value := x; fixed := Some false; stale := false |}.

(** An [SPOpt] object over the given scenarios (scenario [i] at address
    [i]) and variables, without bundles, extensions or agnostic callout. *)
Definition an_spopt (scenarios : list Model) (variables : list VarData) : SPOpt :=
  {| local_scenarios := imap (fun i m => (name m, i)) scenarios;
     models := map_seq 0 scenarios;
     vars := map_seq 0 variables;
     cylinder_rank := 0;
     bundling := false;
     is_minimizing := true;
     options := {| warmstart_subproblems := false; user_warmstart := false;
                   solver_log_dir := None |};
     extensions := false;
     Ag := false;
     _subproblem_solve_index := ∅;
     E1 := None;
     trace := [] |}.

(** Collaborators that never raise; every draw of [random.random()] is
    one half. *)
Definition quiet_env : Env :=
  {| raises := fun _ _ => None;
     solve_results := fun _ =>
       {| solver_status := "ok"; termination_condition := "optimal";
          Lower_bound := 0%float; Upper_bound := 0%float |};
     not_good_enough_results := fun results =>
       match results with None => true | Some _ => false end;
     is_zero_prob := fun _ _ => false;
     _get_cylinder_name := "hub";
     random_random := fun _ => 0.5%float |}.

(** A licence server that refuses the first two calls to [set_instance]:
    the calls made at positions 0 and 4 of the trace raise. *)
Definition busy_license_env : Env :=
  {| raises := fun n e =>
       match e with
       | EvSetInstance _ =>
           if Nat.ltb n 8 then Some (CollaboratorError "license") else None
       | _ => None
       end;
     solve_results := solve_results quiet_env;
     not_good_enough_results := not_good_enough_results quiet_env;
     is_zero_prob := is_zero_prob quiet_env;
     _get_cylinder_name := "hub";
     random_random := fun _ => 0.5%float |}.

(** Two scenarios, the second of probability zero and infeasible. *)
Definition zero_probability_infeasible : SPOpt :=
  an_spopt [a_scenario "scen0" 1%float true []; a_scenario "scen1" 0%float false []] [].

(** Three scenarios of probabilities 0.1, 0.2 and 0.7, the first one
    feasible. *)
Definition one_in_three_feasible : SPOpt :=
  an_spopt [a_scenario "scen0" 0.1%float true [];
            a_scenario "scen1" 0.2%float false [];
            a_scenario "scen2" 0.7%float false []] [].


(** One scenario with one non-anticipative variable, whose value is [x]. *)
Definition one_variable (x : option float) : SPOpt :=
  an_spopt [a_scenario "scen0" 1%float true [0]] [a_var x].

(** Two scenarios, with one and two non-anticipative variables. *)
Definition two_scenarios : SPOpt :=
  an_spopt [a_scenario "scen0" 0.5%float true [0];
            a_scenario "scen1" 0.5%float true [1; 2]]
           [a_var (Some 1%float); a_var (Some 2%float); a_var (Some 3%float)].



(** A solver that returns results that are not good enough. *)
Definition infeasible_solver_env : Env :=
  {| raises := fun _ _ => None;
     solve_results := fun _ =>
       {| solver_status := "warning"; termination_condition := "infeasible";
          Lower_bound := 0%float; Upper_bound := 0%float |};
     not_good_enough_results := fun _ => true;
     is_zero_prob := is_zero_prob quiet_env;
     _get_cylinder_name := "hub";
     random_random := fun _ => 0.5%float |}.

End SpoptInputs.

(** * Properties *)

(** ** The monad *)

Lemma bind_ok {S A B} (c : M S A) (k : A -> M S B) s b s' :
  bind c k s = (Ok b, s') ->
  exists a s1, c s = (Ok a, s1) /\ k a s1 = (Ok b, s').
Proof.
  unfold bind. destruct (c s) as [[a|e] s1]; intros H; [eauto | discriminate].
Qed.

Lemma bind_eq {S A B} (c : M S A) (k : A -> M S B) s a s1 :
  c s = (Ok a, s1) -> bind c k s = k a s1.
Proof. unfold bind. intros ->. reflexivity. Qed.

Lemma bind_raise {S A B} (c : M S A) (k : A -> M S B) s e s1 :
  c s = (Raise e, s1) -> bind c k s = (Raise e, s1).
Proof. unfold bind. intros ->. reflexivity. Qed.

(** *** Frames

    [frame R c]: every run of [c], whether it returns or raises, takes a
    state to one related to it by [R]. *)
Section Frame.
Context {S : Type} (R : S -> S -> Prop) `{!PreOrder R}.

Definition frame {A} (c : M S A) : Prop :=
  forall s r s', c s = (r, s') -> R s s'.

Lemma frame_ret {A} (a : A) : frame (ret a).
Proof. intros s r s' [= _ <-]. reflexivity. Qed.

Lemma frame_raise {A} e : frame (@raise S A e).
Proof. intros s r s' [= _ <-]. reflexivity. Qed.

Lemma frame_lift {A} (x : result A) : frame (lift x).
Proof. intros s r s' [= _ <-]. reflexivity. Qed.

Lemma frame_get : frame get.
Proof. intros s r s' [= _ <-]. reflexivity. Qed.

Lemma frame_modify f : (forall s, R s (f s)) -> frame (modify f).
Proof. intros Hf s r s' [= _ <-]. apply Hf. Qed.

Lemma frame_bind {A B} (c : M S A) (k : A -> M S B) :
  frame c -> (forall a, frame (k a)) -> frame (bind c k).
Proof.
  intros Hc Hk s r s'. unfold bind.
  destruct (c s) as [[a|e] s1] eqn:E; intros H.
  - etransitivity; [eapply Hc, E | eapply Hk, H].
  - injection H as _ <-. eapply Hc, E.
Qed.

Lemma frame_try {A} (c : M S A) handler :
  frame c -> (forall e, frame (handler e)) -> frame (try c handler).
Proof.
  intros Hc Hh s r s'. unfold try.
  destruct (c s) as [[a|e] s1] eqn:E; intros H.
  - injection H as _ <-. eapply Hc, E.
  - etransitivity; [eapply Hc, E | eapply Hh, H].
Qed.

Lemma frame_when b (c : M S unit) : frame c -> frame (when b c).
Proof. destruct b; [trivial | intros _; apply frame_ret]. Qed.

Lemma frame_for_each {A} (xs : list A) body :
  (forall x, frame (body x)) -> frame (for_each xs body).
Proof.
  intros Hb. induction xs as [|x xs IH]; simpl.
  - apply frame_ret.
  - apply frame_bind; [apply Hb | intros _; exact IH].
Qed.

(** [frame_on_raise R c]: the same, for the runs of [c] that raise. *)
Definition frame_on_raise {A} (c : M S A) : Prop :=
  forall s e s', c s = (Raise e, s') -> R s s'.

Lemma frame_on_raise_of_frame {A} (c : M S A) : frame c -> frame_on_raise c.
Proof. intros Hc s e s' H. eapply Hc, H. Qed.

Lemma frame_on_raise_modify f : frame_on_raise (modify f).
Proof. intros s e s' [=]. Qed.

Lemma frame_on_raise_bind {A B} (c : M S A) (k : A -> M S B) :
  frame c -> (forall a, frame_on_raise (k a)) -> frame_on_raise (bind c k).
Proof.
  intros Hc Hk s e s'. unfold bind.
  destruct (c s) as [[a|e'] s1] eqn:E; intros H.
  - etransitivity; [eapply Hc, E | eapply Hk, H].
  - injection H as _ <-. eapply Hc, E.
Qed.

End Frame.

(** One step of a frame proof: split a bind, a loop or a conditional, or
    close a return or a raise. *)
Ltac frame_step :=
  lazymatch goal with
  | |- PreOrder _ => exact _
  | |- forall _, _ => intros ?
  | |- frame _ (bind _ _) => apply frame_bind
  | |- frame _ (for_each _ _) => apply frame_for_each
  | |- frame _ (when _ _) => apply frame_when
  | |- frame _ (try _ _) => apply frame_try
  | |- frame _ (ret _) => apply frame_ret
  | |- frame _ (raise _) => apply frame_raise
  | |- frame _ (lift _) => apply frame_lift
  | |- frame _ get => apply frame_get
  | |- frame _ (if ?b then _ else _) => destruct b
  | |- frame _ (match ?x with _ => _ end) => destruct x
  | |- frame _ (let (_, _) := ?x in _) => destruct x
  | |- frame_on_raise _ (modify _) => apply frame_on_raise_modify
  | |- frame_on_raise _ (bind _ _) => apply frame_on_raise_bind
  | |- frame_on_raise _ (if ?b then _ else _) => destruct b
  | |- frame_on_raise _ (match ?x with _ => _ end) => destruct x
  | |- frame_on_raise _ (let (_, _) := ?x in _) => destruct x
  | |- frame_on_raise _ _ => apply frame_on_raise_of_frame
  end.

(** Inversion of a run that returned, along the binds of its spine. *)
Ltac bind_inv H :=
  repeat lazymatch type of H with
  | bind _ _ _ = (Ok _, _) =>
      let a := fresh "a" in
      let s1 := fresh "s" in
      let H1 := fresh "Hstep" in
      apply bind_ok in H; destruct H as (a & s1 & H1 & H)
  | (if ?b then _ else _) _ = _ => destruct b eqn:?
  | (let (_, _) := ?x in _) _ = _ => destruct x
  | (match ?x with _ => _ end) _ = _ => destruct x eqn:?
  | raise _ _ = (Ok _, _) => discriminate H
  end.

(** ** Communicators *)
Module MPIFacts.
Import MPI.

Lemma insert_by_key_last key x l :
  Forall (fun y => key y <= key x) l ->
  insert_by_key key x l = l ++ [x].
Proof.
  induction 1 as [|y l Hy Hl IH]; simpl; [reflexivity|].
  destruct (Nat.ltb_spec (key x) (key y)); [lia|]. now rewrite IH.
Qed.

Lemma fold_insert_sorted key l : forall acc,
  (forall i j x y, i < j -> (acc ++ l) !! i = Some x ->
     (acc ++ l) !! j = Some y -> key x <= key y) ->
  fold_left (fun acc x => insert_by_key key x acc) l acc = acc ++ l.
Proof.
  induction l as [|x l IH]; intros acc Hs; simpl.
  - now rewrite app_nil_r.
  - rewrite insert_by_key_last.
    + rewrite IH; rewrite <- app_assoc; [reflexivity|exact Hs].
    + apply Forall_lookup_2. intros i y Hy.
      apply (Hs i (length acc) y x).
      * now apply lookup_lt_Some in Hy.
      * now rewrite lookup_app_l by (now apply lookup_lt_Some in Hy).
      * rewrite lookup_app_r by lia. now rewrite Nat.sub_diag.
Qed.

Lemma filter_seq_increasing (P : nat -> Prop) `{!forall x, Decision (P x)} n :
  forall start i j x y, i < j ->
    filter P (seq start n) !! i = Some x ->
    filter P (seq start n) !! j = Some y -> x < y.
Proof.
  induction n as [|n IH]; intros start i j x y Hij Hx Hy; simpl in *.
  - rewrite filter_nil in Hx. discriminate.
  - rewrite filter_cons in Hx, Hy. destruct (decide (P start)).
    + destruct i as [|i]; destruct j as [|j]; try lia; simpl in *.
      * inversion Hx; subst.
        apply list_elem_of_lookup_2, list_elem_of_filter in Hy.
        destruct Hy as [_ Hy]. apply elem_of_seq in Hy. lia.
      * eapply (IH (S start) i j); eauto; lia.
    + eapply (IH (S start) i j); eauto.
Qed.

(** With [key=global_rank] the members of a split are the ranks of its
    colour, in increasing order. *)
Lemma members_Split w color :
  members (Split w color (fun global_rank => global_rank)) =
  filter (fun r => color r = color (rank w)) (seq 0 (size w)).
Proof.
  unfold Split, sort_by_key; simpl.
  rewrite fold_insert_sorted; [reflexivity|].
  intros i j x y Hij Hx Hy. simpl in *.
  pose proof (filter_seq_increasing _ _ _ _ _ _ _ Hij Hx Hy). lia.
Qed.

Lemma elem_of_members_Split w color p :
  p ∈ members (Split w color (fun global_rank => global_rank)) <->
  p < size w /\ color p = color (rank w).
Proof.
  rewrite members_Split, list_elem_of_filter, elem_of_seq. lia.
Qed.

Lemma filter_seq_none (P : nat -> Prop) `{!forall x, Decision (P x)} k : forall s,
  (forall x, s <= x < s + k -> ~ P x) -> filter P (seq s k) = [].
Proof.
  induction k as [|k IH]; intros s Hr; simpl; [reflexivity|].
  rewrite filter_cons. destruct (decide (P s)) as [HP|_].
  - exfalso. apply (Hr s); [lia|exact HP].
  - apply IH. intros x Hx. apply Hr. lia.
Qed.

Lemma filter_seq_all (P : nat -> Prop) `{!forall x, Decision (P x)} k : forall s,
  (forall x, s <= x < s + k -> P x) -> filter P (seq s k) = seq s k.
Proof.
  induction k as [|k IH]; intros s Hr; simpl; [reflexivity|].
  rewrite filter_cons. destruct (decide (P s)) as [_|HP].
  - f_equal. apply IH. intros x Hx. apply Hr. lia.
  - exfalso. apply HP, Hr. lia.
Qed.

Lemma filter_seq_one (P : nat -> Prop) `{!forall x, Decision (P x)} k s a :
  s <= a < s + k ->
  (forall x, s <= x < s + k -> P x <-> x = a) ->
  filter P (seq s k) = [a].
Proof.
  intros Ha Hr.
  replace k with ((a - s) + (1 + (s + k - a - 1))) by lia.
  rewrite !seq_app, !filter_app. simpl.
  rewrite filter_cons, filter_nil.
  replace (s + (a - s)) with a by lia.
  destruct (decide (P a)) as [_|HP]; [|exfalso; apply HP, Hr; [lia|reflexivity]].
  rewrite !filter_seq_none; [reflexivity| |].
  - intros x Hx HPx. apply Hr in HPx; lia.
  - intros x Hx HPx. apply Hr in HPx; lia.
Qed.

Lemma div_block n m x : n * m <= x < n * m + n -> x / n = m.
Proof.
  intros Hx. symmetry. apply Nat.div_unique with (r := x - n * m); lia.
Qed.

(** The ranks that share a floor-division colour are a block of [n]
    consecutive ranks. *)
Lemma filter_div_seq n m c :
  0 < n -> c < m ->
  filter (fun r => r / n = c) (seq 0 (n * m)) = seq (n * c) n.
Proof.
  intros Hn. induction m as [|m IH]; intros Hc; [lia|].
  replace (n * S m) with (n * m + n) by lia.
  rewrite seq_app, filter_app. simpl.
  destruct (decide (c = m)) as [->|Hne].
  - rewrite filter_seq_none, filter_seq_all; [reflexivity| |].
    + intros x Hx. now apply div_block.
    + intros x Hx Hd.
      assert (x / n < m) by (apply Nat.Div0.div_lt_upper_bound; lia). lia.
  - rewrite IH by lia. rewrite filter_seq_none; [now rewrite app_nil_r|].
    intros x Hx Hd. apply Hne. rewrite <- Hd. now apply div_block.
Qed.

(** The ranks that share a remainder colour are [c], [n + c], [2n + c], ... *)
Lemma filter_mod_seq n m c :
  c < n ->
  filter (fun r => r mod n = c) (seq 0 (n * m)) =
  map (fun q => q * n + c) (seq 0 m).
Proof.
  intros Hc. induction m as [|m IH].
  - now rewrite Nat.mul_0_r.
  - replace (n * S m) with (n * m + n) by lia.
    replace (S m) with (m + 1) by lia.
    rewrite !seq_app, filter_app, map_app, IH. cbn [map seq Nat.add].
    f_equal. rewrite (filter_seq_one _ _ _ (m * n + c)); [reflexivity|lia|].
    intros x Hx. split.
    + intros Hm. pose proof (Nat.div_mod_eq x n).
      assert (x / n = m) by (now apply div_block). subst. lia.
    + intros ->. rewrite Nat.add_comm, Nat.Div0.mod_add. now apply Nat.mod_small.
Qed.

Lemma index_of_seq k : forall s x,
  s <= x < s + k -> index_of x (seq s k) = x - s.
Proof.
  induction k as [|k IH]; intros s x Hx; [lia|]. simpl.
  destruct (Nat.eqb_spec x s); [lia|]. rewrite IH by lia. lia.
Qed.

Lemma index_of_map_seq n c k : forall s q,
  0 < n -> s <= q < s + k ->
  index_of (q * n + c) (map (fun q => q * n + c) (seq s k)) = q - s.
Proof.
  induction k as [|k IH]; intros s q Hn Hq; [lia|]. simpl.
  destruct (Nat.eqb_spec (q * n + c) (s * n + c)) as [He|Hne].
  - assert (q = s) by nia. lia.
  - assert (q <> s) by (intros ->; lia).
    rewrite IH; lia.
Qed.

Section Topology.
Variables (n_spcomms replicas global_rank : nat).
Hypothesis role_count_pos : 0 < n_spcomms.
Hypothesis in_world : global_rank < n_spcomms * replicas.

Let fullcomm := mkWorld (n_spcomms * replicas) global_rank.

Lemma members_floordiv_split :
  members (Split fullcomm (fun r => r / n_spcomms) (fun r => r)) =
  seq (n_spcomms * (global_rank / n_spcomms)) n_spcomms.
Proof.
  rewrite members_Split. simpl. apply filter_div_seq; [assumption|].
  apply Nat.Div0.div_lt_upper_bound; lia.
Qed.

Lemma members_mod_split :
  members (Split fullcomm (fun r => r mod n_spcomms) (fun r => r)) =
  map (fun q => q * n_spcomms + global_rank mod n_spcomms) (seq 0 replicas).
Proof.
  rewrite members_Split. simpl. apply filter_mod_seq.
  apply Nat.mod_upper_bound. lia.
Qed.

Lemma Get_rank_floordiv_split :
  Get_rank (Split fullcomm (fun r => r / n_spcomms) (fun r => r)) =
  global_rank mod n_spcomms.
Proof.
  unfold Get_rank. rewrite members_floordiv_split. simpl.
  pose proof (Nat.div_mod_eq global_rank n_spcomms).
  pose proof (Nat.mod_upper_bound global_rank n_spcomms).
  rewrite index_of_seq; lia.
Qed.

Lemma Get_rank_mod_split :
  Get_rank (Split fullcomm (fun r => r mod n_spcomms) (fun r => r)) =
  global_rank / n_spcomms.
Proof.
  unfold Get_rank. rewrite members_mod_split. simpl.
  pose proof (Nat.div_mod_eq global_rank n_spcomms) as E.
  rewrite E at 1. rewrite (Nat.mul_comm n_spcomms).
  rewrite index_of_map_seq; [lia|assumption|].
  split; [lia|]. apply Nat.Div0.div_lt_upper_bound; lia.
Qed.

Lemma Get_size_floordiv_split :
  Get_size (Split fullcomm (fun r => r / n_spcomms) (fun r => r)) = n_spcomms.
Proof. unfold Get_size. now rewrite members_floordiv_split, length_seq. Qed.

Lemma Get_size_mod_split :
  Get_size (Split fullcomm (fun r => r mod n_spcomms) (fun r => r)) = replicas.
Proof.
  unfold Get_size. now rewrite members_mod_split, length_map, length_seq.
Qed.

End Topology.

End MPIFacts.


(** ** [_make_comms] *)
Module MakeCommsFacts.
Import MPI SpinTheWheel MPIFacts Inputs.

Definition world_of (env : Env) (fullcomm : option World) : World :=
  match fullcomm with
  | None => COMM_WORLD env
  | Some c => c
  end.

Lemma _make_comms_multiple env n_spcomms fullcomm st :
  haveMPI env = true -> 0 < n_spcomms ->
  size (world_of env fullcomm) mod n_spcomms = 0 ->
  _make_comms env n_spcomms fullcomm st =
  (Ok (Split (world_of env fullcomm)
         (fun global_rank => global_rank / n_spcomms) (fun global_rank => global_rank),
       Split (world_of env fullcomm)
         (fun global_rank => global_rank mod n_spcomms) (fun global_rank => global_rank)),
   emit (EvSplit (rank (world_of env fullcomm) mod n_spcomms) (rank (world_of env fullcomm)))
     (emit (EvSplit (rank (world_of env fullcomm) / n_spcomms) (rank (world_of env fullcomm))) st)).
Proof.
  intros Hmpi Hn Hmod. unfold _make_comms, world_of in *. rewrite Hmpi. simpl.
  unfold py_mod, py_floordiv, bind, lift, raise, modify, ret.
  destruct (Nat.eqb_spec n_spcomms 0) as [|_]; [lia|].
  rewrite Hmod. reflexivity.
Qed.

Lemma _make_comms_not_multiple env n_spcomms fullcomm st :
  haveMPI env = true -> 0 < n_spcomms ->
  size (world_of env fullcomm) mod n_spcomms <> 0 ->
  _make_comms env n_spcomms fullcomm st =
  (Raise (RuntimeError
            (need_multiple_msg n_spcomms (size (world_of env fullcomm)))), st).
Proof.
  intros Hmpi Hn Hmod. unfold _make_comms, world_of in *. rewrite Hmpi. simpl.
  unfold py_mod, bind, lift, raise.
  destruct (Nat.eqb_spec n_spcomms 0) as [|_]; [lia|].
  destruct (Nat.eqb_spec (size match fullcomm with
                                | Some c => c
                                | None => COMM_WORLD env
                                end mod n_spcomms) 0); [contradiction|reflexivity].
Qed.

(** C1, as stated, fails: in a world of four processes and two roles, the
    cylinder communicator of rank 1 is not the floor-division class [[0; 1]]
    (it is the remainder class [[1; 3]]), and its strata communicator is not
    the remainder class. *)
Lemma C1_counterexample :
  ~ (exists strata_comm cylinder_comm,
       fst (_make_comms (quiet_env 4 1) 2 None fresh_state)
         = Ok (strata_comm, cylinder_comm) /\
       cylinder_comm = Split (mkWorld 4 1) (fun global_rank => global_rank / 2)
                         (fun global_rank => global_rank) /\
       strata_comm = Split (mkWorld 4 1) (fun global_rank => global_rank mod 2)
                       (fun global_rank => global_rank)).
Proof.
  intros (strata_comm & cylinder_comm & Hrun & Hc & Hs).
  vm_compute in Hrun. injection Hrun as _ Hc'. rewrite <- Hc' in Hc.
  apply (f_equal members) in Hc. vm_compute in Hc. discriminate.
Qed.

(** C1, amended: for a world whose size is a multiple of the role count,
    [_make_comms] returns as strata communicator the split of the world by
    colour [global_rank // n_spcomms] and as cylinder communicator the split
    by colour [global_rank % n_spcomms], both with key [global_rank]: the
    processes sharing a floor-division colour form a strata group, those
    sharing a remainder form a cylinder group. *)
Theorem C1_strata_by_floordiv_cylinder_by_mod env n_spcomms fullcomm st :
  haveMPI env = true -> 0 < n_spcomms ->
  size (world_of env fullcomm) mod n_spcomms = 0 ->
  exists strata_comm cylinder_comm st',
    _make_comms env n_spcomms fullcomm st = (Ok (strata_comm, cylinder_comm), st') /\
    strata_comm = Split (world_of env fullcomm)
                    (fun global_rank => global_rank / n_spcomms)
                    (fun global_rank => global_rank) /\
    cylinder_comm = Split (world_of env fullcomm)
                      (fun global_rank => global_rank mod n_spcomms)
                      (fun global_rank => global_rank) /\
    trace st' = trace st ++
      [EvSplit (rank (world_of env fullcomm) / n_spcomms) (rank (world_of env fullcomm));
       EvSplit (rank (world_of env fullcomm) mod n_spcomms) (rank (world_of env fullcomm))] /\
    (forall p, p ∈ members strata_comm <->
       p < size (world_of env fullcomm) /\
       p / n_spcomms = rank (world_of env fullcomm) / n_spcomms) /\
    (forall p, p ∈ members cylinder_comm <->
       p < size (world_of env fullcomm) /\
       p mod n_spcomms = rank (world_of env fullcomm) mod n_spcomms).
Proof.
  intros Hmpi Hn Hmod. eexists _, _, _. split.
  - now apply _make_comms_multiple.
  - split; [reflexivity|]. split; [reflexivity|].
    split; [simpl; now rewrite <- app_assoc|].
    split; intros p; apply elem_of_members_Split.
Qed.

(** In a world of four processes and two roles, rank 1 is in the strata
    group [[0; 1]] and in the cylinder group [[1; 3]]. *)
Lemma C1_witness :
  exists st',
    _make_comms (quiet_env 4 1) 2 None fresh_state =
      (Ok ({| members := [0; 1]; caller := 1 |},
           {| members := [1; 3]; caller := 1 |}), st').
Proof.
  destruct (C1_strata_by_floordiv_cylinder_by_mod (quiet_env 4 1) 2 None fresh_state)
    as (s & c & st' & Hrun & -> & -> & _); [reflexivity | lia | reflexivity |].
  exists st'. exact Hrun.
Defined.

(** C2: with [mpi4py] present and at least one role, [_make_comms] raises
    exactly when the world size is not a multiple of the role count; it then
    raises the [RuntimeError] "Need a multiple of ..." and leaves the state
    of the process untouched (no communicator has been created); otherwise
    it returns the strata communicator, the split of the world by
    [global_rank // n_spcomms], and the cylinder communicator, the split by
    [global_rank % n_spcomms], each holding the processes of the world that
    share the colour of the caller, and does nothing but the two [Split]
    calls.  A world of 6 processes with 4 roles fails. *)
Theorem C2_make_comms_fails_iff_not_multiple env n_spcomms fullcomm st :
  haveMPI env = true -> 0 < n_spcomms ->
  (size (world_of env fullcomm) mod n_spcomms <> 0 <->
     exists e, fst (_make_comms env n_spcomms fullcomm st) = Raise e) /\
  (size (world_of env fullcomm) mod n_spcomms <> 0 ->
     _make_comms env n_spcomms fullcomm st =
       (Raise (RuntimeError
                 (need_multiple_msg n_spcomms (size (world_of env fullcomm)))), st)) /\
  (size (world_of env fullcomm) mod n_spcomms = 0 ->
     exists strata_comm cylinder_comm st',
       _make_comms env n_spcomms fullcomm st = (Ok (strata_comm, cylinder_comm), st') /\
       strata_comm = Split (world_of env fullcomm)
                       (fun global_rank => global_rank / n_spcomms)
                       (fun global_rank => global_rank) /\
       cylinder_comm = Split (world_of env fullcomm)
                         (fun global_rank => global_rank mod n_spcomms)
                         (fun global_rank => global_rank) /\
       (forall p, p ∈ members strata_comm <->
          p < size (world_of env fullcomm) /\
          p / n_spcomms = rank (world_of env fullcomm) / n_spcomms) /\
       (forall p, p ∈ members cylinder_comm <->
          p < size (world_of env fullcomm) /\
          p mod n_spcomms = rank (world_of env fullcomm) mod n_spcomms) /\
       self st' = self st /\ dicts st' = dicts st /\
       trace st' = trace st ++
         [EvSplit (rank (world_of env fullcomm) / n_spcomms) (rank (world_of env fullcomm));
          EvSplit (rank (world_of env fullcomm) mod n_spcomms) (rank (world_of env fullcomm))]) /\
  (size (world_of env fullcomm) = 6 -> n_spcomms = 4 ->
     _make_comms env n_spcomms fullcomm st =
       (Raise (RuntimeError "Need a multiple of 4 processes (got 6)"), st)).
Proof.
  intros Hmpi Hn. split; [split|split; [|split]].
  - intros Hmod. rewrite _make_comms_not_multiple by assumption. eauto.
  - intros [e He] Hmod. rewrite _make_comms_multiple in He by assumption.
    discriminate.
  - now apply _make_comms_not_multiple.
  - intros Hmod. eexists _, _, _. split; [now apply _make_comms_multiple|].
    split; [reflexivity|]. split; [reflexivity|].
    split; [intros p; apply elem_of_members_Split|].
    split; [intros p; apply elem_of_members_Split|].
    simpl. now rewrite <- app_assoc.
  - intros H6 ->. rewrite _make_comms_not_multiple by (rewrite ?H6; easy).
    now rewrite H6.
Qed.

(** A world of 6 processes cannot be arranged in 4 roles; in a world of 4
    processes and 2 roles, rank 1 gets the strata communicator of the
    processes 0 and 1 and the cylinder communicator of the processes 1
    and 3. *)
Lemma C2_witness :
  _make_comms (quiet_env 6 0) 4 None fresh_state =
    (Raise (RuntimeError "Need a multiple of 4 processes (got 6)"), fresh_state) /\
  exists st',
    _make_comms (quiet_env 4 1) 2 None fresh_state =
      (Ok ({| members := [0; 1]; caller := 1 |},
           {| members := [1; 3]; caller := 1 |}), st') /\
    self st' = self fresh_state /\ dicts st' = dicts fresh_state.
Proof.
  split.
  - apply (C2_make_comms_fails_iff_not_multiple (quiet_env 6 0) 4 None fresh_state);
      [reflexivity | lia | reflexivity | reflexivity].
  - destruct (C2_make_comms_fails_iff_not_multiple (quiet_env 4 1) 2 None fresh_state)
      as (_ & _ & Hok & _); [reflexivity | lia |].
    destruct Hok as (s & c & st' & Hrun & -> & -> & _ & _ & Hself & Hdicts & _);
      [reflexivity|].
    exists st'. split; [exact Hrun|]. split; [exact Hself | exact Hdicts].
Defined.

End MakeCommsFacts.


(** ** [WheelSpinner] *)
Module WheelSpinnerFacts.
Import MPI SpinTheWheel MPIFacts MakeCommsFacts Inputs.

(** *** What the pieces of [run] leave alone *)

(** Computations that only read the state. *)
Section ReadFrames.
Variable R : ProcState -> ProcState -> Prop.
Context `{!PreOrder R}.

Lemma frame_getattr {A} name (field : WheelSpinner -> option A) :
  frame R (getattr name field).
Proof.
  intros s r s'. unfold getattr.
  destruct (field (self s)); intros [= _ <-]; reflexivity.
Qed.

Lemma frame_contains d k : frame R (contains d k).
Proof. intros s r s' [= _ <-]. reflexivity. Qed.

Lemma frame_getitem d k : frame R (getitem d k).
Proof.
  intros s r s'. unfold getitem.
  destruct ((dicts s !!! d) !! k); intros [= _ <-]; reflexivity.
Qed.

Lemma frame_local_nonant_cache : frame R local_nonant_cache.
Proof. unfold local_nonant_cache. repeat first [apply frame_getattr | frame_step]. Qed.

Lemma frame_on_hub : frame R on_hub.
Proof. unfold on_hub. repeat first [apply frame_getattr | frame_step]. Qed.

Lemma frame_best_inner_bound : frame R best_inner_bound.
Proof. apply frame_getattr. Qed.

Lemma frame_best_outer_bound : frame R best_outer_bound.
Proof. apply frame_getattr. Qed.

End ReadFrames.

(** Computations that read the state and call collaborators. *)
Section CallFrames.
Variable R : ProcState -> ProcState -> Prop.
Context `{!PreOrder R}.
Hypothesis R_emit : forall e s, R s (emit e s).

Lemma frame_call env e : frame R (call env e).
Proof.
  intros s r s'. unfold call.
  destruct (raises env (length (trace s)) e); intros [= _ <-]; apply R_emit.
Qed.

Lemma frame_main_and_shutdown env strata_rank cylinder_rank opt_class sp_class :
  frame R (main_and_shutdown env strata_rank cylinder_rank opt_class sp_class).
Proof. unfold main_and_shutdown. repeat first [apply frame_call | frame_step]. Qed.

Lemma frame__determine_innerbound_winner env :
  frame R (_determine_innerbound_winner env).
Proof.
  unfold _determine_innerbound_winner.
  repeat first [apply frame_call | apply frame_getattr | frame_step].
Qed.

Lemma frame_write_first_stage_solution env f :
  frame R (write_first_stage_solution env f).
Proof.
  unfold write_first_stage_solution.
  repeat first [ apply frame_call | apply frame__determine_innerbound_winner
               | frame_step ].
Qed.

Lemma frame_write_tree_solution env d : frame R (write_tree_solution env d).
Proof.
  unfold write_tree_solution.
  repeat first [ apply frame_call | apply frame__determine_innerbound_winner
               | frame_step ].
Qed.

Lemma frame__make_comms env n_spcomms fullcomm :
  frame R (_make_comms env n_spcomms fullcomm).
Proof.
  unfold _make_comms. repeat first [ apply frame_modify; apply R_emit | frame_step ].
Qed.

End CallFrames.

(** Computations that read and update the dictionaries. *)
Section DictFrames.
Variable R : ProcState -> ProcState -> Prop.
Context `{!PreOrder R}.
Hypothesis R_set_dict : forall d v s, R s (set_dict d v s).

Lemma frame_setitem d k v : frame R (setitem d k v).
Proof. intros s r s' [= _ <-]. apply R_set_dict. Qed.

Lemma frame_pop d k : frame R (pop d k).
Proof.
  intros s r s'. unfold pop.
  destruct ((dicts s !!! d) !! k); intros [= _ <-]; [apply R_set_dict | reflexivity].
Qed.

Ltac dict_ops :=
  repeat first [ apply frame_contains | apply frame_getitem | apply frame_setitem
               | apply frame_pop | frame_step ].

Lemma frame_check_hub_dict d : frame R (check_hub_dict d).
Proof. unfold check_hub_dict. dict_ops. Qed.

Lemma frame_check_spoke_dict d : frame R (check_spoke_dict d).
Proof. unfold check_spoke_dict. dict_ops. Qed.

Lemma frame_convert_keys d : frame R (convert_keys d).
Proof. unfold convert_keys. dict_ops. Qed.

End DictFrames.

(** [run] as a whole. *)
Section RunFrames.
Variable R : ProcState -> ProcState -> Prop.
Context `{!PreOrder R}.
Hypothesis R_emit : forall e s, R s (emit e s).
Hypothesis R_set_dict : forall d v s, R s (set_dict d v s).

Ltac run_pieces :=
  repeat first
    [ assumption
    | apply frame_check_hub_dict | apply frame_check_spoke_dict
    | apply frame_convert_keys | apply frame__make_comms
    | apply frame_main_and_shutdown
    | apply frame_contains | apply frame_getitem | apply frame_setitem
    | apply frame_pop | apply frame_call | frame_step ].

(** [run], apart from the assignments to [self] that end it. *)
Lemma frame_on_raise_run env comm_world : frame_on_raise R (run env comm_world).
Proof. unfold run. run_pieces. Qed.

Hypothesis R_set_self : forall f s, R s (set_self f s).

Lemma frame_run env comm_world : frame R (run env comm_world).
Proof.
  unfold run. repeat first [ apply frame_modify; apply R_set_self | run_pieces ].
Qed.

Lemma frame_perform env c : frame R (perform env c).
Proof.
  destruct c; simpl; unfold spin;
    repeat first
      [ assumption | apply frame_run | apply frame_on_hub
      | apply frame_write_first_stage_solution | apply frame_write_tree_solution
      | apply frame_local_nonant_cache | apply frame_best_inner_bound
      | apply frame_best_outer_bound | frame_step ].
Qed.

End RunFrames.

(** The three relations that are framed. *)
Definition same_self (s s' : ProcState) : Prop := self s' = self s.
Definition same_dicts (s s' : ProcState) : Prop := dicts s' = dicts s.
Definition same_trace (s s' : ProcState) : Prop := trace s' = trace s.
Definition trace_grows (s s' : ProcState) : Prop := trace s `prefix_of` trace s'.

#[local] Instance same_self_preorder : PreOrder same_self.
Proof. split; [now intros s | intros s1 s2 s3 H1 H2; unfold same_self in *; congruence]. Qed.

#[local] Instance same_dicts_preorder : PreOrder same_dicts.
Proof. split; [now intros s | intros s1 s2 s3 H1 H2; unfold same_dicts in *; congruence]. Qed.

#[local] Instance same_trace_preorder : PreOrder same_trace.
Proof. split; [now intros s | intros s1 s2 s3 H1 H2; unfold same_trace in *; congruence]. Qed.

#[local] Instance trace_grows_preorder : PreOrder trace_grows.
Proof.
  split; [intros s; unfold trace_grows; reflexivity|].
  intros s1 s2 s3 H1 H2; unfold trace_grows in *. now transitivity (trace s2).
Qed.

Lemma same_self_emit e s : same_self s (emit e s).
Proof. reflexivity. Qed.

Lemma same_self_set_dict d v s : same_self s (set_dict d v s).
Proof. reflexivity. Qed.

(** *** The [_ran] guard *)

Lemma run_after_run env comm_world s :
  _ran (self s) = true ->
  run env comm_world s =
    (Raise (RuntimeError "WheelSpinner can only be run once"), s).
Proof. intros H. unfold run, bind, get. now rewrite H. Qed.

Lemma run_ok_ran env comm_world s s' :
  run env comm_world s = (Ok tt, s') -> _ran (self s') = true.
Proof.
  unfold run. intros H. bind_inv H. injection H as <-. reflexivity.
Qed.

Lemma run_raise_same_self env comm_world s e s' :
  run env comm_world s = (Raise e, s') -> self s' = self s.
Proof.
  apply (frame_on_raise_run same_self same_self_emit same_self_set_dict).
Qed.

(** A call other than [run] and [spin] leaves the attributes alone. *)
Lemma query_same_self env c s r s' :
  is_run c = false -> perform env c s = (r, s') -> self s' = self s.
Proof.
  intros Hc H. revert H. change (self s' = self s) with (same_self s s').
  revert s r s'. change (frame same_self (perform env c)).
  destruct c; try discriminate Hc; simpl;
    repeat first
      [ apply frame_on_hub | apply frame_local_nonant_cache
      | apply frame_best_inner_bound | apply frame_best_outer_bound
      | apply frame_write_first_stage_solution
      | apply frame_write_tree_solution
      | apply same_self_emit | frame_step ].
Qed.

Lemma later_ran s s' : _ran (self s) = true -> later s s' -> _ran (self s') = true.
Proof.
  intros Hran (env & c & <-). destruct (is_run c) eqn:Hc.
  - destruct c; try discriminate Hc; simpl; unfold spin;
      now rewrite run_after_run.
  - destruct (perform env c s) as [r s'] eqn:E. simpl.
    now rewrite (query_same_self _ _ _ _ _ Hc E).
Qed.

(** C5: once [run()] or [spin()] has returned on an instance, every later
    call to [run()] or [spin()] on it, whatever was called in between,
    raises [RuntimeError] and does nothing: the state of the process,
    its trace of collaborator calls included, is unchanged. *)
Theorem C5_run_only_once env comm_world s s1 s2 env' comm_world' :
  run env comm_world s = (Ok tt, s1) \/ spin env comm_world s = (Ok tt, s1) ->
  rtc later s1 s2 ->
  run env' comm_world' s2 =
    (Raise (RuntimeError "WheelSpinner can only be run once"), s2) /\
  spin env' comm_world' s2 =
    (Raise (RuntimeError "WheelSpinner can only be run once"), s2).
Proof.
  intros Hrun Hlater.
  assert (_ran (self s1) = true) as Hran
    by (destruct Hrun as [H|H]; exact (run_ok_ran _ _ _ _ H)).
  assert (_ran (self s2) = true) as Hran2.
  { clear Hrun. induction Hlater as [|s1 s2 s3 H12 _ IH]; [assumption|].
    apply IH. eapply later_ran; eassumption. }
  unfold spin. split; now apply run_after_run.
Qed.

(** *** Queries before the run *)

Lemma not_yet_run_attrs s :
  not_yet_run s ->
  _ran (self s) = false /\ BestInnerBound (self s) = None /\
  BestOuterBound (self s) = None.
Proof.
  induction 1 as [env h l w d t Hinit | env c s r s' _ IH Hc Hrun].
  - unfold __init__ in Hinit. destruct (negb (haveMPI env)); [discriminate|].
    injection Hinit as <-. auto.
  - replace (self s') with (self s); [exact IH|]. symmetry.
    destruct (is_run c) eqn:E.
    + specialize (Hrun eq_refl). destruct r as [|e]; [discriminate|].
      destruct c; try discriminate E; simpl in Hc; unfold spin in Hc;
        exact (run_raise_same_self _ _ _ _ _ Hc).
    + exact (query_same_self _ _ _ _ _ E Hc).
Qed.

(** C6: on an instance on which no [run()] has completed, reading the best
    inner or outer bound, [write_first_stage_solution],
    [write_tree_solution], [local_nonant_cache] (and [on_hub]) raise, and
    leave the state of the process as it was. *)
Theorem C6_queries_fail_before_run env s solution_file_name solution_directory_name :
  not_yet_run s ->
  best_inner_bound s = (Raise (AttributeError "BestInnerBound"), s) /\
  best_outer_bound s = (Raise (AttributeError "BestOuterBound"), s) /\
  write_first_stage_solution env solution_file_name s =
    (Raise (RuntimeError "Need to call WheelSpinner.run() before querying solutions."), s) /\
  write_tree_solution env solution_directory_name s =
    (Raise (RuntimeError "Need to call WheelSpinner.run() before querying solutions."), s) /\
  local_nonant_cache s =
    (Raise (RuntimeError "Need to call WheelSpinner.run() before querying solutions."), s) /\
  on_hub s =
    (Raise (RuntimeError "Need to call WheelSpinner.run() before finding out."), s).
Proof.
  intros H. destruct (not_yet_run_attrs s H) as (Hran & Hib & Hob).
  unfold best_inner_bound, best_outer_bound, write_first_stage_solution,
    write_tree_solution, local_nonant_cache, on_hub, getattr, bind, get.
  rewrite Hran, Hib, Hob. simpl. repeat split.
Qed.

Lemma same_dicts_emit e s : same_dicts s (emit e s).
Proof. reflexivity. Qed.

Lemma trace_grows_emit e s : trace_grows s (emit e s).
Proof. unfold trace_grows. simpl. now apply prefix_app_r. Qed.

Lemma getitem_ok d k s v s' :
  getitem d k s = (Ok v, s') -> s' = s /\ (dicts s !!! d) !! k = Some v.
Proof.
  unfold getitem. destruct ((dicts s !!! d) !! k); intros [= <- <-]; auto.
Qed.

Lemma call_ok env e s s' : call env e s = (Ok tt, s') -> s' = emit e s.
Proof.
  unfold call. destruct (raises env (length (trace s)) e); intros [= <-]; auto.
Qed.

Lemma run_ok_inv env comm_world s s' :
  run env comm_world s = (Ok tt, s') ->
  exists s1 s2 strata_comm cylinder_comm d sp_class sp_kwargs,
    _ran (self s) = false /\
    _make_comms env (S (length (list_of_spoke_dict (self s))))
      (Some (world_of env comm_world)) s1 = (Ok (strata_comm, cylinder_comm), s2) /\
    (hub_dict (self s) :: list_of_spoke_dict (self s)) !! Get_rank strata_comm = Some d /\
    strata_rank (self s') = Some (Get_rank strata_comm) /\
    cylinder_rank (self s') = Some (Get_rank cylinder_comm) /\
    global_rank (self s') = Some (rank (world_of env comm_world)) /\
    spcomm_dict (self s') = Some d /\
    spcomm (self s') = Some (new_spcomm env) /\
    _ran (self s') = true /\
    (dicts s' !!! d) !! "spcomm_class" = Some sp_class /\
    (dicts s' !!! d) !! "spcomm_kwargs" = Some sp_kwargs /\
    EvNewSPComm sp_class strata_comm cylinder_comm
      (hub_dict (self s) :: list_of_spoke_dict (self s)) sp_kwargs ∈ trace s'.
Proof.
  unfold run. intros H. bind_inv H.
  injection Hstep as <- <-. injection H as <-.
  injection Hstep4 as Hd <-. unfold list_getitem in Hd.
  destruct (_ !! _) as [d|] eqn:Ed in Hd; [|discriminate]. injection Hd as ->.
  apply getitem_ok in Hstep5 as [-> Hcls].
  apply getitem_ok in Hstep6 as [-> Hkw].
  apply getitem_ok in Hstep7 as [-> Hoc].
  apply getitem_ok in Hstep8 as [-> Hok].
  destruct a7 as [|kw|]; try discriminate Hstep9.
  injection Hstep9 as <- <-.
  destruct a9, a10, a11, a12, a13, a14.
  assert (same_dicts s13 s16 /\ trace_grows s13 s16) as [Hd16 Ht16].
  { pose proof (frame_when same_dicts _ _
                  (frame_call same_dicts same_dicts_emit env EvSetupHub)
                  _ _ _ Hstep13) as D1.
    pose proof (frame_call same_dicts same_dicts_emit _ _ _ _ _ Hstep14) as D2.
    pose proof (frame_main_and_shutdown same_dicts same_dicts_emit
                  _ _ _ _ _ _ _ _ Hstep15) as D3.
    pose proof (frame_when trace_grows _ _
                  (frame_call trace_grows trace_grows_emit env EvSetupHub)
                  _ _ _ Hstep13) as T1.
    pose proof (frame_call trace_grows trace_grows_emit _ _ _ _ _ Hstep14) as T2.
    pose proof (frame_main_and_shutdown trace_grows trace_grows_emit
                  _ _ _ _ _ _ _ _ Hstep15) as T3.
    unfold same_dicts, trace_grows in *. split; [congruence|].
    etransitivity; [exact T1|]. etransitivity; [exact T2|exact T3]. }
  apply call_ok in Hstep10, Hstep11, Hstep12.
  exists s3, s4, c, c0, a3, a4, a5. simpl.
  split; [assumption|]. split; [exact Hstep3|]. split; [exact Ed|].
  do 6 (split; [reflexivity|]).
  unfold same_dicts in Hd16. rewrite Hd16.
  destruct Ht16 as [t Ht]. rewrite Ht.
  subst s13 s12 s11. simpl. rewrite lookup_total_insert_eq.
  split; [now rewrite lookup_insert_ne|]. split; [now rewrite lookup_insert_ne|].
  set_solver.
Qed.

(** *** Who is the hub *)

Section ValidTopology.
Variables (env : Env) (st : ProcState) (n_spcomms n_proc : nat).
Hypothesis have_mpi : haveMPI env = true.
Hypothesis role_count_pos : 0 < n_spcomms.
Hypothesis multiple : n_proc mod n_spcomms = 0.

Lemma world_size_exact : n_proc = n_spcomms * (n_proc / n_spcomms).
Proof. now apply Nat.Div0.div_exact. Qed.

Lemma topology_valid p :
  topology env n_spcomms (mkWorld n_proc p) st =
  Some (Split (mkWorld n_proc p) (fun r => r / n_spcomms) (fun r => r),
        Split (mkWorld n_proc p) (fun r => r mod n_spcomms) (fun r => r)).
Proof.
  unfold topology.
  now rewrite (_make_comms_multiple env n_spcomms (Some (mkWorld n_proc p)) st).
Qed.

Lemma strata_rank_of_valid p :
  p < n_proc -> strata_rank_of env n_spcomms n_proc st p = Some (p mod n_spcomms).
Proof.
  intros Hp. unfold strata_rank_of. rewrite topology_valid. f_equal.
  rewrite world_size_exact in Hp |- *.
  now apply Get_rank_floordiv_split.
Qed.

Lemma cylinder_rank_of_valid p :
  p < n_proc -> cylinder_rank_of env n_spcomms n_proc st p = Some (p / n_spcomms).
Proof.
  intros Hp. unfold cylinder_rank_of. rewrite topology_valid. f_equal.
  rewrite world_size_exact in Hp |- *.
  now apply Get_rank_mod_split.
Qed.

Lemma strata_members_valid p :
  p < n_proc ->
  members (Split (mkWorld n_proc p) (fun r => r / n_spcomms) (fun r => r)) =
  seq (n_spcomms * (p / n_spcomms)) n_spcomms.
Proof.
  intros Hp. rewrite world_size_exact in Hp |- *.
  now apply members_floordiv_split.
Qed.

Lemma strata_block_in_world p i :
  p < n_proc -> i < n_spcomms -> n_spcomms * (p / n_spcomms) + i < n_proc.
Proof.
  intros Hp Hi. rewrite world_size_exact in Hp |- *.
  assert (p / n_spcomms < n_proc / n_spcomms)
    by (apply Nat.Div0.div_lt_upper_bound; lia).
  nia.
Qed.

Lemma strata_block_mod p i :
  i < n_spcomms -> (n_spcomms * (p / n_spcomms) + i) mod n_spcomms = i.
Proof.
  intros Hi. rewrite Nat.add_comm, (Nat.mul_comm n_spcomms), Nat.Div0.mod_add.
  now apply Nat.mod_small.
Qed.

End ValidTopology.

(** C7, as stated, fails: in a world of four processes and two roles, the
    cylinder group of rank 0 is [[0; 2]], and both of its processes have
    strata_rank 0. *)
Lemma C7_counterexample :
  ~ (exists strata_comm cylinder_comm,
       topology (quiet_env 4 0) 2 (mkWorld 4 0) fresh_state
         = Some (strata_comm, cylinder_comm) /\
       exists h,
         (h ∈ members cylinder_comm /\
          strata_rank_of (quiet_env 4 0) 2 4 fresh_state h = Some 0) /\
         forall h',
           h' ∈ members cylinder_comm ->
           strata_rank_of (quiet_env 4 0) 2 4 fresh_state h' = Some 0 ->
           h' = h).
Proof.
  intros (strata_comm & cylinder_comm & Htopo & h & _ & Huniq).
  vm_compute in Htopo. injection Htopo as _ <-.
  assert (0 = h) as H0 by (apply Huniq; [set_solver | reflexivity]).
  assert (2 = h) as H2 by (apply Huniq; [set_solver | reflexivity]).
  congruence.
Qed.

(** C7, amended: in a world whose size is a multiple of the role count,
    exactly one process of every strata group has strata_rank 0, every
    strata_rank below the role count is taken in the group, and every
    process, whatever its strata_rank, receives a cylinder group of
    [n_proc / n_spcomms] processes; a process on which [run] completes has
    the strata_rank of the topology, and if that is 0 its dictionary is the
    hub's ([communicator_list[0]]), from which the class and keyword
    arguments of its communicator object are taken. *)
Theorem C7_one_hub_per_strata_group env st n_spcomms n_proc p :
  haveMPI env = true -> 0 < n_spcomms -> n_proc mod n_spcomms = 0 ->
  p < n_proc ->
  exists strata_comm cylinder_comm,
    topology env n_spcomms (mkWorld n_proc p) st = Some (strata_comm, cylinder_comm) /\
    (exists h,
       (h ∈ members strata_comm /\
        strata_rank_of env n_spcomms n_proc st h = Some 0) /\
       forall h',
         h' ∈ members strata_comm ->
         strata_rank_of env n_spcomms n_proc st h' = Some 0 ->
         h' = h) /\
    Get_size strata_comm = n_spcomms /\
    (forall r, r < n_spcomms ->
       exists q, q ∈ members strata_comm /\
                 strata_rank_of env n_spcomms n_proc st q = Some r) /\
    Get_size cylinder_comm = n_proc / n_spcomms /\
    (forall s s',
       S (length (list_of_spoke_dict (self s))) = n_spcomms ->
       run env (Some (mkWorld n_proc p)) s = (Ok tt, s') ->
       strata_rank (self s') = strata_rank_of env n_spcomms n_proc st p /\
       (strata_rank (self s') = Some 0 ->
        spcomm_dict (self s') = Some (hub_dict (self s)) /\
        exists sp_class sp_kwargs,
          (dicts s' !!! hub_dict (self s)) !! "spcomm_class" = Some sp_class /\
          (dicts s' !!! hub_dict (self s)) !! "spcomm_kwargs" = Some sp_kwargs /\
          EvNewSPComm sp_class strata_comm cylinder_comm
            (hub_dict (self s) :: list_of_spoke_dict (self s)) sp_kwargs
            ∈ trace s')).
Proof.
  intros Hmpi Hn Hmod Hp.
  eexists _, _. split; [now apply topology_valid|].
  rewrite (strata_members_valid n_spcomms n_proc Hn Hmod p Hp).
  split; [|split; [|split; [|split]]].
  - exists (n_spcomms * (p / n_spcomms)). split; [split|].
    + apply elem_of_seq. lia.
    + rewrite (strata_rank_of_valid env st n_spcomms n_proc Hmpi Hn Hmod).
      * f_equal. replace (n_spcomms * (p / n_spcomms))
          with (n_spcomms * (p / n_spcomms) + 0) by lia.
        now apply strata_block_mod.
      * pose proof (strata_block_in_world n_spcomms n_proc Hn Hmod p 0 Hp Hn). lia.
    + intros h' Hin Hr. apply elem_of_seq in Hin.
      replace h' with (n_spcomms * (p / n_spcomms) + (h' - n_spcomms * (p / n_spcomms)))
        in Hr by lia.
      rewrite (strata_rank_of_valid env st n_spcomms n_proc Hmpi Hn Hmod) in Hr
        by (apply strata_block_in_world; (assumption || lia)).
      rewrite strata_block_mod in Hr by lia. injection Hr as Hr. lia.
  - unfold Get_size. rewrite (strata_members_valid n_spcomms n_proc Hn Hmod p Hp).
    apply length_seq.
  - intros r Hr. exists (n_spcomms * (p / n_spcomms) + r). split.
    + apply elem_of_seq. lia.
    + rewrite (strata_rank_of_valid env st n_spcomms n_proc Hmpi Hn Hmod)
        by (now apply strata_block_in_world).
      f_equal. now apply strata_block_mod.
  - rewrite (world_size_exact n_spcomms n_proc Hmod) in Hp |- *.
    rewrite (Get_size_mod_split n_spcomms (n_proc / n_spcomms) p Hn Hp).
    rewrite Nat.mul_comm, Nat.div_mul by lia. reflexivity.
  - intros s s' Hlen Hrun.
    destruct (run_ok_inv _ _ _ _ Hrun)
      as (s1 & s2 & sc & cc & d & cls & kw & _ & Hcomms & Hd & Hsr & _ & _
          & Hsd & _ & _ & Hcls & Hkw & Hev).
    rewrite Hlen in Hcomms. simpl in Hcomms.
    rewrite (_make_comms_multiple env n_spcomms (Some (mkWorld n_proc p)) s1)
      in Hcomms by assumption.
    simpl in Hcomms. injection Hcomms as <- <- _.
    rewrite Hsr, (strata_rank_of_valid env st n_spcomms n_proc Hmpi Hn Hmod p Hp).
    rewrite (world_size_exact n_spcomms n_proc Hmod) in Hp, Hd, Hev |- *.
    rewrite (Get_rank_floordiv_split n_spcomms _ p Hn Hp) in *.
    split; [reflexivity|]. intros [= H0]. rewrite H0 in Hd. simpl in Hd.
    injection Hd as <-. split; [assumption|]. eauto.
Qed.

(** In a world of four processes and two roles, rank 2 finds its strata
    group [[2; 3]] and its cylinder group [[0; 2]]. *)
Lemma C7_witness :
  topology (quiet_env 4 2) 2 (mkWorld 4 2) fresh_state =
    Some ({| members := [2; 3]; caller := 2 |},
          {| members := [0; 2]; caller := 2 |}).
Proof.
  destruct (C7_one_hub_per_strata_group (quiet_env 4 2) fresh_state 2 4 2)
    as (sc & cc & Htopo & _); [reflexivity | lia | reflexivity | lia |].
  rewrite Htopo. vm_compute in Htopo. injection Htopo as <- <-. reflexivity.
Defined.

(** After a first [run] on a wheel of two processes, a second one raises. *)
Lemma C5_witness :
  exists s1,
    run (quiet_env 2 1) None fresh_state = (Ok tt, s1) /\
    run (quiet_env 2 1) None s1 =
      (Raise (RuntimeError "WheelSpinner can only be run once"), s1).
Proof.
  destruct (run (quiet_env 2 1) None fresh_state) as [[[]|e] s1] eqn:E;
    [|vm_compute in E; discriminate E].
  exists s1. split; [reflexivity|].
  exact (proj1 (C5_run_only_once (quiet_env 2 1) None fresh_state s1 s1
                  (quiet_env 2 1) None (or_introl E) (rtc_refl _ _))).
Defined.

(** A spinner that was just constructed has no best inner bound to give. *)
Lemma C6_witness :
  best_inner_bound fresh_state =
    (Raise (AttributeError "BestInnerBound"), fresh_state).
Proof.
  exact (proj1 (C6_queries_fail_before_run (quiet_env 2 0) fresh_state
                  "sol.csv" "soldir"
                  (not_yet_run_init (quiet_env 2 0) 0 [1] fresh_spinner
                     two_dicts [] eq_refl))).
Defined.


(** *** The calls of [run], in program order *)

(** The function or method that a call is to: an event without its
    arguments, but for the communicator of a [Barrier]. *)
Inductive Phase :=
| PSplit | PNewOpt | PNewSPComm | PMakeWindows | PSetupHub | PGlobalToc
| PMain | PSendTerminate | PFinalize | PBarrier (c : CommName)
| PHubFinalize | PFreeWindows
| PBcast | PWriteFirstStageSolution | PWriteTreeSolution.

#[local] Instance CommName_eq_dec : EqDecision CommName.
Proof. solve_decision. Defined.

#[local] Instance Phase_eq_dec : EqDecision Phase.
Proof. solve_decision. Defined.

Definition phase (e : Event) : Phase :=
  match e with
  | EvSplit _ _ => PSplit
  | EvNewOpt _ _ => PNewOpt
  | EvNewSPComm _ _ _ _ _ => PNewSPComm
  | EvMakeWindows => PMakeWindows
  | EvSetupHub => PSetupHub
  | EvGlobalToc _ _ => PGlobalToc
  | EvMain => PMain
  | EvSendTerminate => PSendTerminate
  | EvFinalize => PFinalize
  | EvBarrier c => PBarrier c
  | EvHubFinalize => PHubFinalize
  | EvFreeWindows => PFreeWindows
  | EvBcast _ => PBcast
  | EvWriteFirstStageSolution _ => PWriteFirstStageSolution
  | EvWriteTreeSolution _ => PWriteTreeSolution
  end.

(** [follows P c]: the functions that a run of [c] calls are, in order, a
    prefix of [P], and all of [P] if the run returns. *)
Definition follows {A} (P : list Phase) (c : M ProcState A) : Prop :=
  forall s r s', c s = (r, s') ->
    exists l, trace s' = trace s ++ l /\
              map phase l `prefix_of` P /\
              (is_ok r = true -> map phase l = P).

Lemma follows_eq {A} P P' (c : M ProcState A) : P = P' -> follows P' c -> follows P c.
Proof. now intros ->. Qed.

Lemma follows_ret {A} (a : A) : follows [] (ret a).
Proof.
  intros s r s' [= <- <-]. exists []. rewrite app_nil_r. repeat split; auto.
Qed.

Lemma follows_raise {A} P e : follows P (@raise ProcState A e).
Proof.
  intros s r s' [= <- <-]. exists []. rewrite app_nil_r.
  split; [reflexivity|]. split; [apply prefix_nil | discriminate].
Qed.

Lemma follows_lift {A} (x : result A) : follows [] (lift x).
Proof.
  intros s r s' [= <- <-]. exists []. rewrite app_nil_r. repeat split; auto.
Qed.

Lemma follows_frame {A} (c : M ProcState A) : frame same_trace c -> follows [] c.
Proof.
  intros Hc s r s' H. exists []. rewrite app_nil_r.
  split; [exact (Hc _ _ _ H) | repeat split; auto].
Qed.

Lemma follows_emit e p : phase e = p -> follows [p] (modify (emit e)).
Proof.
  intros <- s r s' [= <- <-]. exists [e]. repeat split; auto.
Qed.

Lemma follows_call env e p : phase e = p -> follows [p] (call env e).
Proof.
  intros <- s r s'. unfold call.
  destruct (raises env (length (trace s)) e); intros [= <- <-];
    exists [e]; repeat split; auto.
Qed.

Lemma follows_bind_post {A B} P1 P2 (Q : A -> Prop)
    (c : M ProcState A) (k : A -> M ProcState B) :
  follows P1 c ->
  (forall s a s1, c s = (Ok a, s1) -> Q a) ->
  (forall a, Q a -> follows P2 (k a)) ->
  follows (P1 ++ P2) (bind c k).
Proof.
  intros Hc HQ Hk s r s'. unfold bind.
  destruct (c s) as [[a|e] s1] eqn:E; intros H.
  - destruct (Hc _ _ _ E) as (l1 & Ht1 & _ & Hall1).
    destruct (Hk a (HQ _ _ _ E) _ _ _ H) as (l2 & Ht2 & Hpre2 & Hall2).
    exists (l1 ++ l2). rewrite Ht2, Ht1, <- app_assoc, map_app, (Hall1 eq_refl).
    split; [reflexivity|]. split; [now apply prefix_app|].
    intros Hr. now rewrite (Hall2 Hr).
  - injection H as <- <-.
    destruct (Hc _ _ _ E) as (l1 & Ht1 & Hpre1 & _).
    exists l1. split; [exact Ht1|]. split; [now apply prefix_app_r | discriminate].
Qed.

Lemma follows_bind {A B} P1 P2 (c : M ProcState A) (k : A -> M ProcState B) :
  follows P1 c -> (forall a, follows P2 (k a)) -> follows (P1 ++ P2) (bind c k).
Proof.
  intros Hc Hk. apply (follows_bind_post P1 P2 (fun _ => True)); auto.
Qed.

Lemma follows_when (b : bool) P (c : M ProcState unit) :
  follows P c -> follows (if b then P else []) (when b c).
Proof. destruct b; [trivial | intros _; apply follows_ret]. Qed.

Lemma same_trace_set_dict d v s : same_trace s (set_dict d v s).
Proof. reflexivity. Qed.

Lemma same_trace_set_self f s : same_trace s (set_self f s).
Proof. reflexivity. Qed.

Ltac follows_step :=
  lazymatch goal with
  | |- forall _, _ => intros ?
  | |- follows _ (bind _ _) => eapply follows_bind
  | |- follows _ (call _ _) => eapply follows_call; cbn; reflexivity
  | |- follows _ (when _ _) => apply follows_when
  | |- follows _ (lift _) => apply follows_lift
  | |- follows _ (ret _) => apply follows_ret
  | |- follows _ (raise _) => apply follows_raise
  | |- follows _ (modify (emit _)) => eapply follows_emit; cbn; reflexivity
  | |- follows _ (if ?b then _ else _) => destruct b
  | |- follows _ (match ?x with _ => _ end) => destruct x
  end.

(** The shutdown sequence, lines 137-156. *)
Definition shutdown_phases (hub : bool) : list Phase :=
  [PMain] ++ (if hub then [PSendTerminate] else [])
  ++ [PFinalize; PBarrier CylinderComm; PGlobalToc; PGlobalToc; PBarrier FullComm;
      PHubFinalize; PFreeWindows; PBarrier FullComm; PGlobalToc].

Lemma follows_main_and_shutdown env strata_rank cylinder_rank opt_class sp_class :
  follows (shutdown_phases (Nat.eqb strata_rank 0))
    (main_and_shutdown env strata_rank cylinder_rank opt_class sp_class).
Proof.
  unfold main_and_shutdown. eapply follows_eq; [|repeat follows_step].
  unfold shutdown_phases. now destruct (Nat.eqb strata_rank 0).
Qed.

Lemma follows__make_comms env n_spcomms fullcomm :
  follows [PSplit; PSplit] (_make_comms env n_spcomms fullcomm).
Proof.
  unfold _make_comms. eapply follows_eq; [|repeat follows_step]. reflexivity.
Qed.

Lemma _make_comms_fst env n_spcomms fullcomm s s0 :
  fst (_make_comms env n_spcomms fullcomm s)
  = fst (_make_comms env n_spcomms fullcomm s0).
Proof.
  unfold _make_comms. destruct (negb (haveMPI env)); [reflexivity|].
  unfold bind, lift, modify, raise, ret.
  destruct (py_mod _ n_spcomms) as [r|e]; [|reflexivity].
  destruct (negb (Nat.eqb r 0)); [reflexivity|].
  destruct (py_floordiv _ n_spcomms) as [c|e]; [|reflexivity].
  destruct (py_mod _ n_spcomms) as [c'|e]; reflexivity.
Qed.

(** The calls of [run] once the communicators exist (lines 112-156), and
    all of them (lines 108-156): the two [Split]s, the constructor of the
    opt object, that of the hub or spoke, [make_windows], [setup_hub] on
    the hub, a [global_toc], and the shutdown sequence. *)
Definition phases_after_comms (hub : bool) : list Phase :=
  [PNewOpt; PNewSPComm; PMakeWindows] ++ (if hub then [PSetupHub] else [])
  ++ [PGlobalToc] ++ shutdown_phases hub.

Definition run_phases (hub : bool) : list Phase :=
  [PSplit; PSplit] ++ phases_after_comms hub.

(** [strata_rank == 0] on the calling process of [fullcomm]. *)
Definition on_strata_rank_0 (env : Env) (n_spcomms : nat) (fullcomm : World)
    (s : ProcState) : bool :=
  match topology env n_spcomms fullcomm s with
  | Some (strata_comm, _) => Nat.eqb (Get_rank strata_comm) 0
  | None => false
  end.

Ltac follows_quiet :=
  apply follows_frame;
  repeat first
    [ apply (frame_check_hub_dict same_trace same_trace_set_dict)
    | apply (frame_check_spoke_dict same_trace same_trace_set_dict)
    | apply (frame_convert_keys same_trace same_trace_set_dict)
    | apply (frame_setitem same_trace same_trace_set_dict)
    | apply frame_getitem
    | apply frame_modify; apply same_trace_set_self
    | frame_step ].

Lemma run_follows env fullcomm s r s' hub :
  (forall strata_comm cylinder_comm,
     topology env (S (length (list_of_spoke_dict (self s)))) fullcomm s
       = Some (strata_comm, cylinder_comm) ->
     Nat.eqb (Get_rank strata_comm) 0 = hub) ->
  run env (Some fullcomm) s = (r, s') ->
  exists l, trace s' = trace s ++ l /\
            map phase l `prefix_of` run_phases hub /\
            (is_ok r = true -> map phase l = run_phases hub).
Proof.
  intros Hhub. unfold run, bind at 1, get at 1.
  destruct (_ran (self s)); [apply follows_raise|].
  match goal with |- ?c s = _ -> _ => assert (follows (run_phases hub) c) as F end;
    [|exact (F s r s')].
  eapply follows_eq; cycle 1.
  { eapply follows_bind; [follows_quiet | intros _].
    eapply follows_bind; [follows_quiet | intros _].
    eapply follows_bind; [follows_quiet | intros _].
    eapply (follows_bind_post _ (phases_after_comms hub)
              (fun a => topology env (S (length (list_of_spoke_dict (self s))))
                          fullcomm s = Some a)).
    - apply follows__make_comms.
    - intros s0 a s1 H0. unfold topology.
      rewrite (_make_comms_fst env _ (Some fullcomm) s s0).
      change (S (length (list_of_spoke_dict (self s))))
        with (length (hub_dict (self s) :: list_of_spoke_dict (self s))).
      now rewrite H0.
    - intros [strata_comm cylinder_comm] HQ.
      rewrite <- (Hhub _ _ HQ).
      eapply follows_eq; cycle 1.
      { repeat first [ apply follows_main_and_shutdown
                     | follows_step
                     | solve [follows_quiet] ]. }
      unfold phases_after_comms. now destruct (Nat.eqb (Get_rank strata_comm) 0). }
  reflexivity.
Qed.

(** *** Program order *)

(** Every occurrence of [x] in [l] comes after an occurrence of [y]. *)
Definition precedes {A} (l : list A) (y x : A) : Prop :=
  forall j, l !! j = Some x -> exists i, i < j /\ l !! i = Some y.

Fixpoint precedesb (y x : Phase) (seen : bool) (P : list Phase) : bool :=
  match P with
  | [] => true
  | z :: P =>
      (if bool_decide (z = x) then seen else true)
      && precedesb y x (seen || bool_decide (z = y)) P
  end.

Lemma precedesb_sound y x : forall P seen,
  precedesb y x seen P = true ->
  forall j, P !! j = Some x -> seen = true \/ exists i, i < j /\ P !! i = Some y.
Proof.
  induction P as [|z P IH]; intros seen H j Hj; [discriminate Hj|].
  simpl in H. apply andb_prop in H as [Hz H].
  destruct j as [|j].
  - injection Hj as ->. rewrite bool_decide_eq_true_2 in Hz by reflexivity. now left.
  - destruct (IH _ H j Hj) as [Hseen | (i & Hi & Hy)].
    + apply orb_prop in Hseen as [Hseen | Hzy]; [now left|].
      apply bool_decide_eq_true_1 in Hzy. subst z.
      right. exists 0. split; [lia | reflexivity].
    + right. exists (S i). split; [lia | exact Hy].
Qed.

Lemma precedes_phases (P : list Phase) y x :
  precedesb y x false P = true -> precedes P y x.
Proof.
  intros H j Hj. destruct (precedesb_sound y x P false H j Hj) as [|]; [discriminate | assumption].
Qed.

Lemma precedes_prefix {A} (l P : list A) y x :
  l `prefix_of` P -> precedes P y x -> precedes l y x.
Proof.
  intros Hpre HP j Hj.
  destruct (HP j (prefix_lookup_Some _ _ _ _ Hj Hpre)) as (i & Hi & Hy).
  exists i. split; [exact Hi|].
  assert (i < length l) as Hlt
    by (apply lookup_lt_Some in Hj; lia).
  destruct (lookup_lt_is_Some_2 l i Hlt) as [y' Hy'].
  now rewrite Hy', <- Hy, (prefix_lookup_Some _ _ _ _ Hy' Hpre).
Qed.

(** The events that are alone in their phase. *)
Definition sole (e : Event) : Prop :=
  forall e', phase e' = phase e -> e' = e.

Lemma precedes_events (l : list Event) y x :
  sole y -> precedes (map phase l) (phase y) (phase x) -> precedes l y x.
Proof.
  intros Hy H j Hj.
  destruct (H j) as (i & Hi & Hpi); [now rewrite list_lookup_fmap, Hj|].
  rewrite list_lookup_fmap in Hpi.
  destruct (l !! i) as [e'|] eqn:E; [|discriminate Hpi].
  injection Hpi as Hpi. exists i. split; [exact Hi|]. now rewrite E, (Hy e' Hpi).
Qed.

Lemma sole_finalize : sole EvFinalize.
Proof. intros []; simpl; congruence. Qed.

Lemma sole_barrier c : sole (EvBarrier c).
Proof. intros []; simpl; congruence. Qed.

Lemma sole_hub_finalize : sole EvHubFinalize.
Proof. intros []; simpl; congruence. Qed.

Lemma sole_main : sole EvMain.
Proof. intros []; simpl; congruence. Qed.

Lemma sole_send_terminate : sole EvSendTerminate.
Proof. intros []; simpl; congruence. Qed.

(** The order of the calls that [run] has added to the trace. *)
Lemma run_precedes env fullcomm s r s' y x :
  run env (Some fullcomm) s = (r, s') ->
  sole y ->
  (forall hub, precedesb (phase y) (phase x) false (run_phases hub) = true) ->
  precedes (drop (length (trace s)) (trace s')) y x.
Proof.
  intros Hrun Hy Hb.
  destruct (run_follows env fullcomm s r s'
              (on_strata_rank_0 env (S (length (list_of_spoke_dict (self s))))
                 fullcomm s)) as (l & Ht & Hpre & _); [|exact Hrun|].
  { intros strata_comm cylinder_comm Htop. unfold on_strata_rank_0. now rewrite Htop. }
  rewrite Ht, drop_app_length.
  apply precedes_events; [exact Hy|].
  eapply precedes_prefix; [exact Hpre|]. apply precedes_phases, Hb.
Qed.
Import Execution.

(** *** The processes together *)

Lemma is_barrier_true c e : is_barrier c e = true -> e = EvBarrier c.
Proof. destruct e as [| | | | | | | | |c'| | | | |], c; try destruct c'; now intros. Qed.

Lemma barriers_pos c l : 0 < barriers c l -> EvBarrier c ∈ l.
Proof.
  induction l as [|e l IH]; simpl; [lia|].
  destruct (is_barrier c e) eqn:E.
  - intros _. apply is_barrier_true in E as ->. now left.
  - intros H. right. now apply IH.
Qed.

Lemma barriers_zero c l : EvBarrier c ∉ l -> barriers c l = 0.
Proof.
  intros H. destruct (barriers c l) eqn:E; [reflexivity|].
  exfalso. apply H, barriers_pos. lia.
Qed.

Lemma is_barrier_refl c : is_barrier c (EvBarrier c) = true.
Proof. now destruct c. Qed.

Lemma barriers_none c l : barriers c l = 0 -> EvBarrier c ∉ l.
Proof.
  induction l as [|e l IH]; simpl; intros H Hin.
  - now apply elem_of_nil in Hin.
  - apply elem_of_cons in Hin as [<- | Hin].
    + rewrite is_barrier_refl in H. lia.
    + apply IH; [|exact Hin]. destruct (is_barrier c e); lia.
Qed.

Section Interleavings.
Variables (n_proc : nat) (envs : nat -> Env) (inits : nat -> ProcState).

#[local] Abbreviation script := (Execution.script n_proc envs inits).
#[local] Abbreviation done := (Execution.done n_proc envs inits).
#[local] Abbreviation invoked := (Execution.invoked n_proc envs inits).
#[local] Abbreviation fire := (Execution.fire n_proc envs inits).
#[local] Abbreviation exec := (Execution.exec n_proc envs inits).
#[local] Abbreviation enabled := (Execution.enabled n_proc envs inits).
#[local] Abbreviation reachable := (Execution.reachable n_proc envs inits).

Lemma fire_inv pc p pc' :
  fire pc p = Some pc' ->
  exists e, p < n_proc /\ script p !! (pc !!! p) = Some e /\
            enabled pc p e = true /\ pc' = <[p := S (pc !!! p)]> pc.
Proof.
  unfold Execution.fire. destruct (script p !! (pc !!! p)) as [e|]; [|discriminate].
  destruct (Nat.ltb_spec p n_proc) as [Hp|]; [|discriminate]. simpl.
  destruct (enabled pc p e) eqn:He; [|discriminate].
  intros [= <-]. eauto.
Qed.

(** Induction over the steps of a schedule. *)
Lemma exec_invariant (I : Config -> Prop) :
  (forall pc p pc', I pc -> fire pc p = Some pc' -> I pc') ->
  forall schedule pc pc', I pc -> exec schedule pc = Some pc' -> I pc'.
Proof.
  intros Hstep. induction schedule as [|p schedule IH]; intros pc pc' HI; simpl.
  - now intros [= <-].
  - destruct (fire pc p) as [pc1|] eqn:E; [|discriminate].
    apply IH. eapply Hstep; eauto.
Qed.

Lemma step_lookup pc p q :
  p < length pc ->
  <[p := S (pc !!! p)]> pc !!! q = if decide (q = p) then S (pc !!! p) else pc !!! q.
Proof.
  intros Hp. destruct (decide (q = p)) as [->|Hne].
  - now apply list_lookup_total_insert_eq.
  - now apply list_lookup_total_insert_ne.
Qed.

Lemma done_step pc p q x :
  p < length pc -> x ∈ done pc q -> x ∈ done (<[p := S (pc !!! p)]> pc) q.
Proof.
  intros Hp. unfold Execution.done, Config.
  destruct (decide (q = p)) as [->|Hne].
  - rewrite list_lookup_total_insert_eq by exact Hp.
    rewrite !elem_of_take. intros (i & Hi & Hlt). exists i. split; [exact Hi | lia].
  - now rewrite list_lookup_total_insert_ne by congruence.
Qed.

Lemma invoked_step pc p q x :
  p < length pc -> x ∈ invoked pc q -> x ∈ invoked (<[p := S (pc !!! p)]> pc) q.
Proof.
  intros Hp. unfold Execution.invoked, Config.
  destruct (decide (q = p)) as [->|Hne].
  - rewrite list_lookup_total_insert_eq by exact Hp.
    rewrite !elem_of_take. intros (i & Hi & Hlt). exists i. split; [exact Hi | lia].
  - now rewrite list_lookup_total_insert_ne by congruence.
Qed.

Lemma done_invoked pc q x : x ∈ done pc q -> x ∈ invoked pc q.
Proof.
  unfold Execution.done, Execution.invoked. rewrite !elem_of_take.
  intros (i & Hi & Hlt). exists i. split; [exact Hi | lia].
Qed.

(** Once a process has left a barrier on the world communicator, every
    process has entered one. *)
Definition barrier_entered_by_all (pc : Config) : Prop :=
  length pc = n_proc /\
  ((exists q, q < n_proc /\ EvBarrier FullComm ∈ done pc q) ->
   forall p, p < n_proc -> EvBarrier FullComm ∈ invoked pc p).

Lemma arrived_invoked pc p :
  arrived n_proc envs inits pc FullComm 0 p = true ->
  EvBarrier FullComm ∈ invoked pc p.
Proof.
  unfold arrived. intros H. apply orb_prop in H as [H|H].
  - apply Nat.ltb_lt in H. now apply done_invoked, barriers_pos.
  - apply andb_prop in H as [_ H].
    destruct (script p !! (pc !!! p)) as [e|] eqn:E; [|discriminate].
    apply is_barrier_true in H as ->.
    unfold Execution.invoked. apply elem_of_take. exists (pc !!! p). split; [exact E | lia].
Qed.

Lemma barrier_entered_by_all_initial : barrier_entered_by_all (initial n_proc).
Proof.
  split; [apply length_replicate|].
  intros (q & Hq & Hin). exfalso. unfold Execution.done, initial, Config in Hin.
  rewrite lookup_total_replicate_2 in Hin by exact Hq. simpl in Hin.
  now apply elem_of_nil in Hin.
Qed.

Lemma barrier_entered_by_all_step pc p pc' :
  barrier_entered_by_all pc -> fire pc p = Some pc' -> barrier_entered_by_all pc'.
Proof.
  intros [Hlen Hall] Hfire.
  destruct (fire_inv _ _ _ Hfire) as (e & Hp & He & Hen & ->).
  unfold Config in *.
  split; [now rewrite length_insert|].
  intros (q & Hq & Hin) p' Hp'.
  apply invoked_step; [lia|].
  destruct (barriers FullComm (done pc q)) as [|k] eqn:Hcount;
    [apply barriers_none in Hcount as Hnew
    |apply Hall; [exists q; split; [exact Hq | apply barriers_pos; lia] | exact Hp']].
  assert (q = p) as ->.
  { destruct (decide (q = p)) as [|Hne]; [assumption|]. exfalso. apply Hnew.
    unfold Execution.done, Config in Hin |- *. rewrite step_lookup in Hin by lia.
    now rewrite decide_False in Hin by exact Hne. }
  assert (e = EvBarrier FullComm) as ->.
  { unfold Execution.done, Config in Hin, Hnew. rewrite step_lookup in Hin by lia.
    rewrite decide_True in Hin by reflexivity.
    apply elem_of_take in Hin as (i & Hi & Hlt).
    destruct (decide (i = pc !!! p)) as [->|Hne]; [congruence|].
    exfalso. apply Hnew, elem_of_take. exists i. split; [exact Hi | lia]. }
  simpl in Hen. rewrite (barriers_zero _ _ Hnew) in Hen.
  apply arrived_invoked.
  rewrite forallb_forall in Hen. apply Hen, in_seq. lia.
Qed.

Lemma reachable_barrier_entered_by_all pc :
  reachable pc -> barrier_entered_by_all pc.
Proof.
  intros [schedule Hexec].
  eapply (exec_invariant barrier_entered_by_all); [|apply barrier_entered_by_all_initial|exact Hexec].
  intros. eapply barrier_entered_by_all_step; eauto.
Qed.

Lemma script_precedes p y x :
  sole y ->
  (forall hub, precedesb (phase y) (phase x) false (run_phases hub) = true) ->
  precedes (script p) y x.
Proof.
  intros Hy Hb. unfold Execution.script.
  destruct (run (envs p) (Some (MPI.mkWorld n_proc p)) (inits p)) as [r s'] eqn:E.
  eapply run_precedes; eauto.
Qed.

Lemma invoked_precedes pc q y x :
  precedes (script q) y x -> x ∈ invoked pc q -> y ∈ done pc q.
Proof.
  intros Hprec Hin. unfold Execution.invoked in Hin. apply elem_of_take in Hin as (j & Hj & Hlt).
  destruct (Hprec j Hj) as (i & Hi & Hy).
  unfold Execution.done. apply elem_of_take. exists i. split; [exact Hy | lia].
Qed.

End Interleavings.
Import Inputs.

(** *** What [run] guarantees *)

Lemma topology_some_inv env n_spcomms fullcomm s strata_comm cylinder_comm :
  topology env n_spcomms fullcomm s = Some (strata_comm, cylinder_comm) ->
  haveMPI env = true /\ 0 < n_spcomms /\ size fullcomm mod n_spcomms = 0 /\
  strata_comm = Split fullcomm (fun r => r / n_spcomms) (fun r => r) /\
  cylinder_comm = Split fullcomm (fun r => r mod n_spcomms) (fun r => r).
Proof.
  unfold topology. intros H.
  destruct (haveMPI env) eqn:Hmpi;
    [|unfold _make_comms in H; rewrite Hmpi in H; discriminate H].
  destruct n_spcomms as [|n];
    [unfold _make_comms in H; rewrite Hmpi in H; discriminate H|].
  destruct (decide (size fullcomm mod S n = 0)) as [Hmod|Hmod].
  - rewrite (_make_comms_multiple env (S n) (Some fullcomm) s Hmpi
               (Nat.lt_0_succ n) Hmod) in H.
    simpl in H. injection H as <- <-. repeat split; auto; lia.
  - rewrite (_make_comms_not_multiple env (S n) (Some fullcomm) s Hmpi
               (Nat.lt_0_succ n) Hmod) in H.
    discriminate H.
Qed.

Lemma strata_rank_is_remainder env n_spcomms fullcomm s strata_comm cylinder_comm :
  rank fullcomm < size fullcomm ->
  topology env n_spcomms fullcomm s = Some (strata_comm, cylinder_comm) ->
  Get_rank strata_comm = rank fullcomm mod n_spcomms /\
  Get_rank cylinder_comm = rank fullcomm / n_spcomms.
Proof.
  intros Hrank Htop.
  destruct (topology_some_inv _ _ _ _ _ _ Htop) as (_ & Hn & Hmod & -> & ->).
  destruct fullcomm as [n_proc p]. simpl in *.
  apply Nat.Div0.div_exact in Hmod.
  rewrite Hmod in Hrank |- *.
  split; [now apply Get_rank_floordiv_split | now apply Get_rank_mod_split].
Qed.

(** The calls that [run()] makes, in program order: whatever raises, the
    functions called are a prefix of the sequence [run_phases]: [Split]
    twice, the constructor of the opt object, the constructor of the hub
    or spoke, [make_windows], [setup_hub], [global_toc], [main],
    [send_terminate], [finalize], [Barrier] on the cylinder communicator,
    [global_toc] twice, [Barrier] on the world communicator,
    [hub_finalize], [free_windows], [Barrier] on the world communicator,
    [global_toc]; [setup_hub] and [send_terminate] are in it exactly on
    the processes whose global rank is a multiple of the number of roles.
    A run that returns has made all of them. *)
Theorem run_call_order env fullcomm s r s' :
  rank fullcomm < size fullcomm ->
  run env (Some fullcomm) s = (r, s') ->
  let hub := Nat.eqb (rank fullcomm mod S (length (list_of_spoke_dict (self s)))) 0 in
  exists calls,
    trace s' = trace s ++ calls /\
    map phase calls `prefix_of` run_phases hub /\
    (is_ok r = true -> map phase calls = run_phases hub).
Proof.
  intros Hrank Hrun hub. apply (run_follows env fullcomm s r s' hub); [|exact Hrun].
  intros strata_comm cylinder_comm Htop.
  destruct (strata_rank_is_remainder _ _ _ _ _ _ Hrank Htop) as [-> _]. reflexivity.
Qed.

(** The spoke of a world of two processes makes the sixteen calls of a
    spoke, none of them [send_terminate]. *)
Lemma run_call_order_witness :
  exists calls,
    trace (snd (run (quiet_env 2 1) (Some (mkWorld 2 1)) fresh_state)) = calls /\
    map phase calls = run_phases false.
Proof.
  destruct (run (quiet_env 2 1) (Some (mkWorld 2 1)) fresh_state) as [r s'] eqn:E.
  destruct (run_call_order (quiet_env 2 1) (mkWorld 2 1) fresh_state r s')
    as (calls & Ht & _ & Hall); [simpl; lia | exact E |].
  exists calls. split; [exact Ht|]. apply Hall.
  apply (f_equal fst) in E. vm_compute in E. now subst r.
Defined.

(** In every interleaving of the processes of a run: when a process is in
    [hub_finalize] or [free_windows], or past them, every process of the
    world has returned from [finalize]; the barrier on the world
    communicator between them sees to it. *)
Theorem free_windows_after_every_finalize n_proc envs inits pc q :
  reachable n_proc envs inits pc ->
  q < n_proc ->
  EvHubFinalize ∈ invoked n_proc envs inits pc q
  \/ EvFreeWindows ∈ invoked n_proc envs inits pc q ->
  forall p, p < n_proc ->
    EvFinalize ∈ done n_proc envs inits pc p /\
    EvBarrier FullComm ∈ invoked n_proc envs inits pc p.
Proof.
  intros Hreach Hq Hin p Hp.
  assert (EvBarrier FullComm ∈ done n_proc envs inits pc q) as Hbarrier.
  { destruct Hin as [Hin|Hin];
      (eapply invoked_precedes; [|exact Hin]);
      (apply script_precedes; [apply sole_barrier | now intros []]). }
  destruct (reachable_barrier_entered_by_all _ _ _ _ Hreach) as [_ Hall].
  assert (EvBarrier FullComm ∈ invoked n_proc envs inits pc p) as Hentered
    by (apply Hall; eauto).
  split; [|exact Hentered].
  eapply invoked_precedes; [|exact Hentered].
  apply script_precedes; [apply sole_finalize | now intros []].
Qed.

(** With a hub and a spoke of one process each: the hub is past
    [free_windows] while the spoke is still in the barrier, and the spoke
    has returned from [finalize]. *)
Lemma free_windows_after_every_finalize_witness :
  exec 2 (quiet_env 2) (fun _ => fresh_state) hub_first (initial 2) = Some [16; 11] /\
  EvFreeWindows ∈ done 2 (quiet_env 2) (fun _ => fresh_state) [16; 11] 0 /\
  EvFinalize ∈ done 2 (quiet_env 2) (fun _ => fresh_state) [16; 11] 1.
Proof.
  assert (exec 2 (quiet_env 2) (fun _ => fresh_state) hub_first (initial 2)
          = Some [16; 11]) as Hexec by (vm_compute; reflexivity).
  assert (EvFreeWindows ∈ done 2 (quiet_env 2) (fun _ => fresh_state) [16; 11] 0)
    as Hfree by (apply (list_elem_of_lookup_2 _ 15); vm_compute; reflexivity).
  split; [exact Hexec|]. split; [exact Hfree|].
  apply (free_windows_after_every_finalize 2 (quiet_env 2) (fun _ => fresh_state)
           [16; 11] 0); [now exists hub_first | lia | | lia].
  right. now apply done_invoked.
Defined.

(** The hub alone cannot leave the barrier on the world communicator. *)
Example hub_waits_in_barrier :
  exec 2 (quiet_env 2) (fun _ => fresh_state) (replicate 14 0) (initial 2) = None.
Proof. vm_compute. reflexivity. Qed.


(** After a [run()] that returned on the process of rank [global_rank] in
    a world whose size is then a multiple of the number of roles:
    [strata_rank] is [global_rank % n_spcomms], [cylinder_rank] is
    [global_rank // n_spcomms], so that the two ranks give the global rank
    back; the dictionary of the process is the one at index [strata_rank]
    of [[hub_dict] + list_of_spoke_dict]; and [on_hub()] tells whether
    [global_rank] is a multiple of the number of roles. *)
Theorem run_ok_ranks env fullcomm s s' :
  rank fullcomm < size fullcomm ->
  run env (Some fullcomm) s = (Ok tt, s') ->
  let n_spcomms := S (length (list_of_spoke_dict (self s))) in
  size fullcomm mod n_spcomms = 0 /\
  global_rank (self s') = Some (rank fullcomm) /\
  strata_rank (self s') = Some (rank fullcomm mod n_spcomms) /\
  cylinder_rank (self s') = Some (rank fullcomm / n_spcomms) /\
  rank fullcomm = (rank fullcomm / n_spcomms) * n_spcomms + rank fullcomm mod n_spcomms /\
  spcomm_dict (self s')
    = (hub_dict (self s) :: list_of_spoke_dict (self s)) !! (rank fullcomm mod n_spcomms) /\
  on_hub s' = (Ok (Nat.eqb (rank fullcomm mod n_spcomms) 0), s').
Proof.
  intros Hrank Hrun n_spcomms.
  destruct (run_ok_inv _ _ _ _ Hrun)
    as (s1 & s2 & sc & cc & d & sp_class & sp_kwargs & _ & Hmk & Hd & Hsr & Hcr & Hgr
        & Hsd & _ & Hran & _).
  simpl in Hmk, Hgr.
  assert (topology env n_spcomms fullcomm s1 = Some (sc, cc)) as Htop
    by (unfold topology, n_spcomms; now rewrite Hmk).
  destruct (topology_some_inv _ _ _ _ _ _ Htop) as (_ & _ & Hmod & _).
  destruct (strata_rank_is_remainder _ _ _ _ _ _ Hrank Htop) as [Esr Ecr].
  rewrite Esr in Hsr, Hd. rewrite Ecr in Hcr.
  split; [exact Hmod|]. split; [exact Hgr|]. split; [exact Hsr|]. split; [exact Hcr|].
  split.
  { pose proof (Nat.div_mod_eq (rank fullcomm) n_spcomms). lia. }
  split; [now rewrite Hsd, Hd|].
  unfold on_hub, bind, get. rewrite Hran. cbv beta iota delta [negb getattr ret].
  now rewrite Hsr.
Qed.

(** The spoke of a world of two processes: strata rank 1, cylinder rank 0,
    not on the hub. *)
Lemma run_ok_ranks_witness :
  exists s',
    run (quiet_env 2 1) (Some (mkWorld 2 1)) fresh_state = (Ok tt, s') /\
    strata_rank (self s') = Some 1 /\ cylinder_rank (self s') = Some 0 /\
    on_hub s' = (Ok false, s').
Proof.
  destruct (run (quiet_env 2 1) (Some (mkWorld 2 1)) fresh_state) as [r s'] eqn:E.
  assert (r = Ok tt) as -> by (apply (f_equal fst) in E; vm_compute in E; now subst r).
  destruct (run_ok_ranks (quiet_env 2 1) (mkWorld 2 1) fresh_state s')
    as (_ & _ & Hsr & Hcr & _ & _ & Hhub); [simpl; lia | exact E |].
  exists s'. split; [reflexivity|]. split; [exact Hsr|]. split; [exact Hcr | exact Hhub].
Defined.


(** *** The checks of the dictionaries *)

(** The dictionary at [d] has no key [k]. *)
Definition lacks (s : ProcState) (d : ref) (k : string) : Prop :=
  (dicts s !!! d) !! k = None.

(** What the checks of lines 55-83 leave as it is: the instance, the
    trace, and the absence of every key but the three that they add. *)
Definition keeps_missing (s s' : ProcState) : Prop :=
  self s' = self s /\ trace s' = trace s /\
  forall d k, k <> "hub_kwargs" -> k <> "spoke_kwargs" -> k <> "opt_kwargs" ->
              lacks s d k -> lacks s' d k.

#[local] Instance keeps_missing_preorder : PreOrder keeps_missing.
Proof.
  split.
  - intros s. unfold keeps_missing. auto.
  - intros s1 s2 s3 (H1 & H2 & H3) (G1 & G2 & G3). unfold keeps_missing.
    split; [congruence|]. split; [congruence|]. auto.
Qed.

Lemma keeps_missing_setitem d k v :
  k = "hub_kwargs" \/ k = "spoke_kwargs" \/ k = "opt_kwargs" ->
  frame keeps_missing (setitem d k v).
Proof.
  intros Hk s r s' [= _ <-]. split; [reflexivity|]. split; [reflexivity|].
  intros d' k' H1 H2 H3. unfold lacks. simpl.
  destruct (decide (d' = d)) as [->|Hne].
  - rewrite lookup_total_insert_eq, lookup_insert_ne; [trivial|].
    destruct Hk as [-> | [-> | ->]]; congruence.
  - now rewrite lookup_total_insert_ne.
Qed.

Lemma frame_check_hub_dict_missing d : frame keeps_missing (check_hub_dict d).
Proof.
  unfold check_hub_dict.
  repeat first [ apply frame_contains | apply keeps_missing_setitem; auto | frame_step ].
Qed.

Lemma frame_check_spoke_dict_missing d : frame keeps_missing (check_spoke_dict d).
Proof.
  unfold check_spoke_dict.
  repeat first [ apply frame_contains | apply keeps_missing_setitem; auto | frame_step ].
Qed.

Lemma lacks_contains s d k : lacks s d k -> contains d k s = (Ok false, s).
Proof.
  unfold lacks, contains. now intros ->.
Qed.

Lemma contains_eq s d k :
  contains d k s = (Ok (bool_decide (is_Some ((dicts s !!! d) !! k))), s).
Proof. reflexivity. Qed.

(** A check that does not return raises [RuntimeError]. *)
Lemma check_hub_dict_raise d s e s' :
  check_hub_dict d s = (Raise e, s') -> exists msg, e = RuntimeError msg.
Proof.
  unfold check_hub_dict, bind, when, setitem, raise, ret. rewrite !contains_eq.
  repeat (destruct (bool_decide _); simpl); intros [= <- _]; eauto.
Qed.

Lemma check_spoke_dict_raise d s e s' :
  check_spoke_dict d s = (Raise e, s') -> exists msg, e = RuntimeError msg.
Proof.
  unfold check_spoke_dict, bind, when, setitem, raise, ret. rewrite !contains_eq.
  repeat (destruct (bool_decide _); simpl); intros [= <- _]; eauto.
Qed.

(** A check that returns has found the two keys that it looks for. *)
Lemma check_hub_dict_ok d s s' :
  check_hub_dict d s = (Ok tt, s') ->
  ~ lacks s d "hub_class" /\ ~ lacks s d "opt_class".
Proof.
  intros H. split; intros Hk; revert H; unfold lacks in Hk;
    unfold check_hub_dict, bind, raise, contains.
  - now rewrite Hk.
  - destruct (bool_decide (is_Some ((dicts s !!! d) !! "hub_class"))); simpl;
      [|discriminate].
    now rewrite Hk.
Qed.

Lemma check_spoke_dict_ok d s s' :
  check_spoke_dict d s = (Ok tt, s') ->
  ~ lacks s d "spoke_class" /\ ~ lacks s d "opt_class".
Proof.
  intros H. split; intros Hk; revert H; unfold lacks in Hk;
    unfold check_spoke_dict, bind, raise, contains.
  - now rewrite Hk.
  - destruct (bool_decide (is_Some ((dicts s !!! d) !! "spoke_class"))); simpl;
      [|discriminate].
    now rewrite Hk.
Qed.

Lemma check_spoke_dicts_raise : forall (spokes : list ref) s r s',
  for_each spokes check_spoke_dict s = (r, s') ->
  (exists d, d ∈ spokes /\ (lacks s d "spoke_class" \/ lacks s d "opt_class")) ->
  exists msg, r = Raise (RuntimeError msg).
Proof.
  induction spokes as [|d0 spokes IH]; intros s r s' H (d & Hin & Hbad).
  - now apply elem_of_nil in Hin.
  - simpl in H. unfold bind in H.
    destruct (check_spoke_dict d0 s) as [[[]|e] s1] eqn:E.
    + destruct (check_spoke_dict_ok _ _ _ E) as [Hc Ho].
      destruct (frame_check_spoke_dict_missing _ _ _ _ E) as (_ & _ & Hkeep).
      apply (IH _ _ _ H). exists d. split.
      * apply elem_of_cons in Hin as [->|Hin]; [|exact Hin].
        exfalso. destruct Hbad; auto.
      * destruct Hbad as [Hbad|Hbad]; [left|right]; (apply Hkeep; [| | |exact Hbad]);
          discriminate.
    + injection H as <- _. destruct (check_spoke_dict_raise _ _ _ _ E) as [msg ->]. eauto.
Qed.

Lemma run_missing_key env comm_world s :
  _ran (self s) = false ->
  lacks s (hub_dict (self s)) "hub_class" \/
  lacks s (hub_dict (self s)) "opt_class" \/
  (exists d, d ∈ list_of_spoke_dict (self s) /\
             (lacks s d "spoke_class" \/ lacks s d "opt_class")) ->
  exists msg s',
    run env comm_world s = (Raise (RuntimeError msg), s') /\
    self s' = self s /\ trace s' = trace s.
Proof.
  intros Hran Hbad. unfold run, bind at 1, get at 1. rewrite Hran.
  unfold bind at 1.
  destruct (check_hub_dict (hub_dict (self s)) s) as [[[]|e] s1] eqn:E.
  - destruct (check_hub_dict_ok _ _ _ E) as [Hc Ho].
    destruct (frame_check_hub_dict_missing _ _ _ _ E) as (Hself & Htrace & Hkeep).
    destruct Hbad as [Hbad | [Hbad | (d & Hin & Hbad)]]; [contradiction | contradiction |].
    unfold bind at 1.
    destruct (for_each (list_of_spoke_dict (self s)) check_spoke_dict s1)
      as [r s2] eqn:E2.
    destruct (check_spoke_dicts_raise _ _ _ _ E2) as [msg ->].
    { exists d. split; [exact Hin|].
      destruct Hbad as [Hbad|Hbad]; [left|right]; (apply Hkeep; [| | |exact Hbad]);
        discriminate. }
    exists msg, s2. split; [reflexivity|].
    destruct (frame_for_each keeps_missing _ _ frame_check_spoke_dict_missing
                _ _ _ E2) as (Hself2 & Htrace2 & _).
    split; congruence.
  - destruct (check_hub_dict_raise _ _ _ _ E) as [msg ->].
    destruct (frame_check_hub_dict_missing _ _ _ _ E) as (Hself & Htrace & _).
    exists msg, s1. auto.
Qed.

(** [run()] on dictionaries that lack a key that it asks for ([hub_class]
    or [opt_class] in [hub_dict], [spoke_class] or [opt_class] in a spoke
    dictionary) raises [RuntimeError]; no call has been made then, and the
    instance is as it was: it can be run again. *)
Theorem run_rejects_incomplete_dicts env comm_world s :
  _ran (self s) = false ->
  lacks s (hub_dict (self s)) "hub_class" \/
  lacks s (hub_dict (self s)) "opt_class" \/
  (exists d, d ∈ list_of_spoke_dict (self s) /\
             (lacks s d "spoke_class" \/ lacks s d "opt_class")) ->
  exists msg s',
    run env comm_world s = (Raise (RuntimeError msg), s') /\
    self s' = self s /\ trace s' = trace s.
Proof. apply run_missing_key. Qed.

(** A spinner whose only spoke dictionary has no [spoke_class]. *)
Lemma run_rejects_incomplete_dicts_witness :
  exists msg s',
    run (quiet_env 2 0) None
      {| self := fresh_spinner;
         dicts := <[1 := delete "spoke_class" a_spoke_dict]> two_dicts;
         trace := [] |}
    = (Raise (RuntimeError msg), s') /\ _ran (self s') = false /\ trace s' = [].
Proof.
  destruct (run_rejects_incomplete_dicts (quiet_env 2 0) None
              {| self := fresh_spinner;
                 dicts := <[1 := delete "spoke_class" a_spoke_dict]> two_dicts;
                 trace := [] |})
    as (msg & s' & Hrun & Hself & Htrace); [reflexivity | |].
  { right. right. exists 1. split; [now left | left; reflexivity]. }
  exists msg, s'. split; [exact Hrun|]. split; [now rewrite Hself | exact Htrace].
Defined.


(** *** The renaming of the keys *)

Definition legacy_key (k : string) : Prop :=
  k = "hub_class" \/ k = "hub_kwargs" \/ k = "spoke_class" \/ k = "spoke_kwargs".

(** The keys that [run] renames stay away once they are gone. *)
Definition stays_converted (s s' : ProcState) : Prop :=
  forall d k, legacy_key k -> lacks s d k -> lacks s' d k.

#[local] Instance stays_converted_preorder : PreOrder stays_converted.
Proof.
  split; [now intros s d k|].
  intros s1 s2 s3 H1 H2 d k Hk Hl. now apply H2, H1.
Qed.

Lemma stays_converted_emit e s : stays_converted s (emit e s).
Proof. now intros d k. Qed.

Lemma stays_converted_set_self f s : stays_converted s (set_self f s).
Proof. now intros d k. Qed.

Lemma stays_converted_setitem d k v :
  ~ legacy_key k -> frame stays_converted (setitem d k v).
Proof.
  intros Hk s r s' [= _ <-] d' k' Hk'. unfold lacks. simpl.
  destruct (decide (d' = d)) as [->|Hne].
  - rewrite lookup_total_insert_eq, lookup_insert_ne; [trivial | congruence].
  - now rewrite lookup_total_insert_ne.
Qed.

Lemma stays_converted_pop d k : frame stays_converted (pop d k).
Proof.
  intros s r s'. unfold pop.
  destruct ((dicts s !!! d) !! k); intros [= _ <-]; [|reflexivity].
  intros d' k' Hk'. unfold lacks. simpl.
  destruct (decide (d' = d)) as [->|Hne].
  - rewrite lookup_total_insert_eq. intros Hl.
    destruct (decide (k' = k)) as [->|Hkk];
      [apply lookup_delete_eq | now rewrite lookup_delete_ne].
  - now rewrite lookup_total_insert_ne.
Qed.

Lemma not_legacy_spcomm_class : ~ legacy_key "spcomm_class".
Proof. intros [H|[H|[H|H]]]; discriminate H. Qed.

Lemma not_legacy_spcomm_kwargs : ~ legacy_key "spcomm_kwargs".
Proof. intros [H|[H|[H|H]]]; discriminate H. Qed.

Lemma not_legacy_opt_kwargs : ~ legacy_key "opt_kwargs".
Proof. intros [H|[H|[H|H]]]; discriminate H. Qed.

(** Lines 101-102, for one pair of keys. *)
Definition convert_key (d : ref) (oldk newk : string) : M ProcState unit :=
  let! b := contains d oldk in
  when b (let! v := pop d oldk in setitem d newk v).

Lemma frame_convert_key d oldk newk :
  ~ legacy_key newk -> frame stays_converted (convert_key d oldk newk).
Proof.
  intros Hk. unfold convert_key.
  repeat first [ apply frame_contains | apply stays_converted_pop
               | apply stays_converted_setitem; assumption | frame_step ].
Qed.

Lemma convert_key_gone d oldk newk s r s' :
  oldk <> newk -> convert_key d oldk newk s = (r, s') -> lacks s' d oldk.
Proof.
  intros Hne. unfold convert_key, bind, contains, when, pop, setitem, ret, lacks.
  destruct ((dicts s !!! d) !! oldk) as [v|] eqn:E; simpl.
  - rewrite E. intros [= _ <-]. simpl.
    rewrite !lookup_total_insert_eq, lookup_insert_ne by congruence.
    apply lookup_delete_eq.
  - now intros [= _ <-].
Qed.

Lemma convert_keys_eq d :
  convert_keys d =
  (do! convert_key d "hub_class" "spcomm_class" in
   do! convert_key d "hub_kwargs" "spcomm_kwargs" in
   do! convert_key d "spoke_class" "spcomm_class" in
   do! convert_key d "spoke_kwargs" "spcomm_kwargs" in
   ret tt).
Proof. reflexivity. Qed.

Lemma frame_convert_keys_converted d : frame stays_converted (convert_keys d).
Proof.
  rewrite convert_keys_eq.
  repeat first [ apply frame_convert_key; first [ apply not_legacy_spcomm_class
                                                | apply not_legacy_spcomm_kwargs ]
               | frame_step ].
Qed.

Lemma convert_keys_gone d s s' k :
  convert_keys d s = (Ok tt, s') -> legacy_key k -> lacks s' d k.
Proof.
  rewrite convert_keys_eq. intros H Hk.
  apply bind_ok in H as ([] & s1 & H1 & H).
  apply bind_ok in H as ([] & s2 & H2 & H).
  apply bind_ok in H as ([] & s3 & H3 & H).
  apply bind_ok in H as ([] & s4 & H4 & H). injection H as <-.
  pose proof (frame_convert_key d _ _ not_legacy_spcomm_kwargs _ _ _ H2) as F2.
  pose proof (frame_convert_key d _ _ not_legacy_spcomm_class _ _ _ H3) as F3.
  pose proof (frame_convert_key d _ _ not_legacy_spcomm_kwargs _ _ _ H4) as F4.
  destruct Hk as [-> | [-> | [-> | ->]]].
  - apply F4, F3, F2; [left; reflexivity ..|].
    eapply convert_key_gone; [|exact H1]. discriminate.
  - apply F4, F3; [right; left; reflexivity ..|].
    eapply convert_key_gone; [|exact H2]. discriminate.
  - apply F4; [right; right; left; reflexivity|].
    eapply convert_key_gone; [|exact H3]. discriminate.
  - eapply convert_key_gone; [|exact H4]. discriminate.
Qed.

Lemma convert_all_gone : forall (l : list ref) s s',
  for_each l convert_keys s = (Ok tt, s') ->
  forall d k, d ∈ l -> legacy_key k -> lacks s' d k.
Proof.
  induction l as [|d0 l IH]; intros s s' H d k Hin Hk.
  - now apply elem_of_nil in Hin.
  - simpl in H. apply bind_ok in H as ([] & s1 & H1 & H).
    apply elem_of_cons in Hin as [->|Hin].
    + apply (frame_for_each stays_converted _ _ frame_convert_keys_converted _ _ _ H);
        [exact Hk|].
      now apply (convert_keys_gone _ _ _ _ H1).
    + now apply (IH _ _ H).
Qed.

Lemma run_renames_keys env comm_world s s' :
  run env comm_world s = (Ok tt, s') ->
  forall d k, d ∈ hub_dict (self s) :: list_of_spoke_dict (self s) ->
              legacy_key k -> lacks s' d k.
Proof.
  intros H d k Hin Hk. unfold run in H.
  apply bind_ok in H as (s0 & sA & Hget & H). injection Hget as <- <-.
  destruct (_ran (self s)); [discriminate H|]. cbv zeta in H.
  apply bind_ok in H as ([] & s1 & Hchk & H).
  apply bind_ok in H as ([] & s2 & Hspk & H).
  apply bind_ok in H as ([] & s3 & Hconv & H).
  assert (stays_converted s3 s') as Hkeep.
  { revert H.
    match goal with |- ?c s3 = _ -> _ => assert (frame stays_converted c) as F end;
      [|apply F].
    repeat first
      [ apply (frame__make_comms stays_converted stays_converted_emit)
      | apply (frame_main_and_shutdown stays_converted stays_converted_emit)
      | apply (frame_call stays_converted stays_converted_emit)
      | apply frame_getitem
      | apply stays_converted_setitem; apply not_legacy_opt_kwargs
      | apply frame_modify; apply stays_converted_set_self
      | frame_step ]. }
  apply Hkeep; [exact Hk|]. now apply (convert_all_gone _ _ _ Hconv).
Qed.

(** A [run()] that returns has renamed the keys of the dictionaries that
    the caller passed in: they hold none of [hub_class], [hub_kwargs],
    [spoke_class], [spoke_kwargs] any more.  A second [WheelSpinner] over
    the same dictionaries is therefore refused: its [run()] raises
    [RuntimeError] without a call made. *)
Theorem run_consumes_the_dictionaries env comm_world s s' :
  run env comm_world s = (Ok tt, s') ->
  (forall d k, d ∈ hub_dict (self s) :: list_of_spoke_dict (self s) ->
               legacy_key k -> lacks s' d k) /\
  forall env2 comm_world2 s2,
    dicts s2 = dicts s' ->
    hub_dict (self s2) = hub_dict (self s) ->
    _ran (self s2) = false ->
    exists msg s2',
      run env2 comm_world2 s2 = (Raise (RuntimeError msg), s2') /\
      trace s2' = trace s2.
Proof.
  intros H. pose proof (run_renames_keys _ _ _ _ H) as Hgone.
  split; [exact Hgone|].
  intros env2 comm_world2 s2 Hd Hh Hran.
  destruct (run_missing_key env2 comm_world2 s2 Hran) as (msg & s2' & Hrun & _ & Ht).
  { left. unfold lacks. rewrite Hd, Hh.
    apply (Hgone (hub_dict (self s)) "hub_class"); [now left | now left]. }
  eauto.
Qed.

(** The hub of a world of two processes runs; a fresh spinner over the
    dictionaries as the run left them is refused. *)
Lemma run_consumes_the_dictionaries_witness :
  exists s' msg s2',
    run (quiet_env 2 0) None fresh_state = (Ok tt, s') /\
    run (quiet_env 2 0) None
      {| self := fresh_spinner; dicts := dicts s'; trace := [] |}
    = (Raise (RuntimeError msg), s2').
Proof.
  destruct (run (quiet_env 2 0) None fresh_state) as [r s'] eqn:E.
  assert (r = Ok tt) as -> by (apply (f_equal fst) in E; vm_compute in E; now subst r).
  destruct (run_consumes_the_dictionaries (quiet_env 2 0) None fresh_state s' E)
    as [_ Hagain].
  destruct (Hagain (quiet_env 2 0) None
              {| self := fresh_spinner; dicts := dicts s'; trace := [] |}
              eq_refl eq_refl eq_refl) as (msg & s2' & Hrun & _).
  exists s', msg, s2'. split; [reflexivity | exact Hrun].
Defined.


(** *** [local_nonant_cache] *)

Definition named (ndn : string) (node : Node) : bool :=
  String.eqb (node_name node) ndn.

Lemma collect_scenarios_nodes : forall scenarios local_xhats,
  collect_scenarios scenarios local_xhats
  = collect_nodes (concat (map snd scenarios)) local_xhats.
Proof.
  assert (forall nodes1 nodes2 acc,
            collect_nodes (nodes1 ++ nodes2) acc
            = match collect_nodes nodes1 acc with
              | Raise e => Raise e
              | Ok acc => collect_nodes nodes2 acc
              end) as Happ.
  { induction nodes1 as [|node nodes1 IH]; intros nodes2 acc; simpl; [reflexivity|].
    destruct (acc !! node_name node); [apply IH|].
    destruct (values (nonant_vardata_list node)); [apply IH | reflexivity]. }
  induction scenarios as [|[k s] scenarios IH]; intros acc; simpl; [reflexivity|].
  rewrite Happ. destruct (collect_nodes s acc); [apply IH | reflexivity].
Qed.

Lemma collect_nodes_first : forall nodes acc m,
  collect_nodes nodes acc = Ok m ->
  forall ndn,
    match acc !! ndn with
    | Some xs => m !! ndn = Some xs
    | None =>
        match List.find (named ndn) nodes with
        | Some node =>
            exists xs, values (nonant_vardata_list node) = Ok xs /\ m !! ndn = Some xs
        | None => m !! ndn = None
        end
    end.
Proof.
  induction nodes as [|node nodes IH]; intros acc m H ndn; simpl in H |- *.
  - injection H as <-. now destruct (acc !! ndn).
  - unfold named at 1.
    destruct (acc !! node_name node) as [ys|] eqn:Eacc.
    + specialize (IH _ _ H ndn).
      destruct (acc !! ndn) as [xs|] eqn:En; [exact IH|].
      destruct (String.eqb_spec (node_name node) ndn) as [Heq|_]; [congruence | exact IH].
    + destruct (values (nonant_vardata_list node)) as [xs|e] eqn:Ev; [|discriminate H].
      specialize (IH _ _ H ndn).
      destruct (String.eqb_spec (node_name node) ndn) as [Heq|Hne].
      * subst ndn. rewrite Eacc. rewrite lookup_insert_eq in IH. eauto.
      * rewrite lookup_insert_ne in IH by exact Hne. exact IH.
Qed.

Definition has_value (var : option float) : bool :=
  match var with
  | Some _ => true
  | None => false
  end.

(** Every variable of [node] has a value. *)
Definition has_values (node : Node) : bool :=
  forallb has_value (nonant_vardata_list node).

(** Every node that is the first of its name in [nodes] has values. *)
Definition first_nodes_have_values (nodes : list Node) : Prop :=
  forall ndn node, List.find (named ndn) nodes = Some node -> has_values node = true.

Lemma values_inv : forall vars xs,
  values vars = Ok xs -> vars = map Some xs /\ forallb has_value vars = true.
Proof.
  induction vars as [|[x|] vars IH]; intros xs H; simpl in H.
  - injection H as <-. now split.
  - destruct (values vars) as [ys|e]; [|discriminate H].
    injection H as <-. destruct (IH ys eq_refl) as [-> Hall].
    split; [reflexivity | exact Hall].
  - discriminate H.
Qed.

Lemma values_total : forall vars,
  forallb has_value vars = true -> exists xs, values vars = Ok xs.
Proof.
  induction vars as [|[x|] vars IH]; simpl; intros H; [eauto | | discriminate H].
  destruct (IH H) as [xs ->]. eauto.
Qed.

Lemma values_raise : forall vars e, values vars = Raise e -> e = ValueError.
Proof.
  induction vars as [|[x|] vars IH]; intros e H; simpl in H.
  - discriminate H.
  - destruct (values vars) as [ys|e']; [discriminate H|].
    injection H as <-. now apply IH.
  - now injection H as <-.
Qed.

Lemma collect_nodes_total : forall nodes acc,
  (forall ndn node, acc !! ndn = None -> List.find (named ndn) nodes = Some node ->
                    has_values node = true) ->
  exists m, collect_nodes nodes acc = Ok m.
Proof.
  induction nodes as [|node nodes IH]; intros acc Hall; simpl; [eauto|].
  destruct (acc !! node_name node) as [ys|] eqn:Eacc.
  - apply IH. intros ndn node' Hn Hf. apply (Hall ndn node' Hn).
    simpl. unfold named at 1.
    destruct (String.eqb_spec (node_name node) ndn) as [Heq|_]; [congruence | exact Hf].
  - destruct (values_total (nonant_vardata_list node)) as [xs ->].
    { apply (Hall (node_name node) node Eacc). simpl. unfold named at 1.
      now rewrite String.eqb_refl. }
    apply IH. intros ndn node' Hn Hf.
    destruct (String.eqb_spec (node_name node) ndn) as [Heq|Hne].
    + subst ndn. now rewrite lookup_insert_eq in Hn.
    + rewrite lookup_insert_ne in Hn by exact Hne. apply (Hall ndn node' Hn).
      simpl. unfold named at 1.
      destruct (String.eqb_spec (node_name node) ndn) as [Heq|_]; [congruence | exact Hf].
Qed.

Lemma collect_nodes_raise : forall nodes acc e,
  collect_nodes nodes acc = Raise e -> e = ValueError.
Proof.
  induction nodes as [|node nodes IH]; intros acc e H; simpl in H; [discriminate H|].
  destruct (acc !! node_name node); [now apply (IH _ _ H)|].
  destruct (values (nonant_vardata_list node)) as [xs|e'] eqn:Ev; [now apply (IH _ _ H)|].
  injection H as <-. now apply (values_raise _ _ Ev).
Qed.

(** [local_nonant_cache()] after a [run()] that returned changes nothing.
    It returns exactly when every variable of the first node of each name
    (in the order of the local scenarios and of their node lists) has a
    value; the dictionary then gives, for every node name, the values of
    the variables of the first node of that name, and has no entry for a
    name that no node has.  Otherwise it raises the [ValueError] of
    [value(var)].  Nodes after the first of a name are not looked at:
    variables without a value there change neither the outcome nor the
    dictionary. *)
Theorem local_nonant_cache_first_node s spcomm :
  _ran (self s) = true ->
  SpinTheWheel.spcomm (self s) = Some spcomm ->
  let nodes := concat (map snd (opt_local_scenarios spcomm)) in
  snd (local_nonant_cache s) = s /\
  ((exists local_xhats, fst (local_nonant_cache s) = Ok local_xhats)
   <-> first_nodes_have_values nodes) /\
  (forall local_xhats,
     fst (local_nonant_cache s) = Ok local_xhats ->
     forall ndn,
       match List.find (named ndn) nodes with
       | Some node =>
           exists xs, nonant_vardata_list node = map Some xs /\
                      local_xhats !! ndn = Some xs
       | None => local_xhats !! ndn = None
       end) /\
  (forall e, fst (local_nonant_cache s) = Raise e -> e = ValueError).
Proof.
  intros Hran Hsp nodes.
  assert (local_nonant_cache s = (collect_nodes nodes ∅, s)) as ->.
  { unfold local_nonant_cache, bind, get, getattr, lift, raise.
    rewrite Hran. simpl. rewrite Hsp. simpl. now rewrite collect_scenarios_nodes. }
  simpl. split; [reflexivity|].
  assert (forall m, collect_nodes nodes ∅ = Ok m ->
            forall ndn,
              match List.find (named ndn) nodes with
              | Some node =>
                  exists xs, nonant_vardata_list node = map Some xs /\ m !! ndn = Some xs
              | None => m !! ndn = None
              end) as Hfirst.
  { intros m E ndn. pose proof (collect_nodes_first _ _ _ E ndn) as H.
    rewrite lookup_empty in H.
    destruct (List.find (named ndn) nodes) as [node|]; [|exact H].
    destruct H as (xs & Hv & Hx). exists xs.
    split; [apply (values_inv _ _ Hv) | exact Hx]. }
  split; [split|split].
  - intros [m E] ndn node Hf. specialize (Hfirst m E ndn). rewrite Hf in Hfirst.
    destruct Hfirst as (xs & Hv & _). unfold has_values. rewrite Hv.
    clear. induction xs as [|x xs IH]; [reflexivity | exact IH].
  - intros Hall. apply collect_nodes_total. intros ndn node _. apply Hall.
  - exact Hfirst.
  - intros e E. now apply (collect_nodes_raise _ _ _ E).
Qed.


(** Two scenarios with a [ROOT] node each: the values are those of the
    first, and the variable without a value of the second is not read. *)
Lemma local_nonant_cache_first_node_witness :
  exists local_xhats,
    local_nonant_cache (finished_state a_hub_without_incumbent)
    = (Ok local_xhats, finished_state a_hub_without_incumbent) /\
    local_xhats !! "ROOT" = Some [1%float; 2%float].
Proof.
  destruct (local_nonant_cache_first_node
              (finished_state a_hub_without_incumbent) a_hub_without_incumbent
              eq_refl eq_refl) as (Hst & [_ Hret] & Hmap & _).
  destruct Hret as [m Hm].
  { intros ndn node Hf.
    assert (forall vars, named ndn (mkNode "ROOT" vars) = String.eqb "ROOT" ndn)
      as Hnamed by reflexivity.
    cbn [concat map snd opt_local_scenarios a_hub_without_incumbent app List.find] in Hf.
    rewrite !Hnamed in Hf.
    destruct (String.eqb "ROOT" ndn); [now injection Hf as <- | discriminate Hf]. }
  destruct (Hmap m Hm "ROOT") as (xs & Hv & Hx).
  exists m. split.
  - destruct (local_nonant_cache (finished_state a_hub_without_incumbent)) as [r s'].
    simpl in Hm, Hst. now subst r s'.
  - rewrite Hx. f_equal. simpl in Hv.
    destruct xs as [|x [|y [|z xs]]]; try discriminate Hv. now injection Hv as <- <-.
Defined.


(** *** Who writes the solution *)

Definition is_write (e : Event) : Prop :=
  match e with
  | EvWriteFirstStageSolution _ | EvWriteTreeSolution _ => True
  | _ => False
  end.

(** The value that [fullcomm.bcast(best_strata_rank, root=0)] returns on
    the process of [spcomm]: what rank 0 computed, lines 220-227. *)
Definition best_strata_rank (env : Env) (spcomm : SPComm) : option Z :=
  if Nat.eqb (sp_global_rank spcomm) 0 then
    match last_ib_idx spcomm with
    | None => Some (-1)%Z
    | Some idx => Some (Z.of_nat idx)
    end
  else bcast_from_root env.

Lemma _determine_innerbound_winner_spec env s spcomm r s' :
  SpinTheWheel.spcomm (self s) = Some spcomm ->
  _determine_innerbound_winner env s = (r, s') ->
  self s' = self s /\
  (exists calls, trace s' = trace s ++ calls /\ Forall (fun e => ~ is_write e) calls) /\
  forall winner, r = Ok winner ->
    winner = bool_decide (Some (Z.of_nat (sp_strata_rank spcomm))
                          = best_strata_rank env spcomm).
Proof.
  intros Hsp. unfold _determine_innerbound_winner, best_strata_rank, bind, getattr.
  rewrite Hsp. unfold call, ret.
  destruct (Nat.eqb (sp_global_rank spcomm) 0); [destruct (last_ib_idx spcomm)|];
    repeat (match goal with
            | |- context [raises env ?n ?e] => destruct (raises env n e)
            end; simpl);
    intros [= <- <-]; simpl;
    (split; [reflexivity|]);
    (split; [eexists; split; [try rewrite <- app_assoc; reflexivity
                             | repeat constructor; simpl; tauto]
            |intros winner Hw; try discriminate Hw; now injection Hw as <-]).
Qed.

(** What a writing method may do, [e] being its call to the writer of
    the [opt] object: it leaves the instance as it is; it calls no other
    writer, and this one only on a process whose strata rank is the
    broadcast one; if it returns on such a process, it has called it. *)
Definition written_by_winner (env : Env) (spcomm : SPComm) (s : ProcState)
    (e : Event) (out : result unit * ProcState) : Prop :=
  self (snd out) = self s /\
  exists calls,
    trace (snd out) = trace s ++ calls /\
    (forall e', e' ∈ calls -> is_write e' ->
       e' = e /\
       Some (Z.of_nat (sp_strata_rank spcomm)) = best_strata_rank env spcomm) /\
    (is_ok (fst out) = true ->
     Some (Z.of_nat (sp_strata_rank spcomm)) = best_strata_rank env spcomm ->
     e ∈ calls) /\
    (best_strata_rank env spcomm = Some (-1)%Z -> Forall (fun e' => ~ is_write e') calls).

Lemma winner_then_write env spcomm s e :
  SpinTheWheel.spcomm (self s) = Some spcomm ->
  is_write e ->
  written_by_winner env spcomm s e
    ((let! winner := _determine_innerbound_winner env in when winner (call env e)) s).
Proof.
  intros Hsp He. unfold bind.
  destruct (_determine_innerbound_winner env s) as [[winner|x] s1] eqn:E;
    destruct (_determine_innerbound_winner_spec _ _ _ _ _ Hsp E)
      as (Hself & (calls & Ht & Hcalls) & Hw).
  - specialize (Hw winner eq_refl). rewrite Forall_forall in Hcalls.
    destruct winner; simpl.
    + symmetry in Hw. apply bool_decide_eq_true_1 in Hw.
      unfold call. set (out := match raises env _ e with Some x => _ | None => _ end).
      assert (snd out = emit e s1) as Hout by (unfold out; now destruct (raises env _ e)).
      split; [now rewrite Hout|]. exists (calls ++ [e]).
      rewrite Hout. simpl. rewrite Ht, <- app_assoc.
      split; [reflexivity|]. split; [|split].
      * intros e' Hin Hwr. split; [|exact Hw].
        apply elem_of_app in Hin as [Hin|Hin];
          [now apply Hcalls in Hin | now apply list_elem_of_singleton in Hin].
      * intros _ _. apply elem_of_app. right. now left.
      * intros Hnone. rewrite Hnone in Hw. injection Hw as Hw. lia.
    + symmetry in Hw. apply bool_decide_eq_false_1 in Hw.
      split; [exact Hself|]. exists calls. split; [exact Ht|]. split; [|split].
      * intros e' Hin Hwr. now apply Hcalls in Hin.
      * intros _ Hbest. contradiction.
      * intros _. now apply Forall_forall.
  - simpl. split; [exact Hself|]. exists calls. split; [exact Ht|].
    rewrite Forall_forall in Hcalls. split; [|split].
    + intros e' Hin Hwr. now apply Hcalls in Hin.
    + discriminate.
    + intros _. now apply Forall_forall.
Qed.

(** After [run()], [write_first_stage_solution] and [write_tree_solution]
    call the writer of the [opt] object only on the processes whose
    strata rank is the one that rank 0 broadcasts, the index of the spoke
    with the last incumbent.  Without an incumbent, rank 0 broadcasts -1
    and no process writes anything. *)
Theorem solution_written_by_winner env s spcomm name :
  _ran (self s) = true ->
  SpinTheWheel.spcomm (self s) = Some spcomm ->
  written_by_winner env spcomm s (EvWriteFirstStageSolution name)
    (write_first_stage_solution env name s) /\
  written_by_winner env spcomm s (EvWriteTreeSolution name)
    (write_tree_solution env name s).
Proof.
  intros Hran Hsp.
  unfold write_first_stage_solution, write_tree_solution, bind at 1 3, get.
  rewrite Hran. simpl negb. cbv iota.
  split; now apply winner_then_write.
Qed.

(** The hub without an incumbent: [write_first_stage_solution] reports
    that there is none, takes part in the broadcast, and returns. *)
Lemma solution_written_by_winner_witness :
  exists calls,
    trace (snd (write_first_stage_solution (quiet_env 2 0) "sol.csv"
                  (finished_state a_hub_without_incumbent))) = calls /\
    calls = [EvGlobalToc "No incumbent solution available to write!" true;
             EvBcast (Some (-1)%Z)] /\
    Forall (fun e => ~ is_write e) calls.
Proof.
  destruct (solution_written_by_winner (quiet_env 2 0)
              (finished_state a_hub_without_incumbent) a_hub_without_incumbent
              "sol.csv" eq_refl eq_refl) as [(_ & calls & Ht & _ & _ & Hnone) _].
  exists calls. split; [exact Ht|]. split; [|apply Hnone; reflexivity].
  simpl in Ht. symmetry. exact Ht.
Defined.


(** A process whose [run()] never gets to the barrier on the world
    communicator (it raised before) keeps every process from leaving that
    barrier: in no interleaving does any process call [hub_finalize] or
    [free_windows]. *)
Theorem failed_rank_blocks_shutdown n_proc envs inits pc p q :
  reachable n_proc envs inits pc ->
  p < n_proc -> q < n_proc ->
  EvBarrier FullComm ∉ script n_proc envs inits p ->
  (EvBarrier FullComm ∉ done n_proc envs inits pc q) /\
  (EvHubFinalize ∉ invoked n_proc envs inits pc q) /\
  (EvFreeWindows ∉ invoked n_proc envs inits pc q).
Proof.
  intros Hreach Hp Hq Hnever.
  destruct (reachable_barrier_entered_by_all _ _ _ _ Hreach) as [_ Hall].
  assert (EvBarrier FullComm ∉ done n_proc envs inits pc q) as Hnot.
  { intros Hin. apply Hnever.
    assert (EvBarrier FullComm ∈ invoked n_proc envs inits pc p) as Hent
      by (apply Hall; eauto).
    unfold Execution.invoked in Hent. apply elem_of_take in Hent as (i & Hi & _).
    eapply list_elem_of_lookup_2, Hi. }
  split; [exact Hnot|].
  split; intros Hin; apply Hnot;
    (eapply invoked_precedes; [|exact Hin]);
    (apply script_precedes; [apply sole_barrier | now intros []]).
Qed.

(** The [main()] of the spoke raises: the hub stays in the barrier and
    never calls [free_windows]. *)
Lemma failed_rank_blocks_shutdown_witness :
  exec 2 (spoke_main_raises 2) (fun _ => fresh_state)
    (replicate 13 0 ++ replicate 7 1) (initial 2) = Some [13; 7] /\
  exec 2 (spoke_main_raises 2) (fun _ => fresh_state)
    (replicate 13 0 ++ replicate 7 1 ++ [0]) (initial 2) = None /\
  EvFreeWindows ∉ invoked 2 (spoke_main_raises 2) (fun _ => fresh_state) [13; 7] 0.
Proof.
  assert (exec 2 (spoke_main_raises 2) (fun _ => fresh_state)
            (replicate 13 0 ++ replicate 7 1) (initial 2) = Some [13; 7]) as Hexec
    by (vm_compute; reflexivity).
  split; [exact Hexec|]. split; [vm_compute; reflexivity|].
  apply (failed_rank_blocks_shutdown 2 (spoke_main_raises 2) (fun _ => fresh_state)
           [13; 7] 1 0); [exists (replicate 13 0 ++ replicate 7 1); exact Hexec | lia | lia |].
  intros Hin. apply list_elem_of_In in Hin. vm_compute in Hin.
  repeat destruct Hin as [Hin|Hin]; try discriminate Hin. exact Hin.
Defined.

End WheelSpinnerFacts.


(** ** spopt.py *)
Module SpoptFacts.
Import Spopt SpoptInputs.

(** *** [set_instance_retry] *)

(** What a failed attempt that is followed by a retry leaves in the trace:
    the call, the complaint, and the announced sleep. *)
Definition retry_block (env : Env) (sname : string) (num_retry_attempts : nat)
  : list Event :=
  [ EvSetInstance sname;
    EvPrint (if Nat.eqb num_retry_attempts 0 then MsgFailedFirst sname
             else MsgFailedAfter sname num_retry_attempts);
    EvPrint (MsgSleeping (random_random env num_retry_attempts));
    EvSleep (random_random env num_retry_attempts) ].

Definition retry_blocks (env : Env) (sname : string) (first count : nat)
  : list Event :=
  concat (map (retry_block env sname) (seq first count)).

(** Whether the attempt made after [i] retries raises, for a loop entered
    in state [st] after [n] retries. *)
Definition attempt_raises (env : Env) (sname : string) (st : SPOpt) (n i : nat)
  : bool :=
  bool_decide (raises env (length (trace st) + 4 * (i - n)) (EvSetInstance sname)
               <> None).

Definition exhausted_msg (sname : string) : string :=
  "Failed to acquire solver license - call to set_instance() for scenario="
  +:+ sname +:+ " failed after " +:+ pretty 5 +:+ " retry attempts".

Lemma retry_blocks_cons env sname n count :
  retry_blocks env sname n (S count) =
  retry_block env sname n ++ retry_blocks env sname (S n) count.
Proof. reflexivity. Qed.

Lemma set_instance_loop_spec env sname : forall fuel n st,
  n <= 5 -> 6 - n <= fuel ->
  exists k r st',
    set_instance_loop env fuel sname n st = Some (r, st') /\
    n <= k <= 5 /\
    (forall i, n <= i < k -> attempt_raises env sname st n i = true) /\
    ((attempt_raises env sname st n k = false /\ r = Ok tt /\
      trace st' = trace st ++ retry_blocks env sname n (k - n)
                  ++ EvSetInstance sname
                     :: (if Nat.ltb 0 k then [EvPrint (MsgAcquired sname k)] else []))
     \/
     (attempt_raises env sname st n k = true /\ k = 5 /\
      r = Raise (RuntimeError (exhausted_msg sname)) /\
      trace st' = trace st ++ retry_blocks env sname n (k - n)
                  ++ [EvSetInstance sname; EvPrint (MsgFailedAfter sname 5)])).
Proof.
  induction fuel as [|fuel IH]; intros n st Hn Hfuel; [lia|].
  simpl. unfold call.
  destruct (raises env (length (trace st)) (EvSetInstance sname)) as [x|] eqn:E.
  - (* the attempt raises *)
    destruct (Nat.eqb_spec n MAX_ACQUIRE_LICENSE_RETRY_ATTEMPTS) as [->|Hne].
    + (* no retry left *)
      exists 5, (Raise (RuntimeError (exhausted_msg sname))), 
        (emit (EvPrint (MsgFailedAfter sname 5)) (emit (EvSetInstance sname) st)).
      split; [reflexivity|]. split; [unfold MAX_ACQUIRE_LICENSE_RETRY_ATTEMPTS; lia|].
      split; [intros i Hi; unfold MAX_ACQUIRE_LICENSE_RETRY_ATTEMPTS in Hi; lia|].
      right. unfold attempt_raises. rewrite Nat.sub_diag, Nat.mul_0_r, Nat.add_0_r, E.
      split; [now apply bool_decide_eq_true|]. split; [reflexivity|].
      split; [reflexivity|]. simpl. now rewrite <- app_assoc.
    + unfold MAX_ACQUIRE_LICENSE_RETRY_ATTEMPTS in Hne.
      set (st1 := emit (EvSleep (random_random env n))
                    (emit (EvPrint (MsgSleeping (random_random env n)))
                       (emit (EvPrint (if Nat.eqb n 0 then MsgFailedFirst sname
                                       else MsgFailedAfter sname n))
                          (emit (EvSetInstance sname) st)))).
      assert (trace st1 = trace st ++ retry_block env sname n) as Ht1
        by (simpl; now rewrite <- !app_assoc).
      destruct (IH (n + 1) st1) as (k & r & st' & Hloop & Hk & Hfail & Hend);
        [lia | lia |].
      exists k, r, st'. split.
      { rewrite <- Hloop. unfold st1. destruct (Nat.eqb n 0); reflexivity. }
      split; [lia|].
      assert (forall i, n + 1 <= i ->
                attempt_raises env sname st1 (n + 1) i = attempt_raises env sname st n i)
        as Hshift.
      { intros i Hi. unfold attempt_raises. rewrite Ht1, length_app.
        change (length (retry_block env sname n)) with 4.
        replace (length (trace st) + 4 + 4 * (i - (n + 1)))
          with (length (trace st) + 4 * (i - n)) by lia. reflexivity. }
      split.
      { intros i Hi. destruct (decide (i = n)) as [->|Hin].
        - unfold attempt_raises. rewrite Nat.sub_diag, Nat.mul_0_r, Nat.add_0_r, E.
          now apply bool_decide_eq_true.
        - rewrite <- Hshift by lia. apply Hfail. lia. }
      replace (k - n) with (S (k - (n + 1))) by lia.
      rewrite retry_blocks_cons, <- (Nat.add_1_r n).
      rewrite Hshift in Hend by lia. rewrite Ht1 in Hend.
      rewrite <- !app_assoc in Hend. rewrite <- !app_assoc. exact Hend.
  - (* the attempt returns *)
    exists n, (Ok tt),
      (if Nat.ltb 0 n then emit (EvPrint (MsgAcquired sname n)) (emit (EvSetInstance sname) st)
       else emit (EvSetInstance sname) st).
    split; [unfold when, print, modify, ret; now destruct (Nat.ltb 0 n)|].
    split; [lia|]. split; [intros i Hi; lia|].
    left. unfold attempt_raises. rewrite Nat.sub_diag, Nat.mul_0_r, Nat.add_0_r, E.
    split; [now apply bool_decide_eq_false; intros H; apply H|].
    split; [reflexivity|].
    destruct (Nat.ltb 0 n); simpl; now rewrite <- ?app_assoc.
Qed.

Definition is_attempt (e : Event) : bool :=
  match e with EvSetInstance _ => true | _ => false end.

(** A sleep of less than a second (and not of negative length). *)
Definition short_sleep (e : Event) : Prop :=
  match e with
  | EvSleep seconds =>
      PrimFloat.leb 0 seconds = true /\ PrimFloat.ltb seconds 1 = true
  | _ => True
  end.

Lemma attempts_of_retry_blocks env sname count : forall first,
  length (filter (fun e => is_attempt e = true) (retry_blocks env sname first count)) = count.
Proof.
  induction count as [|count IH]; intros first; [reflexivity|].
  rewrite retry_blocks_cons, filter_app, length_app, IH.
  unfold retry_block. rewrite !filter_cons. simpl.
  destruct (Nat.eqb first 0); reflexivity.
Qed.

Lemma short_sleeps_of_retry_blocks env sname count : forall first,
  (forall n, PrimFloat.leb 0 (random_random env n) = true /\
             PrimFloat.ltb (random_random env n) 1 = true) ->
  Forall short_sleep (retry_blocks env sname first count).
Proof.
  induction count as [|count IH]; intros first Hrnd; [constructor|].
  rewrite retry_blocks_cons. apply Forall_app. split; [|now apply IH].
  unfold retry_block. repeat constructor; simpl; apply Hrnd.
Qed.

Lemma retry_blocks_lookup env sname count : forall first i j,
  i < count -> j < 4 ->
  retry_blocks env sname first count !! (4 * i + j) =
  retry_block env sname (first + i) !! j.
Proof.
  induction count as [|count IH]; intros first i j Hi Hj; [lia|].
  rewrite retry_blocks_cons. destruct i as [|i].
  - rewrite lookup_app_l by (simpl; lia). now rewrite Nat.add_0_r.
  - rewrite lookup_app_r by (simpl; lia).
    replace (4 * S i + j - length (retry_block env sname first)) with (4 * i + j)
      by (simpl; lia).
    rewrite IH by lia. f_equal. f_equal. lia.
Qed.

Lemma retry_blocks_length env sname count : forall first,
  length (retry_blocks env sname first count) = 4 * count.
Proof.
  induction count as [|count IH]; intros first; [reflexivity|].
  rewrite retry_blocks_cons, length_app, IH. simpl. lia.
Qed.

(** C4: [set_instance_retry] leaves its loop within six iterations.  If the
    first [retries <= 5] attempts raise and the next one returns, it
    returns normally right after that attempt; if all six attempts raise,
    it raises [RuntimeError] after the sixth.  It calls [set_instance]
    [retries + 1 <= 6] times; every retry comes right after a sleep whose
    length is a draw of [random.random()], so less than a second. *)
Theorem C4_set_instance_retry_bounded env subproblem_name st fuel :
  6 <= fuel ->
  (forall n, PrimFloat.leb 0 (random_random env n) = true /\
             PrimFloat.ltb (random_random env n) 1 = true) ->
  exists retries r st' events,
    set_instance_retry env fuel subproblem_name st = Some (r, st') /\
    trace st' = trace st ++ events /\
    retries <= 5 /\
    (forall i, i < retries ->
       attempt_raises env subproblem_name st 0 i = true) /\
    ((attempt_raises env subproblem_name st 0 retries = false /\
      r = Ok tt /\
      events = retry_blocks env subproblem_name 0 retries
               ++ EvSetInstance subproblem_name
                  :: (if Nat.ltb 0 retries
                      then [EvPrint (MsgAcquired subproblem_name retries)]
                      else []))
     \/
     (attempt_raises env subproblem_name st 0 retries = true /\
      retries = MAX_ACQUIRE_LICENSE_RETRY_ATTEMPTS /\
      r = Raise (RuntimeError (exhausted_msg subproblem_name)) /\
      events = retry_blocks env subproblem_name 0 retries
               ++ [EvSetInstance subproblem_name;
                   EvPrint (MsgFailedAfter subproblem_name 5)])) /\
    length (filter (fun e => is_attempt e = true) events) = retries + 1 /\
    (forall i, i < retries ->
       events !! (4 * i + 3) = Some (EvSleep (random_random env i)) /\
       events !! (4 * i + 4) = Some (EvSetInstance subproblem_name)) /\
    Forall short_sleep events.
Proof.
  intros Hfuel Hrnd. unfold set_instance_retry.
  destruct (set_instance_loop_spec env subproblem_name fuel 0 st)
    as (k & r & st' & Hloop & Hk & Hfail & Hend); [lia | lia |].
  rewrite Nat.sub_0_r in Hend.
  assert (exists final,
            (trace st' = trace st ++ retry_blocks env subproblem_name 0 k ++ final) /\
            final !! 0 = Some (EvSetInstance subproblem_name) /\
            length (filter (fun e => is_attempt e = true) final) = 1 /\
            Forall short_sleep final) as (final & Htr & Hfirst & Hone & Hshort).
  { destruct Hend as [(_ & _ & Htr) | (_ & _ & _ & Htr)]; eexists; (split; [exact Htr|]).
    - split; [reflexivity|]. destruct (Nat.ltb 0 k); repeat constructor.
    - split; [reflexivity|]. repeat constructor. }
  exists k, r, st', (retry_blocks env subproblem_name 0 k ++ final).
  split; [exact Hloop|]. split; [exact Htr|]. split; [lia|].
  split; [intros i Hi; apply Hfail; lia|].
  split.
  { destruct Hend as [(Hok & -> & Htr') | (Hko & -> & -> & Htr')].
    - left. split; [exact Hok|]. split; [reflexivity|].
      rewrite Htr in Htr'. now apply app_inv_head in Htr'.
    - right. split; [exact Hko|]. split; [reflexivity|]. split; [reflexivity|].
      rewrite Htr in Htr'. now apply app_inv_head in Htr'. }
  split.
  { rewrite filter_app, length_app, attempts_of_retry_blocks, Hone. reflexivity. }
  split.
  { intros i Hi. split.
    - rewrite lookup_app_l by (rewrite retry_blocks_length; lia).
      now rewrite retry_blocks_lookup by lia.
    - destruct (decide (S i < k)) as [Hlt|Hge].
      + rewrite lookup_app_l by (rewrite retry_blocks_length; lia).
        replace (4 * i + 4) with (4 * S i + 0) by lia.
        now rewrite retry_blocks_lookup by lia.
      + rewrite lookup_app_r by (rewrite retry_blocks_length; lia).
        rewrite retry_blocks_length.
        replace (4 * i + 4 - 4 * k) with 0 by lia. exact Hfirst. }
  apply Forall_app. split; [now apply short_sleeps_of_retry_blocks | exact Hshort].
Qed.

(** With a licence server that refuses the first two calls, the third call
    succeeds after two retries. *)
Lemma C4_witness :
  exists st',
    set_instance_retry busy_license_env 6 "scen0" (an_spopt [] []) = Some (Ok tt, st').
Proof.
  destruct (C4_set_instance_retry_bounded busy_license_env "scen0" (an_spopt [] []) 6)
    as (retries & r & st' & events & Hrun & _); [lia | intros n; split; reflexivity |].
  exists st'. rewrite Hrun. vm_compute in Hrun. injection Hrun as <- _. reflexivity.
Defined.

(** *** [feas_prob], [infeas_prob] and [_update_E1] *)

Definition is_feasible (st : SPOpt) (ks : string * model_ref) : Prop :=
  scenario_feasible (_mpisppy_data (models st !!! ks.2)) = true.

#[local] Instance is_feasible_dec st ks : Decision (is_feasible st ks).
Proof. unfold is_feasible. apply _. Defined.

(** The local scenarios whose flag is set, and the others. *)
Definition feasible_scenarios (st : SPOpt) : list (string * model_ref) :=
  filter (is_feasible st) (local_scenarios st).

Definition infeasible_scenarios (st : SPOpt) : list (string * model_ref) :=
  filter (fun ks => ~ is_feasible st ks) (local_scenarios st).

(** The probabilities of [scenarios], added up from zero in order. *)
Definition sum_probabilities (st : SPOpt) (scenarios : list (string * model_ref))
  : float :=
  fold_left
    (fun acc '(k, s) => PrimFloat.add acc (_mpisppy_probability (models st !!! s)))
    scenarios 0%float.

Definition all_feasible (mpicomm : list SPOpt) : Prop :=
  Forall (fun st => Forall (is_feasible st) (local_scenarios st)) mpicomm.

Lemma fold_feasible st scenarios : forall acc,
  fold_left
    (fun locals '(k, s) =>
       if scenario_feasible (_mpisppy_data (models st !!! s))
       then PrimFloat.add locals (_mpisppy_probability (models st !!! s))
       else locals) scenarios acc =
  fold_left
    (fun acc '(k, s) => PrimFloat.add acc (_mpisppy_probability (models st !!! s)))
    (filter (is_feasible st) scenarios) acc.
Proof.
  induction scenarios as [|[k s] l IH]; intros acc; [reflexivity|].
  rewrite filter_cons. simpl.
  destruct (decide (is_feasible st (k, s))) as [H|H];
    unfold is_feasible in H; simpl in H.
  - rewrite H. simpl. apply IH.
  - apply not_true_is_false in H. rewrite H. apply IH.
Qed.

Lemma fold_infeasible st scenarios : forall acc,
  fold_left
    (fun locals '(k, s) =>
       if negb (scenario_feasible (_mpisppy_data (models st !!! s)))
       then PrimFloat.add locals (_mpisppy_probability (models st !!! s))
       else locals) scenarios acc =
  fold_left
    (fun acc '(k, s) => PrimFloat.add acc (_mpisppy_probability (models st !!! s)))
    (filter (fun ks => ~ is_feasible st ks) scenarios) acc.
Proof.
  induction scenarios as [|[k s] l IH]; intros acc; [reflexivity|].
  rewrite filter_cons. simpl.
  destruct (decide (~ is_feasible st (k, s))) as [H|H];
    unfold is_feasible in H; simpl in H.
  - apply not_true_is_false in H. rewrite H. simpl. apply IH.
  - apply dec_stable in H. rewrite H. apply IH.
Qed.

Lemma local_feas_prob_sum st :
  local_feas_prob st = sum_probabilities st (feasible_scenarios st).
Proof. apply fold_feasible. Qed.

Lemma local_infeas_prob_sum st :
  local_infeas_prob st = sum_probabilities st (infeasible_scenarios st).
Proof. apply fold_infeasible. Qed.

Lemma local_E1_sum st : local_E1 st = sum_probabilities st (local_scenarios st).
Proof. reflexivity. Qed.

Lemma feasible_scenarios_all st :
  Forall (is_feasible st) (local_scenarios st) ->
  feasible_scenarios st = local_scenarios st /\ infeasible_scenarios st = [].
Proof.
  unfold feasible_scenarios, infeasible_scenarios.
  induction 1 as [|ks l Hks Hl [IH1 IH2]]; [split; reflexivity|].
  rewrite !filter_cons, decide_True, decide_False by auto.
  now rewrite IH1, IH2.
Qed.

Lemma Allreduce_SUM_zeros (n : nat) :
  Allreduce_SUM (replicate n 0%float) = 0%float.
Proof.
  destruct n as [|n]; [reflexivity|]. simpl.
  induction n as [|n IH]; [reflexivity|]. simpl. exact IH.
Qed.

(** C9, as stated, fails twice.  With a feasible scenario of probability 1
    and an infeasible one of probability 0, [feas_prob()] equals E1 and
    [infeas_prob()] equals 0 although a scenario is infeasible.  With
    probabilities 0.1 (feasible), 0.2 and 0.7 (infeasible), E1 is 1.0 but
    [feas_prob() + infeas_prob()] is 0.1 + 0.8999999999999999, which is
    0.9999999999999999. *)
Lemma C9_counterexample :
  ~ (forall mpicomm,
       PrimFloat.add (feas_prob mpicomm) (infeas_prob mpicomm) = E1_value mpicomm /\
       (feas_prob mpicomm = E1_value mpicomm <-> all_feasible mpicomm) /\
       (infeas_prob mpicomm = 0%float <-> all_feasible mpicomm)) /\
  ~ (infeas_prob [zero_probability_infeasible] = 0%float ->
     all_feasible [zero_probability_infeasible]) /\
  PrimFloat.add (feas_prob [one_in_three_feasible])
                (infeas_prob [one_in_three_feasible])
    <> E1_value [one_in_three_feasible].
Proof.
  assert (~ (infeas_prob [zero_probability_infeasible] = 0%float ->
             all_feasible [zero_probability_infeasible])) as Hzero.
  { intros H. specialize (H eq_refl).
    apply Forall_cons_1 in H as [H _].
    apply Forall_cons_1 in H as [_ H]. apply Forall_cons_1 in H as [H _].
    discriminate H. }
  split; [|split; [exact Hzero|]].
  - intros H. apply Hzero.
    apply (proj2 (H [zero_probability_infeasible])).
  - intros H.
    apply (f_equal (fun x => PrimFloat.eqb x 1%float)) in H.
    vm_compute in H. discriminate H.
Qed.

(** C9, amended: on every process the feasible and the infeasible local
    scenarios partition the local scenarios, [feas_prob()] adds up the
    probabilities of the former and [infeas_prob()] those of the latter, as
    [_update_E1] does for all of them, so that every probability enters
    exactly one of the two sums (their sum is E1 up to the rounding of
    binary64 addition); and if every scenario is feasible, [feas_prob()]
    equals E1 and [infeas_prob()] equals 0. *)
Theorem C9_feasible_and_infeasible_probability (mpicomm : list SPOpt) :
  feas_prob mpicomm
    = Allreduce_SUM (map (fun st => sum_probabilities st (feasible_scenarios st)) mpicomm) /\
  infeas_prob mpicomm
    = Allreduce_SUM (map (fun st => sum_probabilities st (infeasible_scenarios st)) mpicomm) /\
  E1_value mpicomm
    = Allreduce_SUM (map (fun st => sum_probabilities st (local_scenarios st)) mpicomm) /\
  Forall (fun st =>
            feasible_scenarios st ++ infeasible_scenarios st ≡ₚ local_scenarios st)
         mpicomm /\
  (all_feasible mpicomm ->
   feas_prob mpicomm = E1_value mpicomm /\ infeas_prob mpicomm = 0%float).
Proof.
  split; [|split; [|split; [|split]]].
  - unfold feas_prob. f_equal. apply map_ext. intros st. apply local_feas_prob_sum.
  - unfold infeas_prob. f_equal. apply map_ext. intros st. apply local_infeas_prob_sum.
  - reflexivity.
  - apply Forall_forall. intros st _. apply filter_app_complement.
  - intros Hall. unfold feas_prob, infeas_prob, E1_value. split.
    + f_equal. apply map_ext_in. intros st Hst.
      rewrite local_feas_prob_sum, local_E1_sum.
      apply list_elem_of_In in Hst.
      destruct (feasible_scenarios_all st) as [-> _]; [|reflexivity].
      unfold all_feasible in Hall. rewrite Forall_forall in Hall. now apply Hall.
    + replace (map local_infeas_prob mpicomm)
        with (replicate (length mpicomm) 0%float); [apply Allreduce_SUM_zeros|].
      unfold all_feasible in Hall.
      induction Hall as [|st l Hst Hl IH]; [reflexivity|]. simpl. f_equal; [|exact IH].
      rewrite local_infeas_prob_sum.
      now destruct (feasible_scenarios_all st Hst) as [_ ->].
Qed.

(** *** [_save_nonants] and [_restore_nonants] *)

Definition data_of (st : SPOpt) (s : model_ref) : mpisppy_data :=
  _mpisppy_data (models st !!! s).

(** The caches of [s] can take its variables: they do not exist yet and
    [nlens] adds up to at least the number of variables, or they exist and
    are long enough. *)
Definition cache_ready (st : SPOpt) (s : model_ref) : Prop :=
  match nonant_cache (data_of st s), fixedness_cache (data_of st s) with
  | None, _ => length (nonant_indices (data_of st s)) <= sum_nlens (nlens (data_of st s))
  | Some c, Some f =>
      length (nonant_indices (data_of st s)) <= length c /\
      length (nonant_indices (data_of st s)) <= length f
  | Some _, None => False
  end.

(** The caches of [s] hold what [_save_nonants] stores for the variables
    [V]. *)
Definition saved (V : gmap var_ref VarData) (st : SPOpt) (s : model_ref) : Prop :=
  exists c f,
    nonant_cache (data_of st s) = Some c /\
    fixedness_cache (data_of st s) = Some f /\
    forall ci key x,
      nonant_indices (data_of st s) !! ci = Some (key, x) ->
      c !! ci = Some (np_double (_value (V !!! x))) /\
      f !! ci = Some (fixed (V !!! x)).

(** Saving leaves the variables, the scenario list and the variable lists
    as they are. *)
Definition save_frame (st st' : SPOpt) : Prop :=
  vars st' = vars st /\ local_scenarios st' = local_scenarios st /\
  forall s, nonant_indices (data_of st' s) = nonant_indices (data_of st s).

(** The variable [x] holds what [_restore_nonants] gives it back from
    caches filled for the variables [V]. *)
Definition restored (V : gmap var_ref VarData) (st : SPOpt) (x : var_ref) : Prop :=
  _value (vars st !!! x) = Some (np_double (_value (V !!! x))) /\
  fixed (vars st !!! x) = fixed (V !!! x).

Definition put_model (s : model_ref) (m : Model) (st : SPOpt) : SPOpt :=
  set_models (fun ms => <[s := m]> ms) st.

Definition with_caches (c : list float) (f : list (option bool)) (m : Model) : Model :=
  set_data (set_fixedness_cache f) (set_data (set_nonant_cache c) m).

Lemma modify_data_eq s g st :
  modify_data s g st = (Ok tt, put_model s (set_data g (models st !!! s)) st).
Proof. reflexivity. Qed.

Lemma put_model_put_model s m1 m2 st :
  put_model s m2 (put_model s m1 st) = put_model s m2 st.
Proof. unfold put_model, set_models. simpl. now rewrite insert_insert_eq. Qed.

Lemma models_put_model_eq s m st : models (put_model s m st) !!! s = m.
Proof. unfold put_model. simpl. apply lookup_total_insert_eq. Qed.

Lemma models_put_model_ne s s' m st :
  s' <> s -> models (put_model s m st) !!! s' = models st !!! s'.
Proof. intros H. unfold put_model. simpl. now apply lookup_total_insert_ne. Qed.

Lemma getattr_some {A} attr (field : mpisppy_data -> option A) s st x :
  field (data_of st s) = Some x -> getattr attr field s st = (Ok x, st).
Proof. unfold getattr, data_of. now intros ->. Qed.

(** One variable saved. *)
Lemma save_nonant_spec s ci xvar st c f :
  nonant_cache (data_of st s) = Some c ->
  fixedness_cache (data_of st s) = Some f ->
  ci < length c -> ci < length f ->
  save_nonant s ci xvar st =
    (Ok tt,
     put_model s
       (with_caches (<[ci := np_double (_value (vars st !!! xvar))]> c)
                    (<[ci := fixed (vars st !!! xvar)]> f)
                    (models st !!! s)) st).
Proof.
  intros Hc Hf Hlc Hlf. unfold save_nonant.
  rewrite (bind_eq _ _ _ st st) by reflexivity.
  rewrite (bind_eq _ _ _ c st) by (now apply getattr_some).
  unfold list_setitem. destruct (Nat.ltb_spec ci (length c)) as [_|]; [|lia].
  rewrite (bind_eq _ _ _ (<[ci := np_double (_value (vars st !!! xvar))]> c) st)
    by reflexivity.
  erewrite bind_eq by apply modify_data_eq.
  erewrite (bind_eq _ _ _ f).
  2:{ apply getattr_some. unfold data_of. rewrite models_put_model_eq. exact Hf. }
  destruct (Nat.ltb_spec ci (length f)) as [_|]; [|lia].
  erewrite bind_eq by reflexivity.
  rewrite modify_data_eq, put_model_put_model, models_put_model_eq.
  reflexivity.
Qed.

(** The variables [rest], at positions [j], [j + 1], ... of the list of
    [s], saved. *)
Lemma save_loop_spec s : forall (rest : list ((string * nat) * var_ref)) j st c f,
  nonant_cache (data_of st s) = Some c ->
  fixedness_cache (data_of st s) = Some f ->
  j + length rest <= length c -> j + length rest <= length f ->
  exists st' c' f',
    for_each (combine (seq j (length rest)) rest)
      (fun '(ci, (_, xvar)) => save_nonant s ci xvar) st = (Ok tt, st') /\
    vars st' = vars st /\ local_scenarios st' = local_scenarios st /\
    (forall s', s' <> s -> models st' !!! s' = models st !!! s') /\
    nonant_indices (data_of st' s) = nonant_indices (data_of st s) /\
    nonant_cache (data_of st' s) = Some c' /\
    fixedness_cache (data_of st' s) = Some f' /\
    length c' = length c /\ length f' = length f /\
    (forall i, i < j -> c' !! i = c !! i /\ f' !! i = f !! i) /\
    (forall i key x, rest !! i = Some (key, x) ->
       c' !! (j + i) = Some (np_double (_value (vars st !!! x))) /\
       f' !! (j + i) = Some (fixed (vars st !!! x))).
Proof.
  induction rest as [|[key0 x0] rest IH]; intros j st c f Hc Hf Hlc Hlf.
  - exists st, c, f. simpl.
    do 9 (split; [auto|]). split; [intros; split; reflexivity|].
    intros i key x Hi. discriminate Hi.
  - simpl in Hlc, Hlf. cbn [length seq combine for_each].
    rewrite (bind_eq _ _ _ tt _
               (save_nonant_spec s j x0 st c f Hc Hf ltac:(lia) ltac:(lia))).
    set (c1 := <[j := np_double (_value (vars st !!! x0))]> c).
    set (f1 := <[j := fixed (vars st !!! x0)]> f).
    set (st1 := put_model s (with_caches c1 f1 (models st !!! s)) st).
    assert (data_of st1 s = _mpisppy_data (with_caches c1 f1 (models st !!! s))) as Hd1
      by (unfold data_of, st1; now rewrite models_put_model_eq).
    destruct (IH (S j) st1 c1 f1) as (st' & c' & f' & Hrun & Hv & Hls & Hoth & Hidx
                                      & Hc' & Hf' & Hlc' & Hlf' & Hlow & Hnew).
    { now rewrite Hd1. }
    { now rewrite Hd1. }
    { unfold c1. rewrite length_insert. lia. }
    { unfold f1. rewrite length_insert. lia. }
    exists st', c', f'. split; [exact Hrun|].
    split; [now rewrite Hv|]. split; [now rewrite Hls|].
    split.
    { intros s' Hs'. rewrite Hoth by assumption. unfold st1.
      now apply models_put_model_ne. }
    split; [now rewrite Hidx, Hd1|].
    split; [exact Hc'|]. split; [exact Hf'|].
    split; [rewrite Hlc'; apply length_insert|].
    split; [rewrite Hlf'; apply length_insert|].
    split.
    { intros i Hi. destruct (Hlow i ltac:(lia)) as [-> ->]. unfold c1, f1.
      rewrite !list_lookup_insert_ne by lia. auto. }
    intros i key x Hi. destruct i as [|i].
    + injection Hi as <- <-. rewrite Nat.add_0_r.
      destruct (Hlow j ltac:(lia)) as [-> ->]. unfold c1, f1.
      rewrite !list_lookup_insert_eq by lia. auto.
    + simpl in Hi. replace (j + S i) with (S j + i) by lia.
      apply (Hnew i key x Hi).
Qed.

(** One scenario saved. *)
Lemma save_scenario_spec s st :
  cache_ready st s ->
  exists st',
    save_scenario_nonants s st = (Ok tt, st') /\
    save_frame st st' /\
    (forall s', s' <> s -> models st' !!! s' = models st !!! s') /\
    saved (vars st) st' s.
Proof.
  intros Hready. unfold save_scenario_nonants.
  rewrite (bind_eq _ _ _ st st) by reflexivity.
  (* the caches, allocated if need be *)
  assert (exists st0 c f,
            when (bool_decide (nonant_cache (_mpisppy_data (models st !!! s)) = None))
              (do! modify_data s (set_nonant_cache
                     (replicate (sum_nlens (nlens (_mpisppy_data (models st !!! s)))) 0%float)) in
               modify_data s (set_fixedness_cache
                     (replicate (sum_nlens (nlens (_mpisppy_data (models st !!! s)))) None)))
              st = (Ok tt, st0) /\
            vars st0 = vars st /\ local_scenarios st0 = local_scenarios st /\
            (forall s', s' <> s -> models st0 !!! s' = models st !!! s') /\
            nonant_indices (data_of st0 s) = nonant_indices (data_of st s) /\
            nonant_cache (data_of st0 s) = Some c /\
            fixedness_cache (data_of st0 s) = Some f /\
            length (nonant_indices (data_of st s)) <= length c /\
            length (nonant_indices (data_of st s)) <= length f)
    as (st0 & c & f & Hwhen & Hv0 & Hls0 & Hoth0 & Hidx0 & Hc0 & Hf0 & Hlc0 & Hlf0).
  { unfold cache_ready in Hready. fold (data_of st s).
    destruct (nonant_cache (data_of st s)) as [c|] eqn:Ec.
    - destruct (fixedness_cache (data_of st s)) as [f|] eqn:Ef; [|contradiction].
      exists st, c, f. rewrite bool_decide_eq_false_2 by discriminate.
      simpl. repeat split; auto; lia.
    - rewrite bool_decide_eq_true_2 by reflexivity. simpl.
      erewrite bind_eq by apply modify_data_eq.
      rewrite modify_data_eq, put_model_put_model, models_put_model_eq.
      eexists _, _, _. split; [reflexivity|].
      split; [reflexivity|]. split; [reflexivity|].
      split; [intros s' Hs'; now apply models_put_model_ne|].
      unfold data_of. rewrite models_put_model_eq. simpl.
      split; [reflexivity|]. split; [reflexivity|]. split; [reflexivity|].
      rewrite !length_replicate. auto. }
  rewrite (bind_eq _ _ _ tt st0 Hwhen).
  rewrite (bind_eq _ _ _ st0 st0) by reflexivity.
  fold (data_of st0 s). unfold enumerate.
  destruct (save_loop_spec s (nonant_indices (data_of st0 s)) 0 st0 c f Hc0 Hf0)
    as (st' & c' & f' & Hrun & Hv & Hls & Hoth & Hidx & Hc' & Hf' & _ & _ & _ & Hnew).
  { rewrite Hidx0. simpl. lia. }
  { rewrite Hidx0. simpl. lia. }
  exists st'. split; [exact Hrun|].
  assert (forall s', s' <> s -> models st' !!! s' = models st !!! s') as Hoth'
    by (intros s' Hs'; now rewrite Hoth, Hoth0).
  split; [|split; [exact Hoth'|]].
  - split; [congruence|]. split; [congruence|].
    intros s'. destruct (decide (s' = s)) as [->|Hne].
    + congruence.
    + unfold data_of. now rewrite Hoth'.
  - exists c', f'. split; [exact Hc'|]. split; [exact Hf'|].
    intros ci key x Hi. rewrite Hidx in Hi.
    rewrite <- Hv0. apply (Hnew ci key x Hi).
Qed.

Lemma saved_same_data V st st' s :
  data_of st' s = data_of st s -> saved V st s -> saved V st' s.
Proof. unfold saved. now intros ->. Qed.

Lemma cache_ready_same_data st st' s :
  data_of st' s = data_of st s -> cache_ready st s -> cache_ready st' s.
Proof. unfold cache_ready. now intros ->. Qed.

Lemma saved_ready V st s : saved V st s -> cache_ready st s.
Proof.
  intros (c & f & Hc & Hf & Hall). unfold cache_ready. rewrite Hc, Hf.
  destruct (nonant_indices (data_of st s)) as [|kx l] eqn:E using rev_ind;
    [simpl; lia|].
  destruct kx as [key x].
  destruct (Hall (length l) key x) as [H1 H2].
  { rewrite lookup_app_r by lia. now rewrite Nat.sub_diag. }
  apply lookup_lt_Some in H1, H2. rewrite length_app. simpl. lia.
Qed.

(** All scenarios saved. *)
Lemma save_all_spec : forall (l : list (string * model_ref)) st,
  (forall k s, (k, s) ∈ l -> cache_ready st s) ->
  exists st',
    for_each l (fun '(k, s) => save_scenario_nonants s) st = (Ok tt, st') /\
    save_frame st st' /\
    (forall s, saved (vars st) st s -> saved (vars st) st' s) /\
    (forall k s, (k, s) ∈ l -> saved (vars st) st' s).
Proof.
  induction l as [|[k0 s0] l IH]; intros st Hready.
  - exists st. simpl. split; [reflexivity|]. split; [now repeat split|].
    split; [auto|]. intros k s H. inversion H.
  - destruct (save_scenario_spec s0 st) as (st1 & Hrun1 & Hfr1 & Hoth1 & Hsaved1).
    { apply (Hready k0). left. }
    destruct Hfr1 as (Hv1 & Hls1 & Hidx1).
    destruct (IH st1) as (st' & Hrun & (Hv & Hls & Hidx) & Hkeep & Hall).
    { intros k s Hin. destruct (decide (s = s0)) as [->|Hne].
      - eapply saved_ready, Hsaved1.
      - apply (cache_ready_same_data st); [unfold data_of; now rewrite Hoth1|].
        apply (Hready k). now right. }
    rewrite Hv1 in Hkeep, Hall.
    exists st'. split.
    { cbn [for_each]. now rewrite (bind_eq _ _ _ tt st1 Hrun1). }
    split.
    { split; [congruence|]. split; [congruence|]. intros s. now rewrite Hidx, Hidx1. }
    split.
    { intros s Hs. apply Hkeep. destruct (decide (s = s0)) as [->|Hne].
      - exact Hsaved1.
      - apply (saved_same_data _ st); [unfold data_of; now rewrite Hoth1|exact Hs]. }
    intros k s Hin. apply elem_of_cons in Hin as [[= -> ->]|Hin].
    + apply Hkeep, Hsaved1.
    + now apply (Hall k).
Qed.

Section Restore.
Variables (env : Env) (V : gmap var_ref VarData).
Hypothesis quiet : forall n e, raises env n e = None.

Lemma call_quiet e st : call env e st = (Ok tt, emit e st).
Proof. unfold call. now rewrite quiet. Qed.

Lemma modify_var_eq x g st :
  modify_var x g st = (Ok tt, set_vars (fun vs => <[x := g (vs !!! x)]> vs) st).
Proof. reflexivity. Qed.

(** One variable restored. *)
Lemma restore_nonant_spec s persistent_solver ci x st c f cv fv :
  nonant_cache (data_of st s) = Some c ->
  fixedness_cache (data_of st s) = Some f ->
  c !! ci = Some cv -> f !! ci = Some fv ->
  exists st',
    restore_nonant env s persistent_solver ci x st = (Ok tt, st') /\
    models st' = models st /\ local_scenarios st' = local_scenarios st /\
    Ag st' = Ag st /\
    _value (vars st' !!! x) = Some cv /\ fixed (vars st' !!! x) = fv /\
    (forall x', x' <> x -> vars st' !!! x' = vars st !!! x').
Proof.
  intros Hc Hf Hcv Hfv. unfold restore_nonant.
  rewrite (bind_eq _ _ _ c st) by (now apply getattr_some).
  unfold list_getitem. rewrite Hcv.
  rewrite (bind_eq _ _ _ cv st) by reflexivity.
  erewrite bind_eq by apply modify_var_eq.
  erewrite (bind_eq _ _ _ f) by (now apply getattr_some).
  rewrite Hfv. erewrite bind_eq by reflexivity.
  erewrite bind_eq by apply modify_var_eq.
  destruct persistent_solver; simpl; [rewrite call_quiet|unfold ret];
    eexists; (split; [reflexivity|]); simpl;
    rewrite ?lookup_total_insert_eq; simpl;
    (repeat split; try reflexivity);
    intros x' Hx'; now rewrite !lookup_total_insert_ne by auto.
Qed.

(** The variables [rest], at positions [j], [j + 1], ... of the list of
    [s], restored. *)
Lemma restore_loop_spec s persistent_solver c f :
  forall (rest : list ((string * nat) * var_ref)) j st,
  nonant_cache (data_of st s) = Some c ->
  fixedness_cache (data_of st s) = Some f ->
  (forall i key x, rest !! i = Some (key, x) ->
     c !! (j + i) = Some (np_double (_value (V !!! x))) /\
     f !! (j + i) = Some (fixed (V !!! x))) ->
  exists st',
    for_each (combine (seq j (length rest)) rest)
      (fun '(ci, (_, vardata)) =>
         restore_nonant env s persistent_solver ci vardata) st = (Ok tt, st') /\
    models st' = models st /\ local_scenarios st' = local_scenarios st /\
    Ag st' = Ag st /\
    (forall x, restored V st x -> restored V st' x) /\
    (forall i key x, rest !! i = Some (key, x) -> restored V st' x).
Proof.
  induction rest as [|[key0 x0] rest IH]; intros j st Hc Hf Hall.
  - exists st. simpl. do 4 (split; [reflexivity|]). split; [auto|].
    intros i key x Hi. discriminate Hi.
  - destruct (Hall 0 key0 x0 eq_refl) as [Hcv Hfv]. rewrite Nat.add_0_r in Hcv, Hfv.
    destruct (restore_nonant_spec s persistent_solver j x0 st c f _ _ Hc Hf Hcv Hfv)
      as (st1 & Hrun1 & Hm1 & Hls1 & Hag1 & Hval1 & Hfix1 & Hoth1).
    assert (data_of st1 s = data_of st s) as Hd1 by (unfold data_of; now rewrite Hm1).
    destruct (IH (S j) st1) as (st' & Hrun & Hm & Hls & Hag & Hkeep & Hnew).
    { now rewrite Hd1. }
    { now rewrite Hd1. }
    { intros i key x Hi. replace (S j + i) with (j + S i) by lia.
      now apply (Hall (S i) key x). }
    assert (forall x, x = x0 \/ restored V st x -> restored V st1 x) as Hstep.
    { intros x [->|Hx]; [now split|]. destruct (decide (x = x0)) as [->|Hne].
      - now split.
      - unfold restored. now rewrite Hoth1. }
    exists st'. split.
    { cbn [length seq combine for_each]. now rewrite (bind_eq _ _ _ tt st1 Hrun1). }
    split; [congruence|]. split; [congruence|]. split; [congruence|].
    split; [intros x Hx; apply Hkeep, Hstep; now right|].
    intros i key x Hi. destruct i as [|i].
    + injection Hi as <- <-. apply Hkeep, Hstep. now left.
    + apply (Hnew i key x Hi).
Qed.

(** One scenario restored. *)
Lemma restore_scenario_spec update_persistent s st :
  saved V st s ->
  exists st',
    restore_scenario_nonants env update_persistent s st = (Ok tt, st') /\
    models st' = models st /\ local_scenarios st' = local_scenarios st /\
    (forall x, restored V st x -> restored V st' x) /\
    (forall i key x, nonant_indices (data_of st s) !! i = Some (key, x) ->
       restored V st' x).
Proof.
  intros (c & f & Hc & Hf & Hall). unfold restore_scenario_nonants.
  rewrite (bind_eq _ _ _ st st) by reflexivity.
  fold (data_of st s). unfold enumerate.
  destruct (restore_loop_spec s
              (update_persistent && is_persistent (_solver_plugin (models st !!! s)))
              c f (nonant_indices (data_of st s)) 0 st Hc Hf)
    as (st1 & Hrun1 & Hm1 & Hls1 & Hag1 & Hkeep1 & Hnew1).
  { intros i key x Hi. simpl. now apply (Hall i key x). }
  rewrite (bind_eq _ _ _ tt st1 Hrun1).
  rewrite (bind_eq _ _ _ st1 st1) by reflexivity.
  destruct (Ag st1); simpl; [rewrite call_quiet|unfold ret];
    eexists; (split; [reflexivity|]); simpl; auto.
Qed.

(** All scenarios restored. *)
Lemma restore_all_spec update_persistent :
  forall (l : list (string * model_ref)) st,
  (forall k s, (k, s) ∈ l -> saved V st s) ->
  exists st',
    for_each l (fun '(k, s) => restore_scenario_nonants env update_persistent s) st
      = (Ok tt, st') /\
    models st' = models st /\
    (forall x, restored V st x -> restored V st' x) /\
    (forall k s i key x,
       (k, s) ∈ l -> nonant_indices (data_of st s) !! i = Some (key, x) ->
       restored V st' x).
Proof.
  induction l as [|[k0 s0] l IH]; intros st Hsaved.
  - exists st. simpl. split; [reflexivity|]. split; [reflexivity|].
    split; [auto|]. intros k s i key x H. inversion H.
  - destruct (restore_scenario_spec update_persistent s0 st)
      as (st1 & Hrun1 & Hm1 & Hls1 & Hkeep1 & Hnew1).
    { apply (Hsaved k0). left. }
    assert (forall s, data_of st1 s = data_of st s) as Hd1
      by (intros s; unfold data_of; now rewrite Hm1).
    destruct (IH st1) as (st' & Hrun & Hm & Hkeep & Hnew).
    { intros k s Hin. apply (saved_same_data V st); [apply Hd1|].
      apply (Hsaved k). now right. }
    exists st'. split.
    { cbn [for_each]. now rewrite (bind_eq _ _ _ tt st1 Hrun1). }
    split; [congruence|]. split; [auto|].
    intros k s i key x Hin Hi. apply elem_of_cons in Hin as [[= -> ->]|Hin].
    + apply Hkeep. apply (Hnew1 i key x Hi).
    + apply (Hnew k s i key x Hin). now rewrite Hd1.
Qed.

End Restore.

(** Save, then any change to the variables, then restore. *)
Lemma save_restore_spec env update_persistent st :
  (forall n e, raises env n e = None) ->
  (forall k s, (k, s) ∈ local_scenarios st -> cache_ready st s) ->
  exists st1,
    _save_nonants st = (Ok tt, st1) /\
    forall st2,
      local_scenarios st2 = local_scenarios st1 -> models st2 = models st1 ->
      exists st3,
        _restore_nonants env update_persistent st2 = (Ok tt, st3) /\
        forall k s i key x,
          (k, s) ∈ local_scenarios st ->
          nonant_indices (data_of st s) !! i = Some (key, x) ->
          fixed (vars st3 !!! x) = fixed (vars st !!! x) /\
          _value (vars st3 !!! x) = Some (np_double (_value (vars st !!! x))) /\
          (forall v, _value (vars st !!! x) = Some v ->
                     _value (vars st3 !!! x) = Some v).
Proof.
  intros Hquiet Hready. unfold _save_nonants, _restore_nonants.
  destruct (save_all_spec (local_scenarios st) st Hready)
    as (st1 & Hsave & (Hv1 & Hls1 & Hidx1) & _ & Hsaved).
  exists st1. split; [now rewrite (bind_eq _ _ _ st st) by reflexivity|].
  intros st2 Hls2 Hm2.
  assert (forall s, data_of st2 s = data_of st1 s) as Hd2
    by (intros s; unfold data_of; now rewrite Hm2).
  destruct (restore_all_spec env (vars st) Hquiet update_persistent
              (local_scenarios st2) st2) as (st3 & Hrestore & _ & _ & Hnew).
  { intros k s Hin. apply (saved_same_data _ st1); [apply Hd2|].
    apply (Hsaved k). now rewrite <- Hls1, <- Hls2. }
  exists st3. split; [now rewrite (bind_eq _ _ _ st2 st2) by reflexivity|].
  intros k s i key x Hin Hi.
  destruct (Hnew k s i key x) as [Hval Hfix].
  { now rewrite Hls2, Hls1. }
  { now rewrite Hd2, Hidx1. }
  split; [exact Hfix|]. split; [exact Hval|].
  intros v Hv. now rewrite Hval, Hv.
Qed.

Lemma one_variable_ready x k s :
  (k, s) ∈ local_scenarios (one_variable x) -> cache_ready (one_variable x) s.
Proof.
  intros Hin. apply list_elem_of_singleton in Hin. injection Hin as -> ->.
  vm_compute. lia.
Qed.

(** C10 at a variable without a value: saved with the value [None], it
    comes back from [_restore_nonants] with the value NaN, that being what
    the numpy cache of dtype ['d'] stores for [None].  The value is not
    restored to what it was, which the docstring of [_restore_nonants]
    promises. *)
Lemma C10_value_None_restored_as_NaN :
  exists st1 st3,
    _save_nonants (one_variable None) = (Ok tt, st1) /\
    _restore_nonants quiet_env true st1 = (Ok tt, st3) /\
    _value (vars (one_variable None) !!! 0) = None /\
    _value (vars st3 !!! 0) = Some PrimFloat.nan /\
    _value (vars st3 !!! 0) <> _value (vars (one_variable None) !!! 0).
Proof.
  destruct (save_restore_spec quiet_env true (one_variable None))
    as (st1 & Hsave & Hrestore); [reflexivity | apply one_variable_ready |].
  destruct (Hrestore st1 eq_refl eq_refl) as (st3 & Hr & Hvars).
  destruct (Hvars "scen0" 0 0 ("ROOT", 0) 0) as (_ & Hval & _);
    [now left | reflexivity |].
  exists st1, st3. split; [exact Hsave|]. split; [exact Hr|].
  split; [reflexivity|]. split; [exact Hval|].
  intros Heq. pose proof (eq_trans (eq_sym Hval) Heq) as H. discriminate H.
Qed.

(** The round trip of [_save_nonants()] and [_restore_nonants()]: if the
    caches of every local scenario can take its variables (they are
    created by this call, or exist and are long enough) and the
    collaborators notified by [_restore_nonants] do not raise, then
    [_save_nonants()] returns, and [_restore_nonants()], called after any
    change to the variables, returns with every non-anticipative
    variable's fixedness status as it was at the save, and with its value
    as it was at the save if that was a number. *)
Theorem save_restore_round_trip env update_persistent st :
  (forall n e, raises env n e = None) ->
  (forall k s, (k, s) ∈ local_scenarios st -> cache_ready st s) ->
  exists st1,
    _save_nonants st = (Ok tt, st1) /\
    forall st2,
      local_scenarios st2 = local_scenarios st1 -> models st2 = models st1 ->
      exists st3,
        _restore_nonants env update_persistent st2 = (Ok tt, st3) /\
        forall k s i key x,
          (k, s) ∈ local_scenarios st ->
          nonant_indices (data_of st s) !! i = Some (key, x) ->
          fixed (vars st3 !!! x) = fixed (vars st !!! x) /\
          (forall v, _value (vars st !!! x) = Some v ->
                     _value (vars st3 !!! x) = Some v).
Proof.
  intros Hquiet Hready.
  destruct (save_restore_spec env update_persistent st Hquiet Hready)
    as (st1 & Hsave & Hrestore).
  exists st1. split; [exact Hsave|].
  intros st2 Hls Hm. destruct (Hrestore st2 Hls Hm) as (st3 & Hrun & Hvars).
  exists st3. split; [exact Hrun|].
  intros k s i key x Hin Hx. destruct (Hvars k s i key x Hin Hx) as (Hf & _ & Hv).
  split; [exact Hf | exact Hv].
Qed.

(** A variable saved at 2.5, then set to 7 and fixed, is restored to 2.5
    and unfixed. *)
Lemma save_restore_round_trip_witness :
  exists st1 st3,
    _save_nonants (one_variable (Some 2.5%float)) = (Ok tt, st1) /\
    _restore_nonants quiet_env true
      (set_vars (fun _ => {[ 0 := {| _value := Some 7%float; fixed := Some true;
                                    stale := false |} ]}) st1) = (Ok tt, st3) /\
    _value (vars st3 !!! 0) = Some 2.5%float /\
    fixed (vars st3 !!! 0) = Some false.
Proof.
  destruct (save_restore_round_trip quiet_env true (one_variable (Some 2.5%float)))
    as (st1 & Hsave & Hrestore); [reflexivity | apply one_variable_ready |].
  destruct (Hrestore
              (set_vars (fun _ => {[ 0 := {| _value := Some 7%float;
                                            fixed := Some true;
                                            stale := false |} ]}) st1)
              eq_refl eq_refl) as (st3 & Hr & Hvars).
  destruct (Hvars "scen0" 0 0 ("ROOT", 0) 0) as (Hfix & Hval);
    [now left | reflexivity |].
  exists st1, st3. split; [exact Hsave|]. split; [exact Hr|].
  split; [exact (Hval _ eq_refl) | exact Hfix].
Defined.


(** *** [solve_one] on results that are not good enough *)

(** What [prepare_solve] leaves as it is: everything but the solver
    plugins, the solve index and the trace. *)
Definition same_but_plugins (st st' : SPOpt) : Prop :=
  local_scenarios st' = local_scenarios st /\
  bundling st' = bundling st /\
  extensions st' = extensions st /\
  Ag st' = Ag st /\
  forall m, name (models st' !!! m) = name (models st !!! m) /\
            data_of st' m = data_of st m /\
            _ef_scenario_names (models st' !!! m)
              = _ef_scenario_names (models st !!! m).

#[local] Instance same_but_plugins_preorder : PreOrder same_but_plugins.
Proof.
  split.
  - intros st. unfold same_but_plugins. do 4 (split; [reflexivity|]). auto.
  - intros a b c (H1 & H2 & H3 & H4 & H5) (G1 & G2 & G3 & G4 & G5).
    unfold same_but_plugins. do 4 (split; [congruence|]).
    intros m. destruct (H5 m) as (? & ? & ?), (G5 m) as (? & ? & ?).
    repeat split; congruence.
Qed.











(** The solve of [solve_and_record], started in the state [st]: the
    exception it raises, if any, and the results it is left with. *)
Definition solver_exception_at (env : Env) (s : model_ref)
    (solve_keyword_args : gmap string kwval) (st : SPOpt) : option exn :=
  raises env (length (trace st)) (EvSolve s solve_keyword_args).

Definition results_at (env : Env) (s : model_ref)
    (solve_keyword_args : gmap string kwval) (st : SPOpt) : option Results :=
  match solver_exception_at env s solve_keyword_args st with
  | Some _ => None
  | None => Some (solve_results env (length (trace st)))
  end.


Lemma solve_eq env s kwargs st :
  solve env s kwargs st
  = (match raises env (length (trace st)) (EvSolve s kwargs) with
     | Some x => Raise x
     | None => Ok (solve_results env (length (trace st)))
     end, emit (EvSolve s kwargs) st).
Proof. unfold solve. now destruct (raises _ _ _). Qed.











(** With a solver that returns results that are not good enough,
    [solve_one] returns normally even with [need_solution=True], the
    scenario being marked infeasible. *)
Example solve_one_infeasible_returns :
  exists st',
    solve_one infeasible_solver_env None "scen0" 0 false false (Some false)
      false false true true (WarmstartOther false)
      (an_spopt [a_scenario "scen0" 1%float true []] []) = (Ok tt, st') /\
    scenario_feasible (data_of st' 0) = false /\
    trace st' = [EvSolve 0 ∅].
Proof. eexists. split; [vm_compute; reflexivity|]. split; reflexivity. Qed.


(** *** [_check_staleness] *)

(** A variable that [_check_staleness] complains about: not fixed, stale,
    and without a value. *)
Definition stale_without_value (st : SPOpt) (v : var_ref) : Prop :=
  truthy (fixed (vars st !!! v)) = false /\
  stale (vars st !!! v) = true /\
  _value (vars st !!! v) = None.

(** Lines 103-117: the body of the loop. *)
Definition check_variable (env : Env) (s : model_ref)
    (kv : (string * nat) * var_ref) : M SPOpt unit :=
  let '(_, v) := kv in
  let! st := get in
  let vd := vars st !!! v in
  if negb (truthy (fixed vd)) && stale vd then
    if is_zero_prob env s v && bool_decide (_value vd = None) then
      raise (RuntimeError
        ("Non-anticipative zero-probability variable on scenario "
         +:+ name (models st !!! s)
         +:+ " reported as stale and has no value. "
         +:+ "Zero-probability variables must have a value (e.g., fixed)."))
    else
      match _value vd with
      | Some _ => ret tt
      | None =>
          raise (RuntimeError
            ("Non-anticipative variable on scenario "
             +:+ name (models st !!! s)
             +:+ " reported as stale. This usually means this variable "
             +:+ "did not appear in any (active) components, and hence "
             +:+ "was not communicated to the subproblem solver. "))
      end
  else ret tt.

Lemma _check_staleness_eq env s :
  _check_staleness env s
  = (let! st := get in
     for_each (nonant_indices (_mpisppy_data (models st !!! s))) (check_variable env s)).
Proof. reflexivity. Qed.

Lemma check_variable_spec env s key v st :
  (~ stale_without_value st v /\ check_variable env s (key, v) st = (Ok tt, st)) \/
  (stale_without_value st v /\
   exists msg, check_variable env s (key, v) st = (Raise (RuntimeError msg), st)).
Proof.
  unfold check_variable, stale_without_value, bind, get, ret, raise.
  destruct (truthy (fixed (vars st !!! v))); simpl;
    [left; split; [intros (H & _); discriminate H | reflexivity]|].
  destruct (stale (vars st !!! v)); simpl;
    [|left; split; [intros (_ & H & _); discriminate H | reflexivity]].
  destruct (_value (vars st !!! v)) as [x|].
  - left. split; [intros (_ & _ & H); discriminate H|].
    now rewrite bool_decide_eq_false_2, andb_false_r by discriminate.
  - right. split; [auto|].
    rewrite bool_decide_eq_true_2, andb_true_r by reflexivity.
    destruct (is_zero_prob env s v); eauto.
Qed.

Lemma check_variables_spec env s st : forall (l : list ((string * nat) * var_ref)),
  snd (for_each l (check_variable env s) st) = st /\
  (fst (for_each l (check_variable env s) st) = Ok tt <->
   Forall (fun '(_, v) => ~ stale_without_value st v) l) /\
  (forall e, fst (for_each l (check_variable env s) st) = Raise e ->
             exists msg, e = RuntimeError msg).
Proof.
  induction l as [|[key v] l (IH1 & IH2 & IH3)]; cbn [for_each].
  - split; [reflexivity|]. split; [now split | discriminate].
  - unfold bind.
    destruct (check_variable_spec env s key v st) as [[Hgood ->] | [Hbad [msg ->]]].
    + split; [exact IH1|]. split; [|exact IH3].
      rewrite Forall_cons. tauto.
    + simpl. split; [reflexivity|]. split; [|intros e [= <-]; eauto].
      split; [discriminate|]. rewrite Forall_cons. tauto.
Qed.

Lemma check_staleness_outcome env s st :
  snd (_check_staleness env s st) = st /\
  (fst (_check_staleness env s st) = Ok tt <->
   Forall (fun '(_, v) => ~ stale_without_value st v)
          (nonant_indices (data_of st s))) /\
  (forall e, fst (_check_staleness env s st) = Raise e ->
             exists msg, e = RuntimeError msg).
Proof.
  rewrite _check_staleness_eq. unfold bind at 1 2 3, get at 1 2 3.
  apply check_variables_spec.
Qed.

(** [_check_staleness(s)] changes nothing.  It returns exactly when no
    non-anticipative variable of [s] is at once not fixed, stale and
    without a value; otherwise it raises [RuntimeError].  Whether the
    variable has probability zero only chooses the message. *)
Theorem _check_staleness_spec env s st :
  snd (_check_staleness env s st) = st /\
  (fst (_check_staleness env s st) = Ok tt <->
   Forall (fun '(_, v) => ~ stale_without_value st v)
          (nonant_indices (data_of st s))) /\
  (forall e, fst (_check_staleness env s st) = Raise e ->
             exists msg, e = RuntimeError msg).
Proof. apply check_staleness_outcome. Qed.


(** *** [solve_one] on results that are good enough *)

(** Relations that the steps of [solve_one] after the keyword arguments
    keep: those that recording a call and changing a model keep. *)
Section ModelFrames.
Variable R : SPOpt -> SPOpt -> Prop.
Context `{!PreOrder R}.
Hypothesis R_emit : forall e st, R st (emit e st).
Hypothesis R_set_models : forall f st, R st (set_models f st).

Lemma kept_call env e : frame R (call env e).
Proof.
  intros st r st'. unfold call.
  destruct (raises env (length (trace st)) e); intros [= _ <-]; apply R_emit.
Qed.

Lemma kept_print m : frame R (print m).
Proof. apply frame_modify. intros st. apply R_emit. Qed.

Lemma kept_solve env s kwargs : frame R (solve env s kwargs).
Proof.
  intros st r st'. unfold solve.
  destruct (raises env (length (trace st)) _); intros [= _ <-]; apply R_emit.
Qed.

Lemma kept_modify_model s f : frame R (modify_model s f).
Proof. apply frame_modify. intros st. apply R_set_models. Qed.

Lemma kept_modify_data s f : frame R (modify_data s f).
Proof. apply kept_modify_model. Qed.

Lemma kept__check_staleness env s : frame R (_check_staleness env s).
Proof.
  intros st r st' H.
  destruct (check_staleness_outcome env s st) as (Hst & _).
  rewrite H in Hst. simpl in Hst. subst st'. reflexivity.
Qed.

Ltac kept :=
  repeat first
    [ apply kept_call | apply kept_print | apply kept_solve
    | apply kept_modify_data | apply kept_modify_model
    | apply kept__check_staleness | frame_step ].

Lemma kept_solve_failed env s gripe kwargs results solver_exception :
  frame R (solve_failed env s gripe kwargs results solver_exception).
Proof. unfold solve_failed. kept. Qed.

Lemma kept_solve_succeeded env s need_solution results :
  frame R (solve_succeeded env s need_solution results).
Proof. unfold solve_succeeded. kept. Qed.

Lemma kept_propagate_down env s : frame R (propagate_down env s).
Proof. unfold propagate_down. kept. Qed.

Lemma kept_solve_and_record env s gripe need_solution kwargs :
  frame R (solve_and_record env s gripe need_solution kwargs).
Proof.
  unfold solve_and_record.
  repeat first [ apply kept_solve_failed | apply kept_solve_succeeded
               | apply kept_solve | frame_step ].
Qed.

End ModelFrames.

(** The call that loads the solution, lines 259-262. *)
Definition load_call (st : SPOpt) (s : model_ref) : Event :=
  if is_persistent (_solver_plugin (models st !!! s))
  then EvLoadVars s else EvLoadFrom s.

(** What the branch of lines 257-276 leaves in [s._mpisppy_data]. *)
Definition recorded (st : SPOpt) (s : model_ref) (loaded : bool)
    (results : Results) (st' : SPOpt) : Prop :=
  scenario_feasible (data_of st' s) = true /\
  solution_available (data_of st' s) = Some loaded /\
  outer_bound (data_of st' s)
    = Some (if is_minimizing st then Lower_bound results else Upper_bound results) /\
  inner_bound (data_of st' s)
    = Some (if is_minimizing st then Upper_bound results else Lower_bound results).

Lemma solve_succeeded_spec env s need_solution results st :
  exists r st',
    solve_succeeded env s need_solution (Some results) st = (r, st') /\
    trace st' = trace st ++ [load_call st s] /\
    match raises env (length (trace st)) (load_call st s), need_solution with
    | Some e, true => r = Raise e /\ models st' = models st
    | Some e, false => r = Ok tt /\ recorded st s false results st'
    | None, _ => r = Ok tt /\ recorded st s true results st'
    end.
Proof.
  unfold solve_succeeded, load_call, recorded, data_of.
  unfold bind at 1, get at 1. unfold bind at 1. unfold try, bind at 1.
  destruct (is_persistent (_solver_plugin (models st !!! s)));
    unfold call;
    (destruct (raises env (length (trace st)) _) as [e|]; simpl;
     [destruct need_solution; simpl|]);
    unfold bind, modify_data, modify_model, modify, get, raise, ret; simpl;
    (eexists _, _; split; [reflexivity|]; simpl; split; [reflexivity|]);
    rewrite ?lookup_total_insert_eq; simpl; auto 10.
Qed.

(** The settings of the object and its variables: what no step of
    [solve_one] assigns. *)
Definition same_settings (st st' : SPOpt) : Prop :=
  local_scenarios st' = local_scenarios st /\ vars st' = vars st /\
  cylinder_rank st' = cylinder_rank st /\ bundling st' = bundling st /\
  is_minimizing st' = is_minimizing st /\ options st' = options st /\
  extensions st' = extensions st /\ Ag st' = Ag st.

#[local] Instance same_settings_preorder : PreOrder same_settings.
Proof.
  split.
  - intros st. unfold same_settings. auto 10.
  - intros a b c (A1 & A2 & A3 & A4 & A5 & A6 & A7 & A8)
                 (B1 & B2 & B3 & B4 & B5 & B6 & B7 & B8).
    unfold same_settings. repeat split; congruence.
Qed.

Lemma same_settings_emit e st : same_settings st (emit e st).
Proof. unfold same_settings. auto 10. Qed.

Lemma same_settings_set_models f st : same_settings st (set_models f st).
Proof. unfold same_settings. auto 10. Qed.

Lemma same_settings_set_solve_index f st : same_settings st (set_solve_index f st).
Proof. unfold same_settings. auto 10. Qed.

Lemma prepare_solve_settings env solver_options k s tee verbose update_objective warmstart :
  frame same_settings
    (prepare_solve env solver_options k s tee verbose update_objective warmstart).
Proof.
  unfold prepare_solve, attach_logfile.
  repeat first
    [ apply (kept_call same_settings same_settings_emit)
    | apply (kept_print same_settings same_settings_emit)
    | apply (kept_modify_model same_settings same_settings_set_models)
    | apply frame_modify; apply same_settings_set_solve_index
    | frame_step ].
Qed.

Lemma solve_and_record_good env s gripe need_solution kwargs st :
  solver_exception_at env s kwargs st = None ->
  not_good_enough_results env (results_at env s kwargs st) = false ->
  solve_and_record env s gripe need_solution kwargs st
  = solve_succeeded env s need_solution
      (Some (solve_results env (length (trace st)))) (emit (EvSolve s kwargs) st).
Proof.
  unfold results_at. intros Hraise. rewrite Hraise. intros Hgood.
  unfold solve_and_record. cbv beta delta [try bind]. rewrite solve_eq.
  unfold solver_exception_at in Hraise. rewrite Hraise.
  cbv beta iota delta [ret]. now rewrite Hgood.
Qed.

Lemma bind_get {S A} (k : S -> M S A) s : bind get k s = k s s.
Proof. reflexivity. Qed.

Lemma propagate_down_feasible env s st :
  bundling st = false -> scenario_feasible (data_of st s) = true ->
  propagate_down env s st = _check_staleness env s st.
Proof.
  unfold data_of. intros Hb Hfeas. unfold propagate_down.
  rewrite bind_get, Hb, Hfeas. reflexivity.
Qed.

(** Lines 292-293: the hook of the extension after the solve. *)
Definition post_solve (env : Env) (s : model_ref) : M SPOpt unit :=
  let! st := get in when (extensions st) (call env (EvPostSolve s)).

Lemma post_solve_spec env s st :
  exists r st',
    post_solve env s st = (r, st') /\
    models st' = models st /\
    (r = Ok tt \/
     (extensions st = true /\
      exists n e, raises env n (EvPostSolve s) = Some e /\ r = Raise e)).
Proof.
  unfold post_solve. rewrite bind_get.
  destruct (extensions st); simpl; [|eexists _, _; eauto].
  unfold call. destruct (raises env (length (trace st)) (EvPostSolve s)) as [e|] eqn:E;
    eexists _, _; (split; [reflexivity|]); (split; [reflexivity|]); [right|left]; eauto.
Qed.

Lemma solve_one_unfold env solver_options k s dtiming gripe tee verbose
    disable_pyomo_signal_handling update_objective need_solution warmstart
    st solve_keyword_args st0 :
  Ag st = false ->
  prepare_solve env solver_options k s tee verbose update_objective warmstart st
    = (Ok solve_keyword_args, st0) ->
  solve_one env solver_options k s dtiming gripe tee verbose
    disable_pyomo_signal_handling update_objective need_solution warmstart st
  = (do! (do! solve_and_record env s gripe need_solution solve_keyword_args in
          propagate_down env s) in
     post_solve env s) st0.
Proof.
  intros HAg Hprep.
  destruct (prepare_solve_settings _ _ _ _ _ _ _ _ _ _ _ Hprep)
    as (_ & _ & _ & _ & _ & _ & _ & HAg0).
  unfold solve_one. rewrite (bind_eq _ _ _ _ _ Hprep), bind_get.
  now rewrite HAg0, HAg.
Qed.

Lemma solve_one_good env solver_options k s dtiming gripe tee verbose
    disable_pyomo_signal_handling update_objective need_solution warmstart
    st solve_keyword_args st0 :
  Ag st = false -> bundling st = false ->
  prepare_solve env solver_options k s tee verbose update_objective warmstart st
    = (Ok solve_keyword_args, st0) ->
  solver_exception_at env s solve_keyword_args st0 = None ->
  not_good_enough_results env (results_at env s solve_keyword_args st0) = false ->
  exists r st',
    solve_one env solver_options k s dtiming gripe tee verbose
      disable_pyomo_signal_handling update_objective need_solution warmstart st
      = (r, st') /\
    let results := solve_results env (length (trace st0)) in
    let continues (loaded : bool) :=
      recorded st s loaded results st' /\
      (r = Ok tt \/ (exists msg, r = Raise (RuntimeError msg)) \/
       (extensions st = true /\
        exists n e, raises env n (EvPostSolve s) = Some e /\ r = Raise e)) in
    match raises env (S (length (trace st0))) (load_call st0 s), need_solution with
    | Some e, true =>
        r = Raise e /\
        trace st' = trace st0 ++ [EvSolve s solve_keyword_args; load_call st0 s] /\
        data_of st' s = data_of st0 s
    | Some e, false => continues false
    | None, _ => continues true
    end.
Proof.
  intros HAg Hbund Hprep Hraise Hgood.
  destruct (prepare_solve_settings _ _ _ _ _ _ _ _ _ _ _ Hprep)
    as (_ & _ & _ & Hb0 & Hmin0 & _ & Hext0 & _).
  rewrite (solve_one_unfold _ _ _ _ _ _ _ _ _ _ _ _ _ _ _ HAg Hprep).
  set (st1 := emit (EvSolve s solve_keyword_args) st0).
  destruct (solve_succeeded_spec env s need_solution
              (solve_results env (length (trace st0))) st1)
    as (r1 & st2 & Hrun & Htr & Hcase).
  rewrite <- (solve_and_record_good _ _ gripe _ _ _ Hraise Hgood) in Hrun.
  destruct (kept_solve_and_record same_settings same_settings_emit
              same_settings_set_models _ _ _ _ _ _ _ _ Hrun)
    as (_ & _ & _ & Hb2 & Hmin2 & _ & Hext2 & _).
  replace (length (trace st1)) with (S (length (trace st0))) in Hcase
    by (unfold st1; simpl; rewrite length_app; simpl; lia).
  change (load_call st1 s) with (load_call st0 s) in Hcase, Htr.
  assert (forall loaded,
            r1 = Ok tt ->
            recorded st1 s loaded (solve_results env (length (trace st0))) st2 ->
            exists r st',
              (do! (do! solve_and_record env s gripe need_solution solve_keyword_args in
                    propagate_down env s) in
               post_solve env s) st0 = (r, st') /\
              recorded st s loaded (solve_results env (length (trace st0))) st' /\
              (r = Ok tt \/ (exists msg, r = Raise (RuntimeError msg)) \/
               (extensions st = true /\
                exists n e, raises env n (EvPostSolve s) = Some e /\ r = Raise e)))
    as Hcont.
  { intros loaded Hr1 Hrec. subst r1.
    assert (recorded st s loaded (solve_results env (length (trace st0))) st2) as Hrec'.
    { unfold recorded in *. simpl in Hrec. now rewrite <- Hmin0. }
    clear Hrec. pose proof Hrec' as (Hfeas & _).
    destruct (check_staleness_outcome env s st2) as (Hsame & _ & Hexn).
    destruct (_check_staleness env s st2) as [rc st3] eqn:Hcheck.
    simpl in Hsame. subst st3.
    assert ((do! solve_and_record env s gripe need_solution solve_keyword_args in
             propagate_down env s) st0 = (rc, st2)) as Hmid.
    { rewrite (bind_eq _ _ _ _ _ Hrun).
      rewrite propagate_down_feasible; [exact Hcheck | congruence | exact Hfeas]. }
    destruct rc as [[]|e].
    - rewrite (bind_eq _ _ _ _ _ Hmid).
      destruct (post_solve_spec env s st2) as (r & st' & Hpost & Hmodels & Hr).
      exists r, st'. split; [exact Hpost|]. split.
      + unfold recorded, data_of in *. now rewrite Hmodels.
      + destruct Hr as [-> | (Hext & n & e & Hn & ->)]; [now left|].
        right. right. split; [congruence | eauto].
    - rewrite (bind_raise _ _ _ _ _ Hmid).
      destruct (Hexn e eq_refl) as [msg ->].
      eexists _, _. split; [reflexivity|]. split; [exact Hrec' | right; left; eauto]. }
  destruct (raises env (S (length (trace st0))) (load_call st0 s)) as [e|];
    [destruct need_solution|].
  - destruct Hcase as [-> Hmodels].
    rewrite (bind_raise _ _ _ _ _ (bind_raise _ _ _ _ _ Hrun)).
    eexists _, _. split; [reflexivity|].
    split; [reflexivity|]. split.
    + rewrite Htr. unfold st1. simpl. now rewrite <- app_assoc.
    + unfold data_of. now rewrite Hmodels.
  - destruct Hcase as [Hr Hrec]. destruct (Hcont false Hr Hrec) as (r & st' & H1 & H2 & H3).
    exists r, st'. split; [exact H1|]. cbv beta zeta. auto.
  - destruct Hcase as [Hr Hrec]. destruct (Hcont true Hr Hrec) as (r & st' & H1 & H2 & H3).
    exists r, st'. split; [exact H1|]. cbv beta zeta. destruct need_solution; auto.
Qed.

(** When the solve of [solve_one] (no agnostic callout, no bundle) returns
    results that are good enough, the solution is loaded ([load_vars] for
    a persistent solver, [solutions.load_from] otherwise).  If loading
    raises and [need_solution] is set, [solve_one] raises that exception
    and [s._mpisppy_data] is as it was.  Otherwise [scenario_feasible] is
    [True], [solution_available] tells whether loading succeeded, the
    outer bound is the lower bound of the results when minimizing and the
    upper one when maximizing, the inner bound the other one; [solve_one]
    then returns, unless the check for stale variables raises
    [RuntimeError] or the [post_solve] of the extension raises. *)
Theorem solve_one_good_enough env solver_options k s dtiming gripe tee verbose
    disable_pyomo_signal_handling update_objective need_solution warmstart
    st solve_keyword_args st0 :
  Ag st = false -> bundling st = false ->
  prepare_solve env solver_options k s tee verbose update_objective warmstart st
    = (Ok solve_keyword_args, st0) ->
  solver_exception_at env s solve_keyword_args st0 = None ->
  not_good_enough_results env (results_at env s solve_keyword_args st0) = false ->
  exists r st',
    solve_one env solver_options k s dtiming gripe tee verbose
      disable_pyomo_signal_handling update_objective need_solution warmstart st
      = (r, st') /\
    let results := solve_results env (length (trace st0)) in
    let continues (loaded : bool) :=
      recorded st s loaded results st' /\
      (r = Ok tt \/ (exists msg, r = Raise (RuntimeError msg)) \/
       (extensions st = true /\
        exists n e, raises env n (EvPostSolve s) = Some e /\ r = Raise e)) in
    match raises env (S (length (trace st0))) (load_call st0 s), need_solution with
    | Some e, true =>
        r = Raise e /\
        trace st' = trace st0 ++ [EvSolve s solve_keyword_args; load_call st0 s] /\
        data_of st' s = data_of st0 s
    | Some e, false => continues false
    | None, _ => continues true
    end.
Proof. apply solve_one_good. Qed.

(** A solve that returns optimal results with bounds 0: the scenario is
    feasible, its solution available, and both bounds are 0. *)
Lemma solve_one_good_enough_witness :
  exists r st',
    solve_one quiet_env None "scen0" 0 false false (Some false) false false true true
      (WarmstartOther false) (an_spopt [a_scenario "scen0" 1%float false []] [])
    = (r, st') /\
    scenario_feasible (data_of st' 0) = true /\
    solution_available (data_of st' 0) = Some true /\
    outer_bound (data_of st' 0) = Some 0%float.
Proof.
  destruct (solve_one_good_enough quiet_env None "scen0" 0 false false (Some false)
              false false true true (WarmstartOther false)
              (an_spopt [a_scenario "scen0" 1%float false []] []) ∅
              (an_spopt [a_scenario "scen0" 1%float false []] []))
    as (r & st' & Hrun & (Hfeas & Hsol & Houter & _) & _);
    [reflexivity | reflexivity | reflexivity | reflexivity | reflexivity |].
  exists r, st'. auto.
Defined.


(** *** [_restore_nonants] without caches *)

Lemma enumerate_cons {A} (x : A) (l : list A) :
  enumerate (x :: l) = (0, x) :: combine (seq 1 (length l)) l.
Proof. reflexivity. Qed.

Lemma restore_scenario_unsaved env update_persistent s st :
  nonant_cache (data_of st s) = None ->
  exists r st',
    restore_scenario_nonants env update_persistent s st = (r, st') /\
    models st' = models st /\ vars st' = vars st /\
    local_scenarios st' = local_scenarios st /\ Ag st' = Ag st /\
    (nonant_indices (data_of st s) <> [] -> r = Raise (AttributeError "nonant_cache")) /\
    (r = Ok tt \/ r = Raise (AttributeError "nonant_cache") \/
     (Ag st = true /\
      exists n e, raises env n (EvCalloutAgnostic s) = Some e /\ r = Raise e)).
Proof.
  unfold data_of. intros Hnone. unfold restore_scenario_nonants. rewrite bind_get.
  destruct (nonant_indices (_mpisppy_data (models st !!! s))) as [|[key x] rest] eqn:E.
  - unfold enumerate. simpl combine. cbn [for_each]. unfold bind at 1, ret at 1.
    rewrite bind_get. destruct (Ag st) eqn:HAg; simpl.
    + unfold call. destruct (raises env (length (trace st)) (EvCalloutAgnostic s))
        as [e|] eqn:Hr; eexists _, _; (split; [reflexivity|]); simpl;
        (do 4 (split; [auto|])); (split; [congruence|]); [right; right|left]; eauto.
    + eexists _, _. split; [reflexivity|]. do 4 (split; [auto|]).
      split; [congruence | now left].
  - rewrite enumerate_cons. cbn [for_each].
    unfold bind at 1. unfold bind at 1. unfold restore_nonant at 1.
    unfold bind at 1, getattr at 1. rewrite Hnone.
    eexists _, _. split; [reflexivity|]. do 4 (split; [auto|]).
    split; [reflexivity | right; now left].
Qed.

Lemma restore_all_unsaved env update_persistent :
  forall (l : list (string * model_ref)) st,
  (forall k s, (k, s) ∈ l -> nonant_cache (data_of st s) = None) ->
  exists r st',
    for_each l (fun '(k, s) => restore_scenario_nonants env update_persistent s) st
      = (r, st') /\
    vars st' = vars st /\
    ((exists k s, (k, s) ∈ l /\ nonant_indices (data_of st s) <> []) ->
     exists e, r = Raise e) /\
    (r = Ok tt \/ r = Raise (AttributeError "nonant_cache") \/
     (Ag st = true /\
      exists n e s, raises env n (EvCalloutAgnostic s) = Some e /\ r = Raise e)).
Proof.
  induction l as [|[k s] l IH]; intros st Hnone; cbn [for_each].
  - eexists _, _. split; [reflexivity|]. split; [reflexivity|].
    split; [|now left]. intros (k & s & Hin & _). now apply elem_of_nil in Hin.
  - destruct (restore_scenario_unsaved env update_persistent s st)
      as (r1 & st1 & Hrun & Hm & Hv & Hls & HAg & Hraise & Hcases);
      [apply (Hnone k); now left|].
    destruct Hcases as [-> | [-> | (HAgt & n & e & Hn & ->)]].
    + rewrite (bind_eq _ _ _ _ _ Hrun).
      destruct (IH st1) as (r & st' & Hrest & Hv' & Hex & Hcases').
      { intros k' s' Hin. unfold data_of. rewrite Hm. apply (Hnone k'). now right. }
      exists r, st'. split; [exact Hrest|]. split; [congruence|]. split.
      * intros (k' & s' & Hin & Hne). apply Hex.
        apply elem_of_cons in Hin as [[= -> ->]|Hin].
        -- specialize (Hraise Hne). discriminate Hraise.
        -- exists k', s'. split; [exact Hin|]. unfold data_of in *. now rewrite Hm.
      * rewrite HAg in Hcases'. exact Hcases'.
    + rewrite (bind_raise _ _ _ _ _ Hrun).
      eexists _, _. split; [reflexivity|]. split; [exact Hv|].
      split; [eauto | right; now left].
    + rewrite (bind_raise _ _ _ _ _ Hrun).
      eexists _, _. split; [reflexivity|]. split; [exact Hv|].
      split; [eauto | right; right; eauto 10].
Qed.

(** [_restore_nonants()] on an object whose scenarios have no
    [nonant_cache] yet ([_save_nonants()] was not called), one of them
    with a non-anticipative variable, raises and changes no variable; the
    exception is [AttributeError] for [nonant_cache], unless the agnostic
    callout of an earlier scenario raised first. *)
Theorem _restore_nonants_needs_save env update_persistent st :
  (forall k s, (k, s) ∈ local_scenarios st -> nonant_cache (data_of st s) = None) ->
  (exists k s, (k, s) ∈ local_scenarios st /\ nonant_indices (data_of st s) <> []) ->
  exists e st',
    _restore_nonants env update_persistent st = (Raise e, st') /\
    vars st' = vars st /\
    (e = AttributeError "nonant_cache" \/
     (Ag st = true /\ exists n s, raises env n (EvCalloutAgnostic s) = Some e)).
Proof.
  intros Hnone Hsome. unfold _restore_nonants. rewrite bind_get.
  destruct (restore_all_unsaved env update_persistent (local_scenarios st) st Hnone)
    as (r & st' & Hrun & Hv & Hex & Hcases).
  destruct (Hex Hsome) as [e ->].
  exists e, st'. split; [exact Hrun|]. split; [exact Hv|].
  destruct Hcases as [H | [[= ->] | (HAg & n & e' & s & Hn & [= ->])]];
    [discriminate H | now left | right; eauto].
Qed.

(** A scenario with one variable, never saved. *)
Lemma _restore_nonants_needs_save_witness :
  exists st',
    _restore_nonants quiet_env true (one_variable (Some 2.5%float))
    = (Raise (AttributeError "nonant_cache"), st') /\
    vars st' = vars (one_variable (Some 2.5%float)).
Proof.
  destruct (_restore_nonants_needs_save quiet_env true (one_variable (Some 2.5%float)))
    as (e & st' & Hrun & Hv & [-> | (HAg & _)]).
  - intros k s Hin. apply list_elem_of_singleton in Hin. now injection Hin as -> ->.
  - exists "scen0", 0. split; [now left | discriminate].
  - exists st'. auto.
  - discriminate HAg.
Defined.


(** *** [_can_update_best_bound] *)

(** [v] is a non-anticipative variable of a local scenario. *)
Definition is_nonant (st : SPOpt) (v : var_ref) : Prop :=
  exists k s key, (k, s) ∈ local_scenarios st /\
                  (key, v) ∈ nonant_indices (data_of st s).

Lemma fixed_nonants_inner st :
  forall (l : list ((string * nat) * var_ref)) (acc : gset var_ref) v,
  v ∈ fold_left
        (fun acc '(_, v) =>
           if truthy (fixed (vars st !!! v)) then acc ∪ {[ v ]} else acc) l acc
  <-> v ∈ acc \/ (truthy (fixed (vars st !!! v)) = true /\ exists key, (key, v) ∈ l).
Proof.
  induction l as [|[key x] l IH]; intros acc v; simpl.
  - split; [auto|]. intros [H | (_ & key & H)]; [exact H | now apply elem_of_nil in H].
  - rewrite IH. destruct (truthy (fixed (vars st !!! x))) eqn:E.
    + rewrite elem_of_union, elem_of_singleton. split.
      * intros [[H | ->] | (Hf & key' & Hin)]; [now left | | ].
        -- right. split; [exact E|]. exists key. now left.
        -- right. split; [exact Hf|]. exists key'. now right.
      * intros [H | (Hf & key' & Hin)]; [now left; left|].
        apply elem_of_cons in Hin as [[= -> ->] | Hin]; [left; now right|].
        right. eauto.
    + split.
      * intros [H | (Hf & key' & Hin)]; [now left|]. right. split; [exact Hf|].
        exists key'. now right.
      * intros [H | (Hf & key' & Hin)]; [now left|].
        apply elem_of_cons in Hin as [[= -> ->] | Hin]; [congruence|].
        right. eauto.
Qed.

Lemma fixed_nonants_outer st :
  forall (l : list (string * model_ref)) (acc : gset var_ref) v,
  v ∈ fold_left
        (fun acc '(k, s) =>
           fold_left
             (fun acc '(_, v) =>
                if truthy (fixed (vars st !!! v)) then acc ∪ {[ v ]} else acc)
             (nonant_indices (_mpisppy_data (models st !!! s))) acc) l acc
  <-> v ∈ acc \/
      (truthy (fixed (vars st !!! v)) = true /\
       exists k s key, (k, s) ∈ l /\ (key, v) ∈ nonant_indices (data_of st s)).
Proof.
  induction l as [|[k s] l IH]; intros acc v; simpl.
  - split; [auto|]. intros [H | (_ & k & s & key & H & _)];
      [exact H | now apply elem_of_nil in H].
  - rewrite IH, fixed_nonants_inner. unfold data_of. split.
    + intros [[H | (Hf & key & Hin)] | (Hf & k' & s' & key & Hin & Hv)].
      * now left.
      * right. split; [exact Hf|]. exists k, s, key. split; [now left | exact Hin].
      * right. split; [exact Hf|]. exists k', s', key. split; [now right | exact Hv].
    + intros [H | (Hf & k' & s' & key & Hin & Hv)]; [now left; left|].
      apply elem_of_cons in Hin as [[= -> ->] | Hin].
      * left. right. eauto.
      * right. split; [exact Hf|]. eauto.
Qed.

(** The set holds the non-anticipative variables that are fixed. *)
Lemma elem_of_create_fixed_nonant_cache st v :
  v ∈ _create_fixed_nonant_cache st
  <-> truthy (fixed (vars st !!! v)) = true /\ is_nonant st v.
Proof.
  unfold _create_fixed_nonant_cache, is_nonant. rewrite fixed_nonants_outer.
  split; [intros [H | H]; [now apply elem_of_empty in H | exact H] | auto].
Qed.

Lemma can_update_best_bound_true initial st :
  _can_update_best_bound initial st = true
  <-> forall v, is_nonant st v -> truthy (fixed (vars st !!! v)) = true -> v ∈ initial.
Proof.
  unfold _can_update_best_bound, is_nonant, data_of.
  rewrite forallb_forall. split.
  - intros H v (k & s & key & Hin & Hv) Hf.
    apply list_elem_of_In in Hin. specialize (H _ Hin). simpl in H.
    rewrite forallb_forall in H. apply list_elem_of_In in Hv. specialize (H _ Hv).
    simpl in H. rewrite Hf in H. now apply bool_decide_eq_true_1 in H.
  - intros H [k s] Hin. rewrite forallb_forall. intros [key v] Hv.
    destruct (truthy (fixed (vars st !!! v))) eqn:Hf; [|reflexivity].
    apply bool_decide_eq_true_2, H; [|exact Hf].
    exists k, s, key. split; now apply list_elem_of_In.
Qed.

(** [_can_update_best_bound()] is [True] right after
    [_create_fixed_nonant_cache()]; later, with the same scenarios and
    variable lists, it is [True] exactly when every non-anticipative
    variable that is fixed now was fixed then: a variable that has been
    freed does not count, one that has been fixed does. *)
Theorem _can_update_best_bound_spec st :
  _can_update_best_bound (_create_fixed_nonant_cache st) st = true /\
  forall st',
    local_scenarios st' = local_scenarios st ->
    (forall s, nonant_indices (data_of st' s) = nonant_indices (data_of st s)) ->
    (_can_update_best_bound (_create_fixed_nonant_cache st) st' = true
     <-> forall v, is_nonant st v ->
                   truthy (fixed (vars st' !!! v)) = true ->
                   truthy (fixed (vars st !!! v)) = true).
Proof.
  split.
  - apply can_update_best_bound_true. intros v Hv Hf.
    now apply elem_of_create_fixed_nonant_cache.
  - intros st' Hls Hni. rewrite can_update_best_bound_true.
    assert (forall v, is_nonant st' v <-> is_nonant st v) as Hsame.
    { intros v. unfold is_nonant. rewrite Hls.
      split; intros (k & s & key & Hin & Hv); exists k, s, key;
        (split; [exact Hin|]); [now rewrite <- Hni | now rewrite Hni]. }
    split.
    + intros H v Hv Hf.
      now apply (elem_of_create_fixed_nonant_cache st v), H; [apply Hsame|].
    + intros H v Hv Hf. apply Hsame in Hv.
      apply elem_of_create_fixed_nonant_cache. auto.
Qed.


(** Relations that [_restore_nonants] keeps: those that recording a call
    and changing a variable keep. *)
Section VarFrames.
Variable R : SPOpt -> SPOpt -> Prop.
Context `{!PreOrder R}.
Hypothesis R_emit : forall e st, R st (emit e st).
Hypothesis R_set_vars : forall f st, R st (set_vars f st).

Lemma kept_getattr {A} attr (field : mpisppy_data -> option A) s :
  frame R (getattr attr field s).
Proof.
  intros st r st'. unfold getattr.
  destruct (field _); intros [= _ <-]; reflexivity.
Qed.

Lemma kept_modify_var v f : frame R (modify_var v f).
Proof. apply frame_modify. intros st. apply R_set_vars. Qed.

Lemma kept__restore_nonants env update_persistent :
  frame R (_restore_nonants env update_persistent).
Proof.
  unfold _restore_nonants, restore_scenario_nonants, restore_nonant.
  repeat first [ apply kept_getattr | apply kept_modify_var
               | apply (kept_call R R_emit) | frame_step ].
Qed.

End VarFrames.

Definition same_models (st st' : SPOpt) : Prop :=
  local_scenarios st' = local_scenarios st /\ models st' = models st.

#[local] Instance same_models_preorder : PreOrder same_models.
Proof.
  split; [now intros st|].
  intros a b c [A1 A2] [B1 B2]. split; congruence.
Qed.

Lemma restore_nonants_same_models env update_persistent :
  frame same_models (_restore_nonants env update_persistent).
Proof. apply kept__restore_nonants; [exact _ | intros; split; reflexivity ..]. Qed.

(** [_can_update_best_bound()] gives after [_save_nonants()], any change
    to the variables, and [_restore_nonants()] what it gave before: the
    variables that an algorithm fixed in between are as they were. *)
Theorem save_restore_keeps_can_update env update_persistent st initial :
  (forall n e, raises env n e = None) ->
  (forall k s, (k, s) ∈ local_scenarios st -> cache_ready st s) ->
  exists st1,
    _save_nonants st = (Ok tt, st1) /\
    forall st2,
      local_scenarios st2 = local_scenarios st1 -> models st2 = models st1 ->
      exists st3,
        _restore_nonants env update_persistent st2 = (Ok tt, st3) /\
        _can_update_best_bound initial st3 = _can_update_best_bound initial st.
Proof.
  intros Hquiet Hready.
  destruct (save_restore_spec env update_persistent st Hquiet Hready)
    as (st1 & Hsave & Hrestore).
  destruct (save_all_spec (local_scenarios st) st Hready)
    as (st1' & Hsave' & (_ & Hls1 & Hni1) & _).
  assert (st1' = st1) as ->.
  { unfold _save_nonants in Hsave. rewrite bind_get in Hsave. congruence. }
  exists st1. split; [exact Hsave|].
  intros st2 Hls2 Hm2. destruct (Hrestore st2 Hls2 Hm2) as (st3 & Hrun & Hvars).
  exists st3. split; [exact Hrun|].
  destruct (restore_nonants_same_models _ _ _ _ _ Hrun) as [Hls3 Hm3].
  assert (forall s, nonant_indices (data_of st3 s) = nonant_indices (data_of st s))
    as Hni by (intros s; unfold data_of; rewrite Hm3, Hm2; apply Hni1).
  assert (forall v, is_nonant st3 v <-> is_nonant st v) as Hsame.
  { intros v. unfold is_nonant. rewrite Hls3, Hls2, Hls1.
    split; intros (k & s & key & Hin & Hv); exists k, s, key;
      (split; [exact Hin|]); [now rewrite <- Hni | now rewrite Hni]. }
  apply Bool.eq_iff_eq_true. rewrite !can_update_best_bound_true.
  split; intros H v Hv Hf.
  - apply H; [now apply Hsame|].
    destruct Hv as (k & s & key & Hin & Hv).
    apply list_elem_of_lookup_1 in Hv as [i Hi].
    destruct (Hvars k s i key v Hin Hi) as (Hfix & _). now rewrite Hfix.
  - apply Hsame in Hv. apply H; [exact Hv|].
    destruct Hv as (k & s & key & Hin & Hv).
    apply list_elem_of_lookup_1 in Hv as [i Hi].
    destruct (Hvars k s i key v Hin Hi) as (Hfix & _). now rewrite <- Hfix.
Qed.

(** A variable that is free at the save and fixed afterwards: the bound
    can be updated again once the variable is restored. *)
Lemma save_restore_keeps_can_update_witness :
  exists st1 st3,
    _save_nonants (one_variable (Some 2.5%float)) = (Ok tt, st1) /\
    _can_update_best_bound ∅
      (set_vars (fun _ => {[ 0 := {| _value := Some 7%float; fixed := Some true;
                                    stale := false |} ]}) st1) = false /\
    _restore_nonants quiet_env true
      (set_vars (fun _ => {[ 0 := {| _value := Some 7%float; fixed := Some true;
                                    stale := false |} ]}) st1) = (Ok tt, st3) /\
    _can_update_best_bound ∅ st3 = true.
Proof.
  destruct (save_restore_keeps_can_update quiet_env true (one_variable (Some 2.5%float)) ∅)
    as (st1 & Hsave & Hrestore); [reflexivity | apply one_variable_ready |].
  destruct (Hrestore
              (set_vars (fun _ => {[ 0 := {| _value := Some 7%float;
                                            fixed := Some true;
                                            stale := false |} ]}) st1)
              eq_refl eq_refl) as (st3 & Hr & Hcan).
  exists st1, st3. split; [exact Hsave|]. split.
  - assert (st1 = snd (_save_nonants (one_variable (Some 2.5%float)))) as ->
      by now rewrite Hsave.
    vm_compute. reflexivity.
  - split; [exact Hr|]. rewrite Hcan. vm_compute. reflexivity.
Defined.


(** *** [_put_nonant_cache] *)

(** The number of non-anticipative variables of the scenarios of [l]. *)
Definition count_nonants (st : SPOpt) (l : list (string * model_ref)) : nat :=
  sum_list (map (fun '(k, s) => length (nonant_indices (data_of st s))) l).

(** [st'] is [st] but for the [nonant_cache] of the models. *)
Definition same_but_nonant_cache (st st' : SPOpt) : Prop :=
  vars st' = vars st /\ local_scenarios st' = local_scenarios st /\
  forall s, nonant_indices (data_of st' s) = nonant_indices (data_of st s) /\
            fixedness_cache (data_of st' s) = fixedness_cache (data_of st s) /\
            scenario_feasible (data_of st' s) = scenario_feasible (data_of st s).

#[local] Instance same_but_nonant_cache_preorder : PreOrder same_but_nonant_cache.
Proof.
  split.
  - intros st. unfold same_but_nonant_cache. auto.
  - intros a b c (A1 & A2 & A3) (B1 & B2 & B3). unfold same_but_nonant_cache.
    split; [congruence|]. split; [congruence|]. intros s.
    destruct (A3 s) as (? & ? & ?), (B3 s) as (? & ? & ?). repeat split; congruence.
Qed.

Lemma bind_lift_ok {S A B} (a : A) (k : A -> M S B) s :
  bind (lift (Ok a)) k s = k a s.
Proof. reflexivity. Qed.

Lemma put_nonant_spec cache s ci i st c x :
  nonant_cache (data_of st s) = Some c ->
  cache !! ci = Some x -> i < length c ->
  put_nonant cache s ci i st
  = (Ok (ci + 1),
     put_model s (set_data (set_nonant_cache (<[i := x]> c)) (models st !!! s)) st).
Proof.
  intros Hc Hx Hi. unfold put_nonant.
  assert (ci < length cache) as Hlt by (now apply lookup_lt_Some in Hx).
  apply Nat.ltb_lt in Hlt as Hb. rewrite Hb. cbn [negb].
  unfold list_getitem. rewrite Hx. cbv beta iota. rewrite bind_lift_ok.
  rewrite (bind_eq _ _ _ _ _ (getattr_some _ _ _ _ _ Hc)).
  unfold list_setitem. apply Nat.ltb_lt in Hi as Hib. rewrite Hib. cbv beta iota.
  rewrite bind_lift_ok.
  now rewrite (bind_eq _ _ _ _ _ (modify_data_eq _ _ _)).
Qed.

Lemma put_loop_spec cache s :
  forall (rest : list ((string * nat) * var_ref)) i0 ci st c,
  nonant_cache (data_of st s) = Some c ->
  i0 + length rest <= length c ->
  ci + length rest <= length cache ->
  exists st' c',
    fold_each (combine (seq i0 (length rest)) rest) ci
      (fun ci '(i, _) => put_nonant cache s ci i) st
    = (Ok (ci + length rest), st') /\
    same_but_nonant_cache st st' /\
    (forall s', s' <> s -> models st' !!! s' = models st !!! s') /\
    nonant_cache (data_of st' s) = Some c' /\
    length c' = length c /\
    (forall i, i < i0 \/ i0 + length rest <= i -> c' !! i = c !! i) /\
    (forall i, i < length rest -> c' !! (i0 + i) = cache !! (ci + i)).
Proof.
  induction rest as [|[key x] rest IH]; intros i0 ci st c Hc Hlen Hcache.
  - exists st, c. simpl. rewrite Nat.add_0_r.
    split; [reflexivity|]. split; [reflexivity|].
    repeat split; auto. intros i Hi. lia.
  - simpl in Hlen, Hcache. simpl length. simpl seq. simpl combine. cbn [fold_each].
    destruct (lookup_lt_is_Some_2 cache ci) as [y Hy]; [lia|].
    rewrite (bind_eq _ _ _ _ _ (put_nonant_spec cache s ci i0 st c y Hc Hy ltac:(lia))).
    set (st1 := put_model s _ st).
    assert (nonant_cache (data_of st1 s) = Some (<[i0 := y]> c)) as Hc1
      by (unfold data_of, st1; now rewrite models_put_model_eq).
    destruct (IH (S i0) (ci + 1) st1 (<[i0 := y]> c) Hc1)
      as (st' & c' & Hrun & (Hv & Hls & Hd) & Hother & Hc' & Hlen' & Hkeep & Hnew);
      [rewrite length_insert; lia | lia |].
    exists st', c'. replace (ci + S (length rest)) with (ci + 1 + length rest) by lia.
    split; [exact Hrun|]. split.
    { split; [exact Hv|]. split; [exact Hls|]. intros s'.
      destruct (Hd s') as (H1 & H2 & H3). rewrite H1, H2, H3. unfold data_of, st1.
      destruct (decide (s' = s)) as [->|Hne];
        [now rewrite models_put_model_eq | now rewrite models_put_model_ne]. }
    split.
    { intros s' Hne. rewrite (Hother s' Hne). unfold st1.
      now rewrite models_put_model_ne. }
    split; [exact Hc'|]. split; [now rewrite Hlen', length_insert|]. split.
    + intros i Hi. rewrite Hkeep by lia. apply list_lookup_insert_ne. lia.
    + intros i Hi. destruct i as [|i].
      * rewrite !Nat.add_0_r, Hkeep by lia.
        rewrite list_lookup_insert_eq by lia. now rewrite Hy.
      * replace (i0 + S i) with (S i0 + i) by lia.
        replace (ci + S i) with (ci + 1 + i) by lia. apply Hnew. lia.
Qed.

(** The [nonant_cache] of [s] exists and can take the variables of [s]. *)
Definition has_room (st : SPOpt) (s : model_ref) : Prop :=
  exists c, nonant_cache (data_of st s) = Some c /\
            length (nonant_indices (data_of st s)) <= length c.

Lemma put_scenario_spec cache ci s st c :
  nonant_cache (data_of st s) = Some c ->
  length (nonant_indices (data_of st s)) <= length c ->
  ci + length (nonant_indices (data_of st s)) <= length cache ->
  exists st' c',
    put_scenario_nonants cache ci s st
    = (Ok (ci + length (nonant_indices (data_of st s))), st') /\
    same_but_nonant_cache st st' /\
    (forall s', s' <> s -> models st' !!! s' = models st !!! s') /\
    nonant_cache (data_of st' s) = Some c' /\
    length c' = length c /\
    (forall i, length (nonant_indices (data_of st s)) <= i -> c' !! i = c !! i) /\
    (forall i, i < length (nonant_indices (data_of st s)) ->
       c' !! i = cache !! (ci + i)).
Proof.
  intros Hc Hlen Hcache. unfold put_scenario_nonants.
  rewrite (bind_eq _ _ _ _ _ (getattr_some _ _ _ _ _ Hc)), bind_get.
  unfold enumerate. fold (data_of st s).
  destruct (put_loop_spec cache s (nonant_indices (data_of st s)) 0 ci st c Hc)
    as (st' & c' & Hrun & Hsame & Hother & Hc' & Hlen' & Hkeep & Hnew); [lia | lia |].
  exists st', c'. split; [exact Hrun|]. split; [exact Hsame|]. split; [exact Hother|].
  split; [exact Hc'|]. split; [exact Hlen'|]. split.
  - intros i Hi. apply Hkeep. right. simpl. lia.
  - intros i Hi. exact (Hnew i Hi).
Qed.

Lemma count_nonants_same st st' l :
  same_but_nonant_cache st st' -> count_nonants st' l = count_nonants st l.
Proof.
  intros (_ & _ & Hd). unfold count_nonants. f_equal. apply map_ext.
  intros [k s]. now destruct (Hd s) as [-> _].
Qed.

Lemma put_all_spec cache : forall (l : list (string * model_ref)) ci st,
  NoDup (map snd l) ->
  (forall k s, (k, s) ∈ l -> has_room st s) ->
  ci + count_nonants st l <= length cache ->
  exists st',
    fold_each l ci (fun ci '(sname, model) => put_scenario_nonants cache ci model) st
    = (Ok (ci + count_nonants st l), st') /\
    same_but_nonant_cache st st' /\
    (forall s', s' ∉ map snd l -> models st' !!! s' = models st !!! s') /\
    forall j k s i,
      l !! j = Some (k, s) -> i < length (nonant_indices (data_of st s)) ->
      exists c', nonant_cache (data_of st' s) = Some c' /\
                 c' !! i = cache !! (ci + count_nonants st (take j l) + i).
Proof.
  induction l as [|[k0 s0] l IH]; intros ci st Hnd Hroom Hcache.
  - exists st. unfold count_nonants. simpl. rewrite Nat.add_0_r.
    split; [reflexivity|]. split; [reflexivity|]. split; [reflexivity|].
    intros j k s i Hj. discriminate Hj.
  - apply NoDup_cons in Hnd as [Hnotin Hnd].
    destruct (Hroom k0 s0) as (c & Hc & Hlen); [now left|].
    unfold count_nonants in Hcache |- *. simpl in Hcache |- *.
    fold (count_nonants st l) in Hcache |- *.
    destruct (put_scenario_spec cache ci s0 st c Hc Hlen)
      as (st1 & c1 & Hrun & Hsame & Hother & Hc1 & Hlen1 & Hkeep & Hnew); [lia|].
    rewrite (bind_eq _ _ _ _ _ Hrun).
    pose proof Hsame as (Hv1 & Hls1 & Hd1).
    destruct (IH (ci + length (nonant_indices (data_of st s0))) st1 Hnd)
      as (st' & Hrest & Hsame' & Hother' & Hall).
    { intros k s Hin. destruct (Hroom k s) as (c' & Hc' & Hlen'); [now right|].
      assert (s <> s0) as Hne.
      { intros ->. apply Hnotin, list_elem_of_In, in_map_iff.
        exists (k, s0). split; [reflexivity | now apply list_elem_of_In]. }
      exists c'. unfold data_of in *. rewrite (Hother s Hne). auto. }
    { rewrite (count_nonants_same _ _ _ Hsame). lia. }
    rewrite (count_nonants_same _ _ _ Hsame) in Hrest.
    exists st'. rewrite Nat.add_assoc. split; [exact Hrest|].
    split; [now transitivity st1|]. split.
    { intros s' Hs'. rewrite Hother'.
      - apply Hother. intros ->. apply Hs'. now left.
      - intros Hin. apply Hs'. now right. }
    intros j k s i Hj Hi. destruct j as [|j].
    + injection Hj as -> ->. simpl. rewrite Nat.add_0_r.
      exists c1. split; [|now apply Hnew].
      unfold data_of in *. rewrite Hother'; [exact Hc1|].
      intros Hin. apply Hnotin. exact Hin.
    + simpl in Hj. destruct (Hd1 s) as (Hni & _).
      destruct (Hall j k s i Hj) as (c' & Hc' & Hi'); [now rewrite Hni|].
      exists c'. split; [exact Hc'|]. rewrite Hi'.
      rewrite (count_nonants_same _ _ _ Hsame). f_equal.
      unfold count_nonants. simpl. fold (count_nonants st (take j l)).
      unfold count_nonants. lia.
Qed.

(** [_put_nonant_cache(cache)], on distinct scenario objects whose
    [nonant_cache] exists and is long enough, and with a [cache] that has
    an entry for every non-anticipative variable, returns; it changes
    nothing but the caches, and the cache of each scenario then holds, at
    the index of each of its variables, the entry of [cache] at that index
    plus the number of variables of the scenarios before it. *)
Theorem _put_nonant_cache_spec cache st :
  NoDup (map snd (local_scenarios st)) ->
  (forall k s, (k, s) ∈ local_scenarios st -> has_room st s) ->
  count_nonants st (local_scenarios st) <= length cache ->
  exists st',
    _put_nonant_cache cache st = (Ok tt, st') /\
    same_but_nonant_cache st st' /\
    forall j k s i,
      local_scenarios st !! j = Some (k, s) ->
      i < length (nonant_indices (data_of st s)) ->
      exists c', nonant_cache (data_of st' s) = Some c' /\
                 c' !! i = cache !! (count_nonants st (take j (local_scenarios st)) + i).
Proof.
  intros Hnd Hroom Hcache. unfold _put_nonant_cache. rewrite bind_get.
  destruct (put_all_spec cache (local_scenarios st) 0 st Hnd Hroom)
    as (st' & Hrun & Hsame & _ & Hall); [simpl; lia|].
  exists st'. rewrite (bind_eq _ _ _ _ _ Hrun).
  split; [reflexivity|]. split; [exact Hsame|]. exact Hall.
Qed.

(** Two scenarios with one and two variables, their caches made by
    [_save_nonants]: the second scenario gets the second and third entry
    of the vector. *)
Lemma _put_nonant_cache_spec_witness :
  exists st' c',
    _put_nonant_cache [10%float; 20%float; 30%float]
      (snd (_save_nonants two_scenarios)) = (Ok tt, st') /\
    nonant_cache (data_of st' 1) = Some c' /\
    c' !! 0 = Some 20%float /\ c' !! 1 = Some 30%float.
Proof.
  destruct (_put_nonant_cache_spec [10%float; 20%float; 30%float]
              (snd (_save_nonants two_scenarios)))
    as (st' & Hrun & _ & Hall).
  - apply (bool_decide_unpack _). vm_compute. exact I.
  - intros k s Hin.
    assert (local_scenarios (snd (_save_nonants two_scenarios))
            = [("scen0", 0); ("scen1", 1)]) as Hls by (vm_compute; reflexivity).
    rewrite Hls in Hin.
    apply elem_of_cons in Hin as [[= -> ->] | Hin];
      [|apply list_elem_of_singleton in Hin; injection Hin as -> ->];
      eexists; (split; [vm_compute; reflexivity | vm_compute; lia]).
  - vm_compute. lia.
  - destruct (Hall 1 "scen1" 1 0) as (c' & Hc' & H0);
      [vm_compute; reflexivity | vm_compute; lia |].
    destruct (Hall 1 "scen1" 1 1) as (c'' & Hc'' & H1);
      [vm_compute; reflexivity | vm_compute; lia |].
    exists st', c'. split; [exact Hrun|]. split; [exact Hc'|].
    rewrite Hc' in Hc''. injection Hc'' as <-.
    split; [exact H0 | exact H1].
Defined.


Lemma put_nonant_short cache s ci i st :
  length cache <= ci -> put_nonant cache s ci i st = (Raise AssertionError, st).
Proof.
  intros H. unfold put_nonant. apply Nat.ltb_ge in H. now rewrite H.
Qed.

Lemma put_loop_short cache s :
  forall (rest : list ((string * nat) * var_ref)) i0 ci st c,
  nonant_cache (data_of st s) = Some c ->
  i0 + length rest <= length c ->
  ci <= length cache ->
  length cache < ci + length rest ->
  exists st',
    fold_each (combine (seq i0 (length rest)) rest) ci
      (fun ci '(i, _) => put_nonant cache s ci i) st
    = (Raise AssertionError, st') /\
    same_but_nonant_cache st st'.
Proof.
  induction rest as [|[key x] rest IH]; intros i0 ci st c Hc Hlen Hci Hshort;
    [simpl in Hshort; lia|].
  simpl in Hlen, Hshort. simpl length. simpl seq. simpl combine. cbn [fold_each].
  destruct (decide (ci < length cache)) as [Hlt|Hge].
  - destruct (lookup_lt_is_Some_2 cache ci Hlt) as [y Hy].
    rewrite (bind_eq _ _ _ _ _ (put_nonant_spec cache s ci i0 st c y Hc Hy ltac:(lia))).
    set (st1 := put_model s _ st).
    assert (nonant_cache (data_of st1 s) = Some (<[i0 := y]> c)) as Hc1
      by (unfold data_of, st1; now rewrite models_put_model_eq).
    destruct (IH (S i0) (ci + 1) st1 (<[i0 := y]> c) Hc1)
      as (st' & Hrun & Hv & Hls & Hd); [rewrite length_insert; lia | lia | lia |].
    exists st'. split; [exact Hrun|].
    split; [exact Hv|]. split; [exact Hls|]. intros s'.
    destruct (Hd s') as (H1 & H2 & H3). rewrite H1, H2, H3. unfold data_of, st1.
    destruct (decide (s' = s)) as [->|Hne];
      [now rewrite models_put_model_eq | now rewrite models_put_model_ne].
  - rewrite (bind_raise _ _ _ _ _ (put_nonant_short cache s ci i0 st ltac:(lia))).
    exists st. split; reflexivity.
Qed.

Lemma put_all_short cache : forall (l : list (string * model_ref)) ci st,
  NoDup (map snd l) ->
  (forall k s, (k, s) ∈ l -> has_room st s) ->
  ci <= length cache ->
  length cache < ci + count_nonants st l ->
  exists st',
    fold_each l ci (fun ci '(sname, model) => put_scenario_nonants cache ci model) st
    = (Raise AssertionError, st') /\
    same_but_nonant_cache st st'.
Proof.
  induction l as [|[k0 s0] l IH]; intros ci st Hnd Hroom Hci Hshort.
  - unfold count_nonants in Hshort. simpl in Hshort. lia.
  - apply NoDup_cons in Hnd as [Hnotin Hnd].
    destruct (Hroom k0 s0) as (c & Hc & Hlen); [now left|].
    unfold count_nonants in Hshort. simpl in Hshort.
    fold (count_nonants st l) in Hshort. cbn [fold_each].
    destruct (decide (ci + length (nonant_indices (data_of st s0)) <= length cache))
      as [Hfits|Hnot].
    + destruct (put_scenario_spec cache ci s0 st c Hc Hlen Hfits)
        as (st1 & c1 & Hrun & Hsame & Hother & _).
      rewrite (bind_eq _ _ _ _ _ Hrun).
      destruct (IH (ci + length (nonant_indices (data_of st s0))) st1 Hnd)
        as (st' & Hrest & Hsame').
      { intros k s Hin. destruct (Hroom k s) as (c' & Hc' & Hlen'); [now right|].
        assert (s <> s0) as Hne.
        { intros ->. apply Hnotin, list_elem_of_In, in_map_iff.
          exists (k, s0). split; [reflexivity | now apply list_elem_of_In]. }
        exists c'. unfold data_of in *. rewrite (Hother s Hne). auto. }
      { lia. }
      { rewrite (count_nonants_same _ _ _ Hsame). lia. }
      exists st'. split; [exact Hrest | now transitivity st1].
    + assert ((put_scenario_nonants cache ci s0) st
              = (fold_each (combine (seq 0 (length (nonant_indices (data_of st s0))))
                              (nonant_indices (data_of st s0))) ci
                   (fun ci '(i, _) => put_nonant cache s0 ci i)) st) as Hunfold.
      { unfold put_scenario_nonants.
        now rewrite (bind_eq _ _ _ _ _ (getattr_some _ _ _ _ _ Hc)), bind_get. }
      destruct (put_loop_short cache s0 (nonant_indices (data_of st s0)) 0 ci st c Hc)
        as (st' & Hrun & Hsame); [lia | lia | lia |].
      rewrite <- Hunfold in Hrun. rewrite (bind_raise _ _ _ _ _ Hrun).
      exists st'. split; [reflexivity | exact Hsame].
Qed.

(** [_put_nonant_cache(cache)] with a [cache] that has fewer entries than
    there are non-anticipative variables (the scenario objects distinct,
    their caches long enough) raises [AssertionError]; nothing but the
    caches has changed by then. *)
Theorem _put_nonant_cache_short cache st :
  NoDup (map snd (local_scenarios st)) ->
  (forall k s, (k, s) ∈ local_scenarios st -> has_room st s) ->
  length cache < count_nonants st (local_scenarios st) ->
  exists st',
    _put_nonant_cache cache st = (Raise AssertionError, st') /\
    same_but_nonant_cache st st'.
Proof.
  intros Hnd Hroom Hshort. unfold _put_nonant_cache. rewrite bind_get.
  destruct (put_all_short cache (local_scenarios st) 0 st Hnd Hroom)
    as (st' & Hrun & Hsame); [lia | simpl; lia |].
  exists st'. now rewrite (bind_raise _ _ _ _ _ Hrun).
Qed.

(** Three variables and a vector of two entries. *)
Lemma _put_nonant_cache_short_witness :
  exists st',
    _put_nonant_cache [10%float; 20%float] (snd (_save_nonants two_scenarios))
    = (Raise AssertionError, st').
Proof.
  destruct (_put_nonant_cache_short [10%float; 20%float]
              (snd (_save_nonants two_scenarios)))
    as (st' & Hrun & _).
  - apply (bool_decide_unpack _). vm_compute. exact I.
  - intros k s Hin.
    assert (local_scenarios (snd (_save_nonants two_scenarios))
            = [("scen0", 0); ("scen1", 1)]) as Hls by (vm_compute; reflexivity).
    rewrite Hls in Hin.
    apply elem_of_cons in Hin as [[= -> ->] | Hin];
      [|apply list_elem_of_singleton in Hin; injection Hin as -> ->];
      eexists; (split; [vm_compute; reflexivity | vm_compute; lia]).
  - vm_compute. lia.
  - exists st'. exact Hrun.
Defined.


(** *** [solve_one] with an agnostic callout *)




(** [_save_nonants] on caches that can take the variables returns, changes
    no variable, and leaves in the caches of every local scenario, at the
    position of each nonanticipative variable, its value as a double (NaN
    when it has none) and its fixedness. *)
Theorem _save_nonants_fills_caches st :
  (forall k s, (k, s) ∈ local_scenarios st -> cache_ready st s) ->
  exists st',
    _save_nonants st = (Ok tt, st') /\
    vars st' = vars st /\
    forall k s, (k, s) ∈ local_scenarios st ->
      exists c f,
        nonant_cache (data_of st' s) = Some c /\
        fixedness_cache (data_of st' s) = Some f /\
        forall ci key x,
          nonant_indices (data_of st s) !! ci = Some (key, x) ->
          c !! ci = Some (np_double (_value (vars st !!! x))) /\
          f !! ci = Some (fixed (vars st !!! x)).
Proof.
  intros Hready.
  destruct (save_all_spec (local_scenarios st) st Hready)
    as (st' & Hrun & (Hv & _ & Hidx) & _ & Hall).
  exists st'. split; [exact Hrun|]. split; [exact Hv|].
  intros k s Hin. destruct (Hall k s Hin) as (c & f & Hc & Hf & Hat).
  exists c, f. split; [exact Hc|]. split; [exact Hf|].
  intros ci key x Hx. apply (Hat ci key x). now rewrite Hidx.
Qed.

(** A variable at 2.5 and a variable without value. *)
Lemma _save_nonants_fills_caches_witness :
  (exists st' c,
     _save_nonants (one_variable (Some 2.5%float)) = (Ok tt, st') /\
     nonant_cache (data_of st' 0) = Some c /\ c !! 0 = Some 2.5%float) /\
  (exists st' c,
     _save_nonants (one_variable None) = (Ok tt, st') /\
     nonant_cache (data_of st' 0) = Some c /\ c !! 0 = Some PrimFloat.nan).
Proof.
  split.
  - destruct (_save_nonants_fills_caches (one_variable (Some 2.5%float)))
      as (st' & Hrun & _ & Hall); [apply one_variable_ready|].
    destruct (Hall "scen0" 0) as (c & f & Hc & _ & Hat); [now left|].
    destruct (Hat 0 ("ROOT", 0) 0) as [Hv _]; [reflexivity|].
    exists st', c. split; [exact Hrun|]. split; [exact Hc | exact Hv].
  - destruct (_save_nonants_fills_caches (one_variable None))
      as (st' & Hrun & _ & Hall); [apply one_variable_ready|].
    destruct (Hall "scen0" 0) as (c & f & Hc & _ & Hat); [now left|].
    destruct (Hat 0 ("ROOT", 0) 0) as [Hv _]; [reflexivity|].
    exists st', c. split; [exact Hrun|]. split; [exact Hc | exact Hv].
Defined.

End SpoptFacts.
